(** * CostWise: source aggregation and cache layer

    A shallow embedding of the request-level rate limiter
    ([src/lib/api/rate-limit.ts]), the cache store ([src/lib/cache.ts] and the
    fetch wrapper of [lib/api/cache.ts]), the ZIP-to-metro resolver and the
    rent fetcher ([src/lib/api/hud.ts] with its route), the price-parity
    fetcher ([src/lib/api/bea.ts]), the energy fetcher ([lib/api/eia.ts]) and
    the price-index fetcher ([src/lib/api/bls.ts]).

    Conventions of the embedding:
    - [Date.now()] is an explicit argument (milliseconds, [Z]);
    - module-level mutable tables are passed in and returned;
    - the external store and the upstream APIs are replies handed to the
      function that awaits them;
    - a JavaScript exception is the [Throw] outcome of [result];
    - prices, ratios and index values are rationals ([Q]). *)

From stdpp Require Import gmap strings list pretty.
From Stdlib Require Import Ascii ZArith QArith Lia Lqa Permutation Sorted.
From Stdlib Require OrderedTypeEx.

Local Open Scope Z_scope.

(** ** Outcomes of code that may throw *)

Inductive result (A : Type) : Type :=
| Ok (a : A)
| Throw (message : string).
Arguments Ok {A} a.
Arguments Throw {A} message.

#[global] Instance result_ret : MRet result := λ A a, Ok a.

#[global] Instance result_bind : MBind result := λ A B k r,
  match r with
  | Ok a => k a
  | Throw m => Throw m
  end.

(** [try { body } catch { handler }] *)
Definition try_catch {A} (body : result A) (handler : string → result A) : result A :=
  match body with
  | Ok a => Ok a
  | Throw m => handler m
  end.

(** ** Rate limiter: [src/lib/api/rate-limit.ts] *)

Module RateLimit.

Record RateLimitEntry : Type := { count : Z; resetTime : Z }.

Record RateLimitConfig : Type := { windowMs : Z; maxRequests : Z }.

Record RateLimitResult : Type := {
  allowed : bool;
  remaining : Z;
  resultResetTime : Z;
  retryAfter : option Z
}.

(** [Math.ceil(a / b)] on integers, for a positive divisor. *)
Definition ceil_div (a b : Z) : Z := - ((- a) / b).

(** The table [rateLimitStore], a [Map<string, RateLimitEntry>]. *)
Abbreviation Store := (gmap string RateLimitEntry).

Definition freshWindow (now : Z) (identifier : string) (config : RateLimitConfig)
    (store : Store) : RateLimitResult * Store :=
  ({| allowed := true;
      remaining := maxRequests config - 1;
      resultResetTime := now + windowMs config;
      retryAfter := None |},
   <[identifier := {| count := 1; resetTime := now + windowMs config |}]> store).

Definition checkRateLimit (now : Z) (identifier : string) (config : RateLimitConfig)
    (store : Store) : RateLimitResult * Store :=
  match store !! identifier with
  | None => freshWindow now identifier config store
  | Some entry =>
      if resetTime entry <? now then freshWindow now identifier config store
      else if maxRequests config <=? count entry then
        ({| allowed := false;
            remaining := 0;
            resultResetTime := resetTime entry;
            retryAfter := Some (ceil_div (resetTime entry - now) 1000) |},
         store)
      else
        let entry' := {| count := count entry + 1; resetTime := resetTime entry |} in
        ({| allowed := true;
            remaining := maxRequests config - count entry';
            resultResetTime := resetTime entry';
            retryAfter := None |},
         <[identifier := entry']> store)
  end.

(** The periodic sweep installed with [setInterval]. *)
Definition cleanup (now : Z) (store : Store) : Store :=
  filter (λ kv : string * RateLimitEntry, ¬ (resetTime kv.2 < now)) store.

(** Consecutive calls for one identifier at the given instants. *)
Fixpoint checkMany (times : list Z) (identifier : string) (config : RateLimitConfig)
    (store : Store) : list RateLimitResult * Store :=
  match times with
  | [] => ([], store)
  | now :: rest =>
      let '(r, store1) := checkRateLimit now identifier config store in
      let '(rs, store2) := checkMany rest identifier config store1 in
      (r :: rs, store2)
  end.

(** What can happen to the table: a check by some client, or the sweep. *)
Inductive event : Type :=
| Call (identifier : string) (now : Z)
| Sweep (now : Z).

Definition step (config : RateLimitConfig) (store : Store) (e : event) : Store :=
  match e with
  | Call identifier now => (checkRateLimit now identifier config store).2
  | Sweep now => cleanup now store
  end.

Definition run (config : RateLimitConfig) (events : list event) (store : Store) : Store :=
  foldl (step config) store events.

(** No bucket counts more than the configured maximum. *)
Definition bounded (config : RateLimitConfig) (store : Store) : Prop :=
  ∀ identifier entry,
    store !! identifier = Some entry → count entry ≤ maxRequests config.

(** The first [k] calls of a window opened at [t1]: the last of them is
    allowed and reports [maxRequests - count] for the stored count [k]. *)
Definition allowedUpTo (config : RateLimitConfig) (identifier : string) (store : Store)
    (times : list Z) (t1 : Z) (k : nat) : Prop :=
  let '(rs, store_k) := checkMany (take k times) identifier config store in
  ∃ r entry,
    last rs = Some r ∧ store_k !! identifier = Some entry ∧
    allowed r = true ∧ retryAfter r = None ∧
    count entry = Z.of_nat k ∧
    resetTime entry = t1 + windowMs config ∧
    resultResetTime r = resetTime entry ∧
    remaining r = maxRequests config - count entry.

(** The behaviour of [N + 1] calls at [t1 :: later] followed by one call at
    [after]: calls 1..N allowed, call N+1 rejected with a positive
    [retryAfter], and the call at [after] opens a fresh window. *)
Definition windowSequence (config : RateLimitConfig) (identifier : string)
    (store : Store) (t1 : Z) (later : list Z) (after : Z) : Prop :=
  let N := Z.to_nat (maxRequests config) in
  let '(rs, store') := checkMany (t1 :: later) identifier config store in
  (∀ k, (1 ≤ k ≤ N)%nat → allowedUpTo config identifier store (t1 :: later) t1 k) ∧
  (∃ r secs,
     rs !! N = Some r ∧ allowed r = false ∧
     retryAfter r = Some secs ∧ 0 < secs) ∧
  (let '(r, store'') := checkRateLimit after identifier config store' in
   allowed r = true ∧
   remaining r = maxRequests config - 1 ∧
   resultResetTime r = after + windowMs config ∧
   store'' !! identifier = Some {| count := 1; resetTime := after + windowMs config |}).

(** *** Facts about one call *)

Lemma check_fresh now identifier config (store : Store) :
  (store !! identifier = None ∨
   ∃ entry, store !! identifier = Some entry ∧ resetTime entry < now) →
  checkRateLimit now identifier config store = freshWindow now identifier config store.
Proof.
  intros [Hnone | (entry & Hsome & Hlt)]; unfold checkRateLimit.
  - by rewrite Hnone.
  - rewrite Hsome. apply Z.ltb_lt in Hlt. by rewrite Hlt.
Qed.

Lemma check_in_window now identifier config (store : Store) entry :
  store !! identifier = Some entry →
  now ≤ resetTime entry →
  count entry < maxRequests config →
  checkRateLimit now identifier config store =
    ({| allowed := true;
        remaining := maxRequests config - (count entry + 1);
        resultResetTime := resetTime entry;
        retryAfter := None |},
     <[identifier := {| count := count entry + 1; resetTime := resetTime entry |}]> store).
Proof.
  intros Hsome Hnow Hcount. unfold checkRateLimit. rewrite Hsome.
  destruct (Z.ltb_spec (resetTime entry) now); [lia|].
  destruct (Z.leb_spec (maxRequests config) (count entry)); [lia|].
  reflexivity.
Qed.

Lemma check_rejected now identifier config (store : Store) entry :
  store !! identifier = Some entry →
  now ≤ resetTime entry →
  maxRequests config ≤ count entry →
  checkRateLimit now identifier config store =
    ({| allowed := false;
        remaining := 0;
        resultResetTime := resetTime entry;
        retryAfter := Some (ceil_div (resetTime entry - now) 1000) |},
     store).
Proof.
  intros Hsome Hnow Hcount. unfold checkRateLimit. rewrite Hsome.
  destruct (Z.ltb_spec (resetTime entry) now); [lia|].
  destruct (Z.leb_spec (maxRequests config) (count entry)); [|lia].
  reflexivity.
Qed.

Lemma ceil_div_pos (a : Z) : 0 < a → 0 < ceil_div a 1000.
Proof.
  intros Ha. unfold ceil_div.
  assert ((- a) / 1000 < 0); [|lia].
  apply Z.div_lt_upper_bound; lia.
Qed.

Lemma rejected_keeps_store now identifier config (store : Store) :
  allowed (checkRateLimit now identifier config store).1 = false →
  (checkRateLimit now identifier config store).2 = store.
Proof.
  unfold checkRateLimit, freshWindow.
  destruct (store !! identifier) as [entry|]; [|done].
  destruct (resetTime entry <? now); [done|].
  destruct (maxRequests config <=? count entry); done.
Qed.

(** A bucket just written is within bounds, the others are untouched. *)
Ltac bounded_after_insert Hb :=
  let i := fresh "i" in
  let e := fresh "e" in
  intros i e; simpl; rewrite lookup_insert;
  case_decide; [intros [= <-]; simpl; lia | apply Hb].

Lemma check_bounded now identifier config (store : Store) :
  1 ≤ maxRequests config →
  bounded config store →
  bounded config (checkRateLimit now identifier config store).2.
Proof.
  intros Hmax Hb. unfold checkRateLimit, freshWindow.
  destruct (store !! identifier) as [entry|] eqn:Hsome.
  - destruct (resetTime entry <? now); [bounded_after_insert Hb|].
    destruct (Z.leb_spec (maxRequests config) (count entry)); [exact Hb|].
    bounded_after_insert Hb.
  - bounded_after_insert Hb.
Qed.

Lemma cleanup_bounded now config (store : Store) :
  bounded config store → bounded config (cleanup now store).
Proof.
  intros Hb i e Hlook. unfold cleanup in Hlook.
  apply map_lookup_filter_Some in Hlook as [Hlook _]. by eapply Hb.
Qed.

Lemma run_bounded config events (store : Store) :
  1 ≤ maxRequests config →
  bounded config store →
  bounded config (run config events store).
Proof.
  intros Hmax. revert store.
  induction events as [|e events IH]; intros store Hb; [exact Hb|].
  simpl. apply IH. destruct e; simpl.
  - by apply check_bounded.
  - by apply cleanup_bounded.
Qed.

Lemma checkMany_app l1 l2 identifier config (store : Store) :
  checkMany (l1 ++ l2) identifier config store =
    let '(rs1, store1) := checkMany l1 identifier config store in
    let '(rs2, store2) := checkMany l2 identifier config store1 in
    (rs1 ++ rs2, store2).
Proof.
  revert store. induction l1 as [|t l1 IH]; intros store; simpl.
  - by destruct (checkMany l2 identifier config store).
  - destruct (checkRateLimit t identifier config store) as [r store1].
    rewrite IH.
    destruct (checkMany l1 identifier config store1) as [rs1 store1'].
    by destruct (checkMany l2 identifier config store1').
Qed.

(** Calls that stay inside the current window and below the maximum are
    all allowed, and the bucket counts them. *)
Lemma checkMany_in_window times identifier config (store : Store) entry :
  store !! identifier = Some entry →
  Forall (λ t, t ≤ resetTime entry) times →
  count entry + Z.of_nat (length times) ≤ maxRequests config →
  ∃ rs store',
    checkMany times identifier config store = (rs, store') ∧
    length rs = length times ∧
    store' !! identifier =
      Some {| count := count entry + Z.of_nat (length times);
              resetTime := resetTime entry |} ∧
    ∀ r, last rs = Some r →
      allowed r = true ∧ retryAfter r = None ∧
      resultResetTime r = resetTime entry ∧
      remaining r = maxRequests config - (count entry + Z.of_nat (length times)).
Proof.
  revert store entry.
  induction times as [|t times IH]; intros store entry Hsome Hall Hcount.
  - exists [], store. simpl. split; [done|]. split; [done|]. split; [|done].
    rewrite Hsome. f_equal. destruct entry; simpl; f_equal; lia.
  - apply Forall_cons in Hall as [Ht Hall].
    simpl in Hcount. simpl checkMany.
    rewrite (check_in_window t identifier config store entry Hsome Ht); [|lia].
    set (entry' := {| count := count entry + 1; resetTime := resetTime entry |}).
    destruct (IH (<[identifier := entry']> store) entry') as (rs & store' & Hrun & Hlen & Hfin & Hlast).
    + by rewrite lookup_insert_eq.
    + exact Hall.
    + simpl. lia.
    + rewrite Hrun. eexists _, store'. split; [reflexivity|].
      split; [simpl; by rewrite Hlen|].
      split; [rewrite Hfin; simpl; f_equal; f_equal; lia|].
      intros r Hr. destruct rs as [|r0 rs].
      * destruct times; [|done]. simpl in Hr. injection Hr as <-. simpl.
        repeat split; lia.
      * rewrite last_cons_cons in Hr. destruct (Hlast r Hr) as (? & ? & ? & ?).
        simpl in *. repeat split; try done. lia.
Qed.

Lemma checkMany_window_opened t1 times identifier config (store : Store) :
  (store !! identifier = None ∨
   ∃ entry, store !! identifier = Some entry ∧ resetTime entry < t1) →
  Forall (λ t, t ≤ t1 + windowMs config) times →
  1 + Z.of_nat (length times) ≤ maxRequests config →
  ∃ rs store',
    checkMany (t1 :: times) identifier config store = (rs, store') ∧
    length rs = S (length times) ∧
    store' !! identifier =
      Some {| count := 1 + Z.of_nat (length times);
              resetTime := t1 + windowMs config |} ∧
    ∃ r, last rs = Some r ∧
      allowed r = true ∧ retryAfter r = None ∧
      resultResetTime r = t1 + windowMs config ∧
      remaining r = maxRequests config - (1 + Z.of_nat (length times)).
Proof.
  intros Hfresh Hall Hcount. simpl checkMany.
  rewrite (check_fresh _ _ _ _ Hfresh). unfold freshWindow.
  set (entry := {| count := 1; resetTime := t1 + windowMs config |}).
  destruct (checkMany_in_window times identifier config
              (<[identifier := entry]> store) entry)
    as (rs & store' & Hrun & Hlen & Hfin & Hlast).
  - by rewrite lookup_insert_eq.
  - exact Hall.
  - simpl. lia.
  - rewrite Hrun. eexists _, store'. split; [reflexivity|].
    split; [simpl; by rewrite Hlen|]. split; [exact Hfin|].
    destruct rs as [|r0 rs].
    + destruct times; [|done]. eexists. split; [reflexivity|]. simpl.
      repeat split; lia.
    + rewrite last_cons_cons.
      destruct (last (r0 :: rs)) as [r|] eqn:Hr; [|by apply last_None in Hr].
      exists r. split; [done|]. by apply Hlast.
Qed.

(** C3 (amended): with [maxRequests = N ≥ 1], a first call at [t1] that
    opens a window and [N] further calls strictly before its [resetTime]
    behave as a fixed window: calls 1..N are allowed with
    [remaining = N - count], call N+1 is rejected with [retryAfter > 0], and
    a call after [resetTime] is allowed in a fresh window. *)
Theorem fixed_window_sequence config identifier (store : Store) t1 later after :
  1 ≤ maxRequests config →
  (store !! identifier = None ∨
   ∃ entry, store !! identifier = Some entry ∧ resetTime entry < t1) →
  length later = Z.to_nat (maxRequests config) →
  Forall (λ t, t < t1 + windowMs config) later →
  t1 + windowMs config < after →
  windowSequence config identifier store t1 later after.
Proof.
  intros Hmax Hfresh Hlen Hin Hafter. unfold windowSequence.
  assert (Hle : Forall (λ t, t ≤ t1 + windowMs config) later).
  { eapply Forall_impl; [exact Hin|]. simpl. intros; lia. }
  destruct (checkMany (t1 :: later) identifier config store) as [rs store'] eqn:Hrun.
  (* the last of the later calls is call N+1 *)
  destruct (decide (later = [])) as [->|Hne]; [simpl in Hlen; lia|].
  destruct (exists_last Hne) as (init & tlast & ->).
  rewrite length_app in Hlen. simpl in Hlen.
  apply Forall_app in Hin as [_ Hlast]. apply Forall_inv in Hlast.
  apply Forall_app in Hle as [Hinit _].
  destruct (checkMany_window_opened t1 init identifier config store Hfresh Hinit)
    as (rs1 & store1 & Hrun1 & Hlen1 & Hfin1 & _); [lia|].
  change (t1 :: init ++ [tlast]) with ((t1 :: init) ++ [tlast]) in Hrun.
  rewrite checkMany_app, Hrun1 in Hrun. simpl in Hrun.
  rewrite (check_rejected tlast identifier config store1 _ Hfin1) in Hrun;
    [|simpl; lia|simpl; lia].
  injection Hrun as <- <-. simpl.
  split; [|split].
  - intros k Hk. unfold allowedUpTo.
    destruct k as [|k]; [lia|]. simpl take.
    destruct (checkMany_window_opened t1 (take k (init ++ [tlast])) identifier
                config store Hfresh)
      as (rsk & storek & Hrunk & _ & Hfink & r & Hr & Ha & Hra & Hrt & Hrem).
    + apply Forall_take. apply Forall_app. split; [exact Hinit|].
      apply Forall_singleton. lia.
    + rewrite length_take, length_app. simpl. lia.
    + rewrite Hrunk. eexists r, _. split; [exact Hr|]. split; [exact Hfink|].
      assert (length (take k (init ++ [tlast])) = k) as Hk'.
      { rewrite length_take, length_app. simpl. lia. }
      rewrite Hk' in *. simpl. repeat split; try done; lia.
  - eexists _, _. split.
    + rewrite lookup_app_r; [|lia].
      replace (Z.to_nat (maxRequests config) - length rs1)%nat with 0%nat by lia. reflexivity.
    + simpl. repeat split. apply ceil_div_pos. lia.
  - rewrite check_fresh.
    + unfold freshWindow. simpl. by rewrite lookup_insert_eq.
    + right. eexists. split; [exact Hfin1|]. simpl. lia.
Qed.

(** The amended C3 at the heavy limit's shape, scaled down: two requests
    per minute. *)
Lemma fixed_window_sequence_witness :
  windowSequence {| windowMs := 60000; maxRequests := 2 |} "bls:10.0.0.1" ∅
    1000 [2000; 3000] 70000.
Proof.
  apply fixed_window_sequence.
  - simpl. lia.
  - left. apply lookup_empty.
  - reflexivity.
  - repeat constructor; simpl; lia.
  - simpl. lia.
Defined.

(** C3 as stated fails at the edges: with [maxRequests = 0] the very first
    call (call N+1) is allowed, and a call N+1 made exactly at [resetTime]
    is still inside the window and is rejected with [retryAfter = 0]. *)
Lemma fixed_window_sequence_counterexample :
  ¬ windowSequence {| windowMs := 1000; maxRequests := 0 |} "client" ∅ 0 [] 5000 ∧
  ¬ windowSequence {| windowMs := 1000; maxRequests := 1 |} "client" ∅ 0 [1000] 5000.
Proof.
  split.
  - intros (_ & (r & secs & Hr & Hallowed & _) & _).
    vm_compute in Hr. injection Hr as <-. discriminate Hallowed.
  - intros (_ & (r & secs & Hr & _ & Hretry & Hpos) & _).
    vm_compute in Hr. injection Hr as <-.
    vm_compute in Hretry. injection Hretry as <-. lia.
Qed.

(** C10 (amended): with [maxRequests ≥ 1], starting from the empty table,
    no sequence of checks and sweeps leaves a bucket whose count exceeds
    [maxRequests]; a rejected call returns the table unchanged, so only
    allowed calls increment a count or reset a window. *)
Theorem count_never_exceeds_max config :
  1 ≤ maxRequests config →
  (∀ events, bounded config (run config events ∅)) ∧
  (∀ now identifier (store : Store),
     allowed (checkRateLimit now identifier config store).1 = false →
     (checkRateLimit now identifier config store).2 = store) ∧
  (∀ now identifier (store : Store),
     (checkRateLimit now identifier config store).2 ≠ store →
     allowed (checkRateLimit now identifier config store).1 = true).
Proof.
  intros Hmax. split; [|split].
  - intros events. apply run_bounded; [exact Hmax|].
    intros i e Hlook. by rewrite lookup_empty in Hlook.
  - intros. by apply rejected_keeps_store.
  - intros now identifier store Hchanged.
    destruct (allowed (checkRateLimit now identifier config store).1) eqn:Ha; [done|].
    by apply rejected_keeps_store in Ha.
Qed.

Lemma count_never_exceeds_max_witness :
  bounded {| windowMs := 60000; maxRequests := 2 |}
    (run {| windowMs := 60000; maxRequests := 2 |}
       [Call "a" 0; Call "a" 1; Call "a" 2; Call "b" 3; Sweep 70000; Call "a" 70001]
       ∅).
Proof.
  apply (count_never_exceeds_max {| windowMs := 60000; maxRequests := 2 |}).
  simpl. lia.
Defined.

(** C10 as stated fails for a configuration with [maxRequests = 0]: the
    first call still opens a window with [count = 1]. *)
Lemma count_never_exceeds_max_counterexample :
  ¬ bounded {| windowMs := 1000; maxRequests := 0 |}
      (run {| windowMs := 1000; maxRequests := 0 |} [Call "client" 0] ∅).
Proof.
  intros Hb.
  specialize (Hb "client" {| count := 1; resetTime := 1000 |}).
  simpl in Hb. unfold checkRateLimit, freshWindow in Hb.
  rewrite lookup_empty in Hb. simpl in Hb.
  rewrite lookup_insert_eq in Hb. specialize (Hb eq_refl). simpl in Hb. lia.
Qed.

End RateLimit.

(** ** The [api_cache] table and its client *)

Module Store.

(** The enum [APISource] of [@/types]. *)
Inductive APISource : Type := HUD | BEA | BLS | EIA | CENSUS.

#[global] Instance APISource_eq_dec : EqDecision APISource.
Proof. solve_decision. Defined.

#[global] Instance APISource_countable : Countable APISource.
Proof.
  refine (inj_countable'
    (λ s, match s with HUD => 0 | BEA => 1 | BLS => 2 | EIA => 3 | CENSUS => 4 end)%nat
    (λ n, match n with
          | 0 => HUD | 1 => BEA | 2 => BLS | 3 => EIA | _ => CENSUS
          end)%nat _).
  by intros [].
Defined.

(** The string value of each member (as in [isValidAPISource('hud')]). *)
Definition sourceValue (s : APISource) : string :=
  match s with
  | HUD => "hud" | BEA => "bea" | BLS => "bls" | EIA => "eia" | CENSUS => "census"
  end.

(** A row of [api_cache], unique on [(source, location_key)]. The payload
    is the JSON column [data]; timestamps are milliseconds, and
    [expires_at = None] is a value that [new Date] cannot parse. *)
Record CacheRow (T : Type) : Type := {
  row_data : T;
  created_at : Z;
  expires_at : option Z
}.
Arguments row_data {T} _.
Arguments created_at {T} _.
Arguments expires_at {T} _.

Record PostgrestError : Type := { code : string; message : string }.

(** The [{ data, error }] pair a supabase query resolves to. *)
Record Reply (A : Type) : Type := { data : option A; error : option PostgrestError }.
Arguments data {A} _.
Arguments error {A} _.

(** [from("api_cache").select(..).eq("source", s).eq("location_key", k)]
    with the optional [.gt("expires_at", t)], closed by [.single()]. *)
Record Query : Type := {
  q_source : APISource;
  q_location_key : string;
  q_expires_gt : option Z
}.

(** A client answers a query or throws. *)
Definition Client (T : Type) : Type := Query → result (Reply (CacheRow T)).

(** The store behind a client: its rows, and whether it is reachable. *)
Inductive Status : Type :=
| Up
| Failing (e : PostgrestError)
| Unreachable (message : string).

Record Backend (T : Type) : Type := {
  rows : gmap (APISource * string) (CacheRow T);
  status : Status
}.
Arguments rows {T} _.
Arguments status {T} _.

(** [.single()] on zero rows *)
Definition PGRST116 : PostgrestError :=
  {| code := "PGRST116"; message := "JSON object requested, multiple (or no) rows returned" |}.

Definition passes_filter {T} (q : Query) (row : CacheRow T) : bool :=
  match q_expires_gt q with
  | None => true
  | Some t =>
      match expires_at row with
      | Some e => t <? e
      | None => false
      end
  end.

Definition selectSingle {T} (b : Backend T) : Client T := λ q,
  match status b with
  | Unreachable m => Throw m
  | Failing e => Ok {| data := None; error := Some e |}
  | Up =>
      match rows b !! (q_source q, q_location_key q) with
      | Some row =>
          if passes_filter q row
          then Ok {| data := Some row; error := None |}
          else Ok {| data := None; error := Some PGRST116 |}
      | None => Ok {| data := None; error := Some PGRST116 |}
      end
  end.

(** [upsert(row, { onConflict: "source,location_key" })] *)
Definition upsert {T} (b : Backend T) (source : APISource) (location_key : string)
    (row : CacheRow T) : result (option PostgrestError) * Backend T :=
  match status b with
  | Unreachable m => (Throw m, b)
  | Failing e => (Ok (Some e), b)
  | Up =>
      (Ok None,
       {| rows := <[(source, location_key) := row]> (rows b); status := Up |})
  end.

End Store.

(** ** [lib/api/cache.ts]: the cache used by the fetch wrapper *)

Module ApiCache.
Import Store.

Record CacheConfig : Type := { source : APISource; ttlSeconds : option Z }.

Record Fetched (T : Type) : Type := {
  fetched_data : T;
  cached : bool;
  cacheAge : option Z
}.
Arguments fetched_data {T} _.
Arguments cached {T} _.
Arguments cacheAge {T} _.

(** [paramString] is [JSON.stringify(params, Object.keys(params).sort())],
    or the empty string without [params]. *)
Definition generateCacheKey (source : APISource) (endpoint paramString : string) : string :=
  sourceValue source +:+ ":" +:+ endpoint +:+ ":" +:+ paramString.

Section WithTypes.

(** The table [DEFAULT_CACHE_TTL] of [@/types] (seconds per source). *)
Variable DEFAULT_CACHE_TTL : APISource → Z.

Context {T : Type}.

(** [queryNow] is the [new Date()] of the expiry filter and [ageNow] the
    later [Date.now()] that the age is computed from. *)
Definition getCachedData (supabase : Client T) (source : APISource)
    (locationKey : string) (queryNow ageNow : Z) : result (option (T * Z)) :=
  try_catch
    (reply ← supabase {| q_source := source;
                         q_location_key := locationKey;
                         q_expires_gt := Some queryNow |};
     match error reply, data reply with
     | Some _, _ => Ok None
     | None, None => Ok None
     | None, Some row => Ok (Some (row_data row, (ageNow - created_at row) / 1000))
     end)
    (λ _, Ok None).

(** [a || b] on an optional number: [undefined] and [0] are falsy. *)
Definition or_default (a : option Z) (b : Z) : Z :=
  match a with
  | Some x => if x =? 0 then b else x
  | None => b
  end.

(** [data = None] is a [null] or [undefined] payload. [expiryNow] is the
    [Date.now()] of [expiresAt] and [createdNow] the [new Date()] written
    to [created_at]. *)
Definition setCachedData (b : Backend T) (cacheKey : string) (data : option T)
    (config : CacheConfig) (expiryNow createdNow : Z) : result unit * Backend T :=
  match data with
  | None => (Ok (), b)
  | Some payload =>
      let expiresAt :=
        expiryNow + or_default (ttlSeconds config) (DEFAULT_CACHE_TTL (source config)) * 1000 in
      let '(outcome, b') :=
        upsert b (source config) cacheKey
          {| row_data := payload; created_at := createdNow; expires_at := Some expiresAt |} in
      (try_catch (_ ← outcome; Ok ()) (λ _, Ok ()), b')
  end.

(** The four clock readings a call may make. *)
Record Clock : Type := { queryNow : Z; ageNow : Z; expiryNow : Z; createdNow : Z }.

(** [fetchFn] is the fetch closure, run on a miss only; it acts on the
    world [W] it closes over (the network). The write that follows a miss
    is started and not awaited; the store it leaves is returned with the
    result. *)
Definition withCache {W : Type} (b : Backend T) (cacheKey : string) (config : CacheConfig)
    (fetchFn : W → result (option T) * W) (clock : Clock) (world : W)
    : result (Fetched (option T)) * Backend T * W :=
  match getCachedData (selectSingle b) (source config) cacheKey
          (queryNow clock) (ageNow clock) with
  | Throw m => (Throw m, b, world)
  | Ok (Some (payload, age)) =>
      (Ok {| fetched_data := Some payload; cached := true; cacheAge := Some age |},
       b, world)
  | Ok None =>
      match fetchFn world with
      | (Throw m, world') => (Throw m, b, world')
      | (Ok fresh, world') =>
          (Ok {| fetched_data := fresh; cached := false; cacheAge := None |},
           (setCachedData b cacheKey fresh config (expiryNow clock) (createdNow clock)).2,
           world')
      end
  end.

End WithTypes.

Lemma getCachedData_hit {T} (b : Backend T) S K (row : CacheRow T) e tq ta :
  status b = Up →
  rows b !! (S, K) = Some row →
  expires_at row = Some e →
  tq < e →
  getCachedData (selectSingle b) S K tq ta =
    Ok (Some (row_data row, (ta - created_at row) / 1000)).
Proof.
  intros Hup Hrow He Hlt. unfold getCachedData, selectSingle. simpl.
  rewrite Hup, Hrow. unfold passes_filter. simpl. rewrite He.
  apply Z.ltb_lt in Hlt. by rewrite Hlt.
Qed.

Lemma api_read_total {T} (supabase : Client T) S K tq ta :
  ∃ r, getCachedData supabase S K tq ta = Ok r.
Proof.
  unfold getCachedData.
  destruct (supabase _) as [[d [e|]]|m]; simpl; eauto.
  destruct d; eauto.
Qed.

(** C1: on a reachable store, a set of a non-null payload [P] under
    [(S, K)] followed by a read of [(S, K)] before [expiresAt] returns
    exactly [P]; through [withCache] the result has [cached = true] and a
    non-negative [cacheAge], and the fetch is not used. *)
Theorem set_then_get (TTL : APISource → Z) {T} (b : Backend T) (S : APISource)
    (K : string) (P : T) (ttl : option Z) (atSet atGet : Clock)
    {W : Type} (fetchFn : W → result (option T) * W) (world : W) :
  let config := {| source := S; ttlSeconds := ttl |} in
  let b' := (setCachedData TTL b K (Some P) config (expiryNow atSet) (createdNow atSet)).2 in
  status b = Up →
  queryNow atGet < expiryNow atSet + or_default ttl (TTL S) * 1000 →
  createdNow atSet ≤ ageNow atGet →
  ∃ age,
    0 ≤ age ∧
    getCachedData (selectSingle b') S K (queryNow atGet) (ageNow atGet) = Ok (Some (P, age)) ∧
    withCache TTL b' K config fetchFn atGet world =
      (Ok {| fetched_data := Some P; cached := true; cacheAge := Some age |}, b', world).
Proof.
  intros config b' Hup Hfresh Hmono.
  exists ((ageNow atGet - createdNow atSet) / 1000).
  assert (Hget : getCachedData (selectSingle b') S K (queryNow atGet) (ageNow atGet) =
                 Ok (Some (P, (ageNow atGet - createdNow atSet) / 1000))).
  { subst b' config. unfold setCachedData, upsert. simpl. rewrite Hup. simpl.
    apply (getCachedData_hit _ S K
             {| row_data := P; created_at := createdNow atSet;
                expires_at := Some (expiryNow atSet + or_default ttl (TTL S) * 1000) |}
             (expiryNow atSet + or_default ttl (TTL S) * 1000));
      [reflexivity | simpl; by rewrite lookup_insert_eq | reflexivity | exact Hfresh]. }
  split; [apply Z.div_pos; lia|]. split; [exact Hget|].
  unfold withCache. simpl. by rewrite Hget.
Qed.

(** A price-parity entry cached for thirty days and read a minute later. *)
Lemma set_then_get_witness :
  ∃ age,
    0 ≤ age ∧
    withCache (λ _, 3600)
      (setCachedData (λ _, 3600) {| rows := ∅; status := Up |} "bea:rpp-states" (Some 110%Z)
         {| source := BEA; ttlSeconds := Some 2592000 |} 1000 1001).2
      "bea:rpp-states" {| source := BEA; ttlSeconds := Some 2592000 |}
      (λ w : unit, (Throw "upstream down", w))
      {| queryNow := 61000; ageNow := 61002; expiryNow := 61003; createdNow := 61004 |} () =
    (Ok {| fetched_data := Some 110%Z; cached := true; cacheAge := Some age |},
     (setCachedData (λ _, 3600) {| rows := ∅; status := Up |} "bea:rpp-states" (Some 110%Z)
         {| source := BEA; ttlSeconds := Some 2592000 |} 1000 1001).2, ()).
Proof.
  destruct (set_then_get (λ _, 3600) {| rows := ∅; status := Up |} BEA "bea:rpp-states"
              110%Z (Some 2592000)
              {| queryNow := 0; ageNow := 0; expiryNow := 1000; createdNow := 1001 |}
              {| queryNow := 61000; ageNow := 61002; expiryNow := 61003; createdNow := 61004 |}
              (λ w : unit, (Throw "upstream down", w)) ())
    as (age & Hage & _ & Hwith).
  - reflexivity.
  - simpl. lia.
  - simpl. lia.
  - exists age. split; [exact Hage | exact Hwith].
Defined.

End ApiCache.

(** ** [src/lib/cache.ts]: the cache used by the rent fetcher *)

Module LibCache.
Import Store.

(** *** The local time of [Date]

    [setHours] and [getHours] work on the wall-clock time of the host's
    time zone, after the abstract operations of ECMA-262 (21.4.1). A time
    value is a number of milliseconds since the epoch; the range of time
    values is not modelled. *)

Definition msPerDay : Z := 86400000.
Definition msPerHour : Z := 3600000.
Definition msPerMinute : Z := 60000.
Definition msPerSecond : Z := 1000.

(** [LocalTZA(t, isUTC)]: the offset of local time in milliseconds, at the
    UTC instant [t] when [isUTC], at the local time [t] otherwise. *)
Definition TimeZone : Type := Z → bool → Z.

Definition LocalTime (tz : TimeZone) (t : Z) : Z := t + tz t true.

Definition UTC (tz : TimeZone) (t : Z) : Z := t - tz t false.

Definition Day (t : Z) : Z := t `div` msPerDay.
Definition HourFromTime (t : Z) : Z := (t `div` msPerHour) `mod` 24.
Definition MinFromTime (t : Z) : Z := (t `div` msPerMinute) `mod` 60.
Definition SecFromTime (t : Z) : Z := (t `div` msPerSecond) `mod` 60.
Definition msFromTime (t : Z) : Z := t `mod` msPerSecond.

Definition MakeTime (hour min sec ms : Z) : Z :=
  hour * msPerHour + min * msPerMinute + sec * msPerSecond + ms.

Definition MakeDate (day time : Z) : Z := day * msPerDay + time.

(** [date.getHours()] *)
Definition getHours (tz : TimeZone) (thisTime : Z) : Z :=
  HourFromTime (LocalTime tz thisTime).

(** [date.setHours(hour)]: the new time value of [date]. *)
Definition setHours (tz : TimeZone) (thisTime hour : Z) : Z :=
  let t := LocalTime tz thisTime in
  UTC tz (MakeDate (Day t) (MakeTime hour (MinFromTime t) (SecFromTime t) (msFromTime t))).

(** A host on UTC. *)
Definition utc : TimeZone := λ _ _, 0.

Section WithTypes.
Context {T : Type}.

Definition isCacheValid (expiresAt : option Z) (now : Z) : bool :=
  match expiresAt with
  | None => false
  | Some expirationDate => now <? expirationDate
  end.

Definition getCachedData (supabase : Client T) (source : APISource)
    (locationKey : string) (now : Z) : result (option T) :=
  try_catch
    (if decide (locationKey = "") then Ok None
     else
       reply ← supabase {| q_source := source;
                           q_location_key := locationKey;
                           q_expires_gt := None |};
       match error reply with
       | Some _ => Ok None
       | None =>
           match data reply with
           | None => Ok None
           | Some row =>
               if isCacheValid (expires_at row) now then Ok (Some (row_data row))
               else Ok None
           end
       end)
    (λ _, Ok None).

(** The hours of [CACHE_TTL_HOURS]. *)
Definition CACHE_TTL_HOURS (source : APISource) : Z :=
  match source with
  | HUD => 720
  | BEA => 720
  | BLS => 168
  | EIA => 168
  | CENSUS => 720
  end.

(** [expiresAt.setHours(expiresAt.getHours() + ttlHours)] on
    [expiresAt = new Date()], read back by [toISOString]. The upsert leaves
    [created_at] to the table: the insertion time of the row. *)
Definition setCachedData (tz : TimeZone) (b : Backend T) (source : APISource)
    (locationKey : string) (data : option T) (now : Z) : bool * Backend T :=
  if decide (locationKey = "") then (false, b)
  else
    match data with
    | None => (false, b)
    | Some payload =>
        let expiresAt := setHours tz now (getHours tz now + CACHE_TTL_HOURS source) in
        let created :=
          match rows b !! (source, locationKey) with
          | Some old => created_at old
          | None => now
          end in
        match upsert b source locationKey
                {| row_data := payload; created_at := created;
                   expires_at := Some expiresAt |} with
        | (Ok None, b') => (true, b')
        | (_, b') => (false, b')
        end
    end.

End WithTypes.

(** No entry is ever written under the empty key. *)
Lemma setCachedData_empty_key {T} tz (b : Backend T) S (data : option T) now :
  setCachedData tz b S "" data now = (false, b).
Proof. reflexivity. Qed.

(** Adding hours to the hour field moves the wall-clock time by that many
    hours: the other fields are put back as they were. *)
Lemma setHours_getHours (tz : TimeZone) (t k : Z) :
  setHours tz t (getHours tz t + k) = UTC tz (LocalTime tz t + k * msPerHour).
Proof.
  unfold setHours, getHours. f_equal.
  generalize (LocalTime tz t). intros lt.
  unfold MakeDate, MakeTime, Day, HourFromTime, MinFromTime, SecFromTime, msFromTime,
    msPerDay, msPerHour, msPerMinute, msPerSecond.
  Z.div_mod_to_equations. lia.
Qed.

(** The expiry written for an entry of [source] set at [now]. *)
Lemma setHours_expiry (tz : TimeZone) (source : APISource) (now : Z) :
  setHours tz now (getHours tz now + CACHE_TTL_HOURS source) =
    now + CACHE_TTL_HOURS source * msPerHour
    + (tz now true - tz (LocalTime tz now + CACHE_TTL_HOURS source * msPerHour) false).
Proof. rewrite setHours_getHours. unfold UTC, LocalTime. lia. Qed.

Lemma lib_read_total {T} (supabase : Client T) S K now :
  ∃ r, getCachedData supabase S K now = Ok r.
Proof.
  unfold getCachedData. destruct (decide (K = "")); simpl; [eauto|].
  destruct (supabase _) as [[d [e|]]|m]; simpl; eauto.
  destruct d as [row|]; eauto.
  destruct (isCacheValid _ _); eauto.
Qed.

End LibCache.

(** C2 (amended): the cache read never throws, whatever the client does.
    Against a store it returns none when the store is failing or
    unreachable, when no entry exists, and when the entry's [expires_at]
    has elapsed or cannot be parsed; otherwise it returns the stored
    payload, for every key in [lib/api/cache.ts] and for every non-empty
    key in [src/lib/cache.ts], which answers none for the empty key. *)
Theorem cache_read_never_throws {T} :
  (∀ (supabase : Store.Client T) S K now later,
     (∃ r, ApiCache.getCachedData supabase S K now later = Ok r) ∧
     (∃ r, LibCache.getCachedData supabase S K now = Ok r) ∧
     LibCache.getCachedData supabase S "" now = Ok None) ∧
  ∀ (b : Store.Backend T) S K now later,
    let api := ApiCache.getCachedData (Store.selectSingle b) S K now later in
    let lib := LibCache.getCachedData (Store.selectSingle b) S K now in
    (Store.status b ≠ Store.Up → api = Ok None ∧ lib = Ok None) ∧
    (Store.rows b !! (S, K) = None → api = Ok None ∧ lib = Ok None) ∧
    (∀ row,
       Store.rows b !! (S, K) = Some row →
       (∀ e, Store.expires_at row = Some e → e ≤ now) →
       api = Ok None ∧ lib = Ok None) ∧
    (∀ row e,
       Store.status b = Store.Up →
       Store.rows b !! (S, K) = Some row →
       Store.expires_at row = Some e →
       now < e →
       api = Ok (Some (Store.row_data row, (later - Store.created_at row) / 1000)) ∧
       (K ≠ "" → lib = Ok (Some (Store.row_data row)))).
Proof.
  split.
  { intros. split; [apply ApiCache.api_read_total|].
    split; [apply LibCache.lib_read_total | reflexivity]. }
  intros b S K now later api lib. subst api lib.
  unfold ApiCache.getCachedData, LibCache.getCachedData, Store.selectSingle.
  split; [|split; [|split]].
  - intros Hdown. destruct (Store.status b); [done| |];
      simpl; destruct (decide (K = "")); done.
  - intros Hnone. simpl. rewrite Hnone.
    destruct (Store.status b); simpl; destruct (decide (K = "")); done.
  - intros row Hrow Hold. simpl. rewrite Hrow.
    unfold Store.passes_filter, LibCache.isCacheValid. simpl.
    assert (Hexp : match Store.expires_at row with
                   | Some e => now <? e
                   | None => false
                   end = false).
    { destruct (Store.expires_at row) as [e|]; [|done].
      specialize (Hold e eq_refl). apply Z.ltb_ge. lia. }
    rewrite Hexp.
    destruct (Store.status b) as [|err|msg]; simpl;
      destruct (decide (K = "")) as [HK|HK]; simpl; rewrite ?Hexp; done.
  - intros row e Hup Hrow He Hlt. simpl. rewrite Hup, Hrow.
    unfold Store.passes_filter, LibCache.isCacheValid. simpl. rewrite He.
    apply Z.ltb_lt in Hlt. rewrite Hlt. simpl. split; [done|].
    intros HK. by destruct (decide (K = "")).
Qed.

(** A stored rent entry, read one second before it expires. *)
Lemma cache_read_never_throws_witness :
  LibCache.getCachedData
    (Store.selectSingle
       {| Store.rows := {[ (Store.HUD, "zip:90210") :=
                            {| Store.row_data := 1500%Z; Store.created_at := 0;
                               Store.expires_at := Some 5000 |} ]};
          Store.status := Store.Up |})
    Store.HUD "zip:90210" 4000 = Ok (Some 1500%Z).
Proof.
  pose proof (@cache_read_never_throws Z) as [_ H].
  specialize (H {| Store.rows := {[ (Store.HUD, "zip:90210") :=
                            {| Store.row_data := 1500%Z; Store.created_at := 0;
                               Store.expires_at := Some 5000 |} ]};
                   Store.status := Store.Up |} Store.HUD "zip:90210" 4000 4000).
  destruct H as (_ & _ & _ & H).
  destruct (H {| Store.row_data := 1500%Z; Store.created_at := 0;
                 Store.expires_at := Some 5000 |} 5000) as [_ Hlib].
  - reflexivity.
  - simpl. apply lookup_singleton_eq.
  - reflexivity.
  - lia.
  - apply Hlib. discriminate.
Defined.

(** The store after [lib/api/cache.ts] has written a payload under the
    empty key at time 0, to expire at 5000. *)
Definition emptyKeyStore : Store.Backend Z :=
  (ApiCache.setCachedData (λ _, 3600) {| Store.rows := ∅; Store.status := Store.Up |}
     "" (Some 1500%Z) {| ApiCache.source := Store.HUD; ApiCache.ttlSeconds := Some 5 |}
     0 0).2.

(** C2 as stated fails for the empty key: the entry exists, has not
    expired and the store is up, yet [src/lib/cache.ts] returns none
    (while [lib/api/cache.ts] returns the payload). *)
Lemma cache_read_never_throws_counterexample :
  Store.rows emptyKeyStore !! (Store.HUD, "") =
    Some {| Store.row_data := 1500%Z; Store.created_at := 0;
            Store.expires_at := Some 5000 |} ∧
  Store.status emptyKeyStore = Store.Up ∧
  LibCache.getCachedData (Store.selectSingle emptyKeyStore) Store.HUD "" 4000 = Ok None ∧
  ApiCache.getCachedData (Store.selectSingle emptyKeyStore) Store.HUD "" 4000 4000 =
    Ok (Some (1500%Z, 4)).
Proof.
  assert (Hrow : Store.rows emptyKeyStore !! (Store.HUD, "") =
                 Some {| Store.row_data := 1500%Z; Store.created_at := 0;
                         Store.expires_at := Some 5000 |}).
  { unfold emptyKeyStore. simpl. apply lookup_insert_eq. }
  split; [exact Hrow|]. split; [reflexivity|]. split; [reflexivity|].
  rewrite (ApiCache.getCachedData_hit emptyKeyStore Store.HUD ""
             {| Store.row_data := 1500%Z; Store.created_at := 0;
                Store.expires_at := Some 5000 |} 5000 4000 4000);
    [reflexivity | reflexivity | exact Hrow | reflexivity | lia].
Qed.

(** ** [Array.prototype.sort] with a numeric comparator *)

Module JsArray.

Section Sort.
Context {A : Type}.

(** [compareFn a b > 0] moves [b] before [a]; the sort is stable. *)
Definition comesAfter (compareFn : A → A → Q) (a b : A) : bool :=
  negb (Qle_bool (compareFn a b) 0).

Fixpoint insert (compareFn : A → A → Q) (x : A) (l : list A) : list A :=
  match l with
  | [] => [x]
  | y :: rest =>
      if comesAfter compareFn x y then y :: insert compareFn x rest
      else x :: y :: rest
  end.

Definition sort (compareFn : A → A → Q) (l : list A) : list A :=
  foldr (insert compareFn) [] l.

(** The comparator [(a, b) => key(b) - key(a)]: descending by [key]. *)
Definition descendingBy (key : A → Q) (a b : A) : Q := (key b - key a)%Q.

Definition sameKey (key : A → Q) (v : Q) (a : A) : bool := Qeq_bool (key a) v.

Variable key : A → Q.

Lemma comesAfter_desc a b :
  comesAfter (descendingBy key) a b = true ↔ (key a < key b)%Q.
Proof.
  unfold comesAfter, descendingBy. rewrite negb_true_iff.
  destruct (Qle_bool (key b - key a) 0) eqn:Hle.
  - apply Qle_bool_iff in Hle. split; [done|]. intros Hlt. exfalso. lra.
  - split; [|done]. intros _.
    destruct (Qlt_le_dec (key a) (key b)) as [Hlt|Hge]; [done|].
    assert (Hle' : (key b - key a <= 0)%Q) by lra.
    apply Qle_bool_iff in Hle'. congruence.
Qed.

Lemma comesAfter_desc_false a b :
  comesAfter (descendingBy key) a b = false ↔ (key b <= key a)%Q.
Proof.
  destruct (comesAfter (descendingBy key) a b) eqn:H.
  - apply comesAfter_desc in H. split; [done|]. intros. exfalso. lra.
  - split; [|done]. intros _.
    destruct (Qlt_le_dec (key a) (key b)) as [Hlt|Hge]; [|done].
    apply comesAfter_desc in Hlt. congruence.
Qed.

Lemma insert_perm compareFn x l : Permutation (insert compareFn x l) (x :: l).
Proof.
  induction l as [|y l IH]; simpl; [done|].
  destruct (comesAfter compareFn x y); [|done].
  rewrite IH. apply perm_swap.
Qed.

Lemma sort_perm compareFn l : Permutation (sort compareFn l) l.
Proof.
  induction l as [|x l IH]; simpl; [done|].
  rewrite insert_perm. by constructor.
Qed.

Lemma sort_length compareFn l : length (sort compareFn l) = length l.
Proof. apply Permutation_length, sort_perm. Qed.

(** Descending order: every element is at least every later one. *)
Definition descending (l : list A) : Prop :=
  StronglySorted (λ a b, (key b <= key a)%Q) l.

Lemma insert_descending x l :
  descending l → descending (insert (descendingBy key) x l).
Proof.
  unfold descending. induction l as [|y l IH]; intros Hs; simpl.
  - repeat constructor.
  - apply StronglySorted_inv in Hs as [Hl Hy].
    destruct (comesAfter (descendingBy key) x y) eqn:Hxy.
    + apply comesAfter_desc in Hxy.
      constructor; [by apply IH|].
      apply Forall_forall. intros z Hz.
      rewrite insert_perm in Hz.
      apply elem_of_cons in Hz as [->|Hz]; [lra|].
      rewrite Forall_forall in Hy. by apply Hy.
    + apply comesAfter_desc_false in Hxy.
      constructor; [by constructor|].
      constructor; [done|].
      eapply Forall_impl; [exact Hy|]. simpl. intros z Hz. lra.
Qed.

Lemma sort_descending l : descending (sort (descendingBy key) l).
Proof.
  induction l as [|x l IH]; simpl; [constructor|].
  by apply insert_descending.
Qed.

(** Stability: entries with one and the same key keep their order. *)
Lemma insert_stable v x l :
  filter (λ a, sameKey key v a = true) (insert (descendingBy key) x l) =
  filter (λ a, sameKey key v a = true) (x :: l).
Proof.
  induction l as [|y l IH]; simpl; [done|].
  destruct (comesAfter (descendingBy key) x y) eqn:Hxy; [|done].
  apply comesAfter_desc in Hxy.
  rewrite filter_cons, IH, !filter_cons.
  unfold sameKey.
  destruct (decide (Qeq_bool (key y) v = true)) as [Hy|Hy];
    destruct (decide (Qeq_bool (key x) v = true)) as [Hx|Hx]; try done.
  apply Qeq_bool_iff in Hy, Hx. exfalso. lra.
Qed.

Lemma sort_stable v l :
  filter (λ a, sameKey key v a = true) (sort (descendingBy key) l) =
  filter (λ a, sameKey key v a = true) l.
Proof.
  induction l as [|x l IH]; simpl; [done|].
  rewrite insert_stable, !filter_cons, IH. done.
Qed.

End Sort.

End JsArray.

(** ** Price parity: [src/lib/api/bea.ts] *)

Module Bea.
Import Store ApiCache.

(** The members of [RPPLineCode] that [parseBEAResponse] switches on. *)
Inductive RPPLineCode : Type := ALL_ITEMS | GOODS | SERVICES_RENTS | SERVICES_OTHER.

(** A row of [BEAAPI.Results.Data]. [TimePeriod] is the year it names,
    [DataValue] is [parseFloat(item.DataValue)] with [None] for [NaN], and
    [LineCode] is [None] for a code outside [RPPLineCode]. *)
Record BEADataItem : Type := {
  TimePeriod : Z;
  GeoFips : string;
  GeoName : string;
  DataValue : option Q;
  LineCode : option RPPLineCode
}.

(** [Partial<RegionalPriceParity>] *)
Record PartialRPP : Type := {
  p_geoFips : string;
  p_geoName : string;
  p_stateCode : option string;
  p_year : Z;
  p_overall : option Q;
  p_percentAboveNational : option Q;
  p_goods : option Q;
  p_servicesRents : option Q;
  p_housing : option Q;
  p_servicesOther : option Q
}.

(** A record that passed [rpp.overall !== undefined]. *)
Record RegionalPriceParity : Type := {
  geoFips : string;
  geoName : string;
  stateCode : option string;
  year : Z;
  overall : Q;
  percentAboveNational : option Q;
  goods : option Q;
  servicesRents : option Q;
  housing : option Q;
  servicesOther : option Q;
  rank : option nat
}.

Definition STATE_FIPS_TO_CODE : list (string * string) :=
  [("01", "AL"); ("02", "AK"); ("04", "AZ"); ("05", "AR"); ("06", "CA");
   ("08", "CO"); ("09", "CT"); ("10", "DE"); ("11", "DC"); ("12", "FL");
   ("13", "GA"); ("15", "HI"); ("16", "ID"); ("17", "IL"); ("18", "IN");
   ("19", "IA"); ("20", "KS"); ("21", "KY"); ("22", "LA"); ("23", "ME");
   ("24", "MD"); ("25", "MA"); ("26", "MI"); ("27", "MN"); ("28", "MS");
   ("29", "MO"); ("30", "MT"); ("31", "NE"); ("32", "NV"); ("33", "NH");
   ("34", "NJ"); ("35", "NM"); ("36", "NY"); ("37", "NC"); ("38", "ND");
   ("39", "OH"); ("40", "OK"); ("41", "OR"); ("42", "PA"); ("44", "RI");
   ("45", "SC"); ("46", "SD"); ("47", "TN"); ("48", "TX"); ("49", "UT");
   ("50", "VT"); ("51", "VA"); ("53", "WA"); ("54", "WV"); ("55", "WI");
   ("56", "WY")].

(** A [Map<string, V>] in insertion order. *)
Definition mapGet {V} (k : string) (m : list (string * V)) : option V :=
  snd <$> List.find (λ kv, String.eqb kv.1 k) m.

Definition mapHas {V} (k : string) (m : list (string * V)) : bool :=
  bool_decide (is_Some (mapGet k m)).

(** The value under [k] is an object, mutated in place. *)
Definition mapUpdate {V} (k : string) (f : V → V) (m : list (string * V)) : list (string * V) :=
  (λ kv, if String.eqb kv.1 k then (kv.1, f kv.2) else kv) <$> m.

Definition applyLine (line : option RPPLineCode) (value : Q) (rpp : PartialRPP) : PartialRPP :=
  match line with
  | Some ALL_ITEMS =>
      {| p_geoFips := p_geoFips rpp; p_geoName := p_geoName rpp;
         p_stateCode := p_stateCode rpp; p_year := p_year rpp;
         p_overall := Some value;
         p_percentAboveNational := Some (value - 100)%Q;
         p_goods := p_goods rpp; p_servicesRents := p_servicesRents rpp;
         p_housing := p_housing rpp; p_servicesOther := p_servicesOther rpp |}
  | Some GOODS =>
      {| p_geoFips := p_geoFips rpp; p_geoName := p_geoName rpp;
         p_stateCode := p_stateCode rpp; p_year := p_year rpp;
         p_overall := p_overall rpp;
         p_percentAboveNational := p_percentAboveNational rpp;
         p_goods := Some value; p_servicesRents := p_servicesRents rpp;
         p_housing := p_housing rpp; p_servicesOther := p_servicesOther rpp |}
  | Some SERVICES_RENTS =>
      {| p_geoFips := p_geoFips rpp; p_geoName := p_geoName rpp;
         p_stateCode := p_stateCode rpp; p_year := p_year rpp;
         p_overall := p_overall rpp;
         p_percentAboveNational := p_percentAboveNational rpp;
         p_goods := p_goods rpp; p_servicesRents := Some value;
         p_housing := Some value; p_servicesOther := p_servicesOther rpp |}
  | Some SERVICES_OTHER =>
      {| p_geoFips := p_geoFips rpp; p_geoName := p_geoName rpp;
         p_stateCode := p_stateCode rpp; p_year := p_year rpp;
         p_overall := p_overall rpp;
         p_percentAboveNational := p_percentAboveNational rpp;
         p_goods := p_goods rpp; p_servicesRents := p_servicesRents rpp;
         p_housing := p_housing rpp; p_servicesOther := Some value |}
  | None => rpp
  end.

(** One turn of the loop over [response.BEAAPI.Results.Data]. *)
Definition parseItem (year : Z) (rppMap : list (string * PartialRPP)) (item : BEADataItem)
    : list (string * PartialRPP) :=
  if decide (TimePeriod item = year) then
    match DataValue item with
    | None => rppMap
    | Some value =>
        let rppMap1 :=
          if mapHas (GeoFips item) rppMap then rppMap
          else rppMap ++
               [(GeoFips item,
                 {| p_geoFips := GeoFips item; p_geoName := GeoName item;
                    p_stateCode := mapGet (String.substring 0 2 (GeoFips item)) STATE_FIPS_TO_CODE;
                    p_year := year;
                    p_overall := None; p_percentAboveNational := None;
                    p_goods := None; p_servicesRents := None;
                    p_housing := None; p_servicesOther := None |})] in
        mapUpdate (GeoFips item) (applyLine (LineCode item) value) rppMap1
    end
  else rppMap.

(** [data = None] when [response.BEAAPI?.Results?.Data] is missing. *)
Definition parseBEAResponse (data : option (list BEADataItem)) (year : Z)
    : list (string * PartialRPP) :=
  match data with
  | None => []
  | Some items => foldl (parseItem year) [] items
  end.

(** [if (rpp.overall !== undefined) results.push(rpp as RegionalPriceParity)] *)
Definition complete (rpp : PartialRPP) : option RegionalPriceParity :=
  match p_overall rpp with
  | None => None
  | Some v =>
      Some {| geoFips := p_geoFips rpp; geoName := p_geoName rpp;
              stateCode := p_stateCode rpp; year := p_year rpp;
              overall := v;
              percentAboveNational := p_percentAboveNational rpp;
              goods := p_goods rpp; servicesRents := p_servicesRents rpp;
              housing := p_housing rpp; servicesOther := p_servicesOther rpp;
              rank := None |}
  end.

Definition completeRecords (rppMap : list (string * PartialRPP)) : list RegionalPriceParity :=
  omap (λ kv, complete kv.2) rppMap.

Definition withRank (r : option nat) (rpp : RegionalPriceParity) : RegionalPriceParity :=
  {| geoFips := geoFips rpp; geoName := geoName rpp; stateCode := stateCode rpp;
     year := year rpp; overall := overall rpp;
     percentAboveNational := percentAboveNational rpp;
     goods := goods rpp; servicesRents := servicesRents rpp;
     housing := housing rpp; servicesOther := servicesOther rpp;
     rank := r |}.

(** [results.sort((a, b) => b.overall - a.overall)] and then
    [results.forEach((rpp, index) => { rpp.rank = index + 1 })]. *)
Definition rankByOverall (results : list RegionalPriceParity) : list RegionalPriceParity :=
  imap (λ index rpp, withRank (Some (index + 1)%nat) rpp)
    (JsArray.sort (JsArray.descendingBy overall) results).

(** The parameters [buildBEAUrl] puts in the URL. *)
Record Request : Type := {
  TableName : string;
  LineCodes : string;
  GeoFipsParam : string;
  Year : Z
}.

Record HttpResponse : Type := {
  ok : bool;
  json : result (option (list BEADataItem))
}.

(** The upstream API and the requests sent to it so far. *)
Record Network : Type := {
  respond : Request → HttpResponse;
  requests : list Request
}.

Definition fetch (net : Network) (url : Request) : HttpResponse * Network :=
  (respond net url, {| respond := respond net; requests := requests net ++ [url] |}).

(** The closure handed to [withCache] by [getRPPAllStates] and
    [getRPPAllMetros]. *)
Definition fetchRanked (url : Request) (dataYear : Z) (net : Network)
    : result (option (list RegionalPriceParity)) * Network :=
  let '(response, net') := fetch net url in
  if ok response then
    match json response with
    | Throw m => (Throw m, net')
    | Ok data =>
        let rppMap := parseBEAResponse data dataYear in
        (Ok (Some (rankByOverall (completeRecords rppMap))), net')
    end
  else (Throw "UPSTREAM_ERROR: BEA API returned a non-2xx status", net').

(** [year || (await getLatestRPPYear())] *)
Definition dataYearOf (year : option Z) (currentYear : Z) : Z :=
  or_default year (currentYear - 2).

Section Fetchers.

Variable DEFAULT_CACHE_TTL : APISource → Z.

(** [JSON.stringify({ year }, ["year"])] *)
Variable stringifyYear : Z → string.

(** The environment variable [BEA_API_KEY]; [buildBEAUrl] throws when it
    is falsy, that is unset or empty. *)
Variable BEA_API_KEY : option string.

Definition getRPPAll (endpoint table geo : string) (b : Backend (list RegionalPriceParity))
    (net : Network) (year : option Z) (currentYear : Z) (clock : Clock)
    : result (Fetched (option (list RegionalPriceParity)))
      * Backend (list RegionalPriceParity) * Network :=
  let dataYear := dataYearOf year currentYear in
  let cacheKey := generateCacheKey BEA endpoint (stringifyYear dataYear) in
  match BEA_API_KEY with
  | Some (String _ _) =>
      let url := {| TableName := table; LineCodes := "1,2,3,4";
                    GeoFipsParam := geo; Year := dataYear |} in
      withCache DEFAULT_CACHE_TTL b cacheKey
        {| source := BEA; ttlSeconds := Some (86400 * 30) |}
        (fetchRanked url dataYear) clock net
  | _ => (Throw "INTERNAL_ERROR: BEA API key not configured", b, net)
  end.

Definition getRPPAllStates := getRPPAll "rpp-states" "SARPP" "STATE".

Definition getRPPAllMetros := getRPPAll "rpp-metros" "MARPP" "MSA".

End Fetchers.

(** The two fetches of a whole batch. *)
Inductive Batch : Type := AllStates | AllMetros.

Definition getRPPAllOf (which : Batch) :=
  match which with
  | AllStates => getRPPAllStates
  | AllMetros => getRPPAllMetros
  end.

Definition endpointOf (which : Batch) : string :=
  match which with
  | AllStates => "rpp-states"
  | AllMetros => "rpp-metros"
  end.

Definition statesUrl (dataYear : Z) : Request :=
  {| TableName := "SARPP"; LineCodes := "1,2,3,4"; GeoFipsParam := "STATE";
     Year := dataYear |}.

Definition metrosUrl (dataYear : Z) : Request :=
  {| TableName := "MARPP"; LineCodes := "1,2,3,4"; GeoFipsParam := "MSA";
     Year := dataYear |}.

(** The URL each of them builds. *)
Definition urlOf (which : Batch) (dataYear : Z) : Request :=
  match which with
  | AllStates => statesUrl dataYear
  | AllMetros => metrosUrl dataYear
  end.

(** What the claim of a prior-year retry asks of the requests sent. *)
Definition attemptedPriorYear (dataYear : Z) (net : Network) : Prop :=
  ∃ url, url ∈ requests net ∧ Year url = dataYear - 1.

Abbreviation sameOverall v := (λ rpp, JsArray.sameKey overall v rpp = true).

Lemma withRank_withRank r r' rpp : withRank r (withRank r' rpp) = withRank r rpp.
Proof. reflexivity. Qed.

Lemma imap_descending (f : nat → RegionalPriceParity → RegionalPriceParity) l :
  (∀ i x, overall (f i x) = overall x) →
  JsArray.descending overall l → JsArray.descending overall (imap f l).
Proof.
  unfold JsArray.descending. revert f.
  induction l as [|x l IH]; intros f Hf Hs; [constructor|].
  apply StronglySorted_inv in Hs as [Hl Hx]. simpl.
  constructor.
  - apply IH; [intros; apply Hf | exact Hl].
  - apply Forall_forall. intros y Hy.
    apply list_elem_of_lookup in Hy as [i Hi].
    rewrite list_lookup_imap in Hi.
    destruct (l !! i) as [z|] eqn:Hz; [|done].
    simpl in Hi. injection Hi as <-. simpl. rewrite !Hf.
    rewrite Forall_forall in Hx. apply Hx.
    apply list_elem_of_lookup. eauto.
Qed.

Lemma strip_filter_imap v (f : nat → RegionalPriceParity → RegionalPriceParity) l :
  (∀ i x, withRank None (f i x) = withRank None x) →
  withRank None <$> filter (sameOverall v) (imap f l) =
  withRank None <$> filter (sameOverall v) l.
Proof.
  revert f. induction l as [|x l IH]; intros f Hf; [done|].
  simpl. rewrite !filter_cons.
  assert (Hov : overall (f 0%nat x) = overall x).
  { change (overall (withRank None (f 0%nat x)) = overall (withRank None x)).
    by rewrite Hf. }
  destruct (decide (JsArray.sameKey overall v (f 0%nat x) = true)) as [H1|H1];
    destruct (decide (JsArray.sameKey overall v x = true)) as [H2|H2];
    unfold JsArray.sameKey in H1, H2; rewrite Hov in H1; try congruence; simpl.
  - rewrite Hf. f_equal. apply IH. intros; apply Hf.
  - apply IH. intros; apply Hf.
Qed.

Lemma parse_other_year year rppMap items :
  (∀ item, item ∈ items → TimePeriod item ≠ year) →
  foldl (parseItem year) rppMap items = rppMap.
Proof.
  revert rppMap. induction items as [|item items IH]; intros rppMap Hall; [done|].
  simpl. unfold parseItem at 2.
  destruct (decide (TimePeriod item = year)) as [Heq|_].
  - exfalso. apply (Hall item); [left | exact Heq].
  - apply IH. intros i Hi. apply Hall. by right.
Qed.

Lemma getRPPAllOf_unfold (which : Batch) (TTL : APISource → Z) (stringifyYear : Z → string)
    (key : option string) (b : Backend (list RegionalPriceParity)) (net : Network)
    (year : option Z) (currentYear : Z) (clock : Clock) :
  getRPPAllOf which TTL stringifyYear key b net year currentYear clock =
    let dataYear := dataYearOf year currentYear in
    match key with
    | Some (String _ _) =>
        withCache TTL b (generateCacheKey BEA (endpointOf which) (stringifyYear dataYear))
          {| source := BEA; ttlSeconds := Some (86400 * 30) |}
          (fetchRanked (urlOf which dataYear) dataYear) clock net
    | _ => (Throw "INTERNAL_ERROR: BEA API key not configured", b, net)
    end.
Proof. by destruct which. Qed.

(** A result that does not come from the cache was computed from the
    response to the one request of the call. *)
Lemma getRPPAllOf_fresh (which : Batch) (TTL : APISource → Z) (stringifyYear : Z → string)
    (key : option string) (b b' : Backend (list RegionalPriceParity)) (net net' : Network)
    (year : option Z) (currentYear : Z) (clock : Clock)
    (fetched : Fetched (option (list RegionalPriceParity))) :
  getRPPAllOf which TTL stringifyYear key b net year currentYear clock =
    (Ok fetched, b', net') →
  cached fetched = false →
  let dataYear := dataYearOf year currentYear in
  ∃ data,
    ok (respond net (urlOf which dataYear)) = true ∧
    json (respond net (urlOf which dataYear)) = Ok data ∧
    fetched =
      {| fetched_data :=
           Some (rankByOverall (completeRecords (parseBEAResponse data dataYear)));
         cached := false; cacheAge := None |} ∧
    net' = {| respond := respond net;
              requests := requests net ++ [urlOf which dataYear] |} ∧
    (∃ c rest, key = Some (String c rest)) ∧
    b' = (setCachedData TTL b
            (generateCacheKey BEA (endpointOf which) (stringifyYear dataYear))
            (Some (rankByOverall (completeRecords (parseBEAResponse data dataYear))))
            {| source := BEA; ttlSeconds := Some (86400 * 30) |}
            (expiryNow clock) (createdNow clock)).2.
Proof.
  rewrite getRPPAllOf_unfold. cbv zeta.
  destruct key as [[|c rest]|]; [done| |done].
  unfold withCache. cbn [source].
  destruct (getCachedData _ _ _ _ _) as [[[payload age]|]|m]; [| |done].
  { intros [= <- _ _]. done. }
  unfold fetchRanked, fetch. cbv beta iota zeta.
  destruct (ok (respond net _)); [|done].
  destruct (json (respond net _)) as [data|m]; [|done].
  intros [= <- <- <-] _. exists data. eauto 10.
Qed.

Lemma rankByOverall_descending batch :
  JsArray.descending overall (rankByOverall batch).
Proof. apply imap_descending; [done|]. apply JsArray.sort_descending. Qed.

Lemma rankByOverall_rank batch i rpp :
  rankByOverall batch !! i = Some rpp → rank rpp = Some (i + 1)%nat.
Proof.
  unfold rankByOverall. rewrite list_lookup_imap.
  destruct (JsArray.sort _ batch !! i); [|done].
  simpl. by intros [= <-].
Qed.

Lemma rankByOverall_perm batch :
  withRank None <$> rankByOverall batch ≡ₚ withRank None <$> batch.
Proof.
  unfold rankByOverall.
  rewrite <- (JsArray.sort_perm (JsArray.descendingBy overall) batch) at 2.
  rewrite fmap_imap. simpl.
  erewrite imap_ext; [|intros; apply withRank_withRank].
  by rewrite (imap_const (withRank None)).
Qed.

Lemma rankByOverall_stable batch v :
  withRank None <$> filter (sameOverall v) (rankByOverall batch) =
  withRank None <$> filter (sameOverall v) batch.
Proof.
  unfold rankByOverall. rewrite strip_filter_imap; [|done].
  by rewrite JsArray.sort_stable.
Qed.


Definition exampleRow (fips name : string) (value : Q) : BEADataItem :=
  {| TimePeriod := 2022; GeoFips := fips; GeoName := name;
     DataValue := Some value; LineCode := Some ALL_ITEMS |}.

Definition exampleNetwork : Network :=
  {| respond := λ url,
       if Year url =? 2022 then
         {| ok := true;
            json := Ok (Some [exampleRow "06000" "California" 110;
                              exampleRow "01000" "Alabama" 95;
                              exampleRow "08000" "Colorado" 100]) |}
       else {| ok := true; json := Ok (Some []) |};
     requests := [] |}.

Definition emptyStore : Backend (list RegionalPriceParity) :=
  {| rows := ∅; status := Up |}.

Definition noon : Clock :=
  {| queryNow := 1000; ageNow := 1001; expiryNow := 1002; createdNow := 1003 |}.


Lemma getRPPAllOf_no_rows (which : Batch) (TTL : APISource → Z)
    (stringifyYear : Z → string) (key : string)
    (b : Backend (list RegionalPriceParity)) (net : Network) (year : option Z)
    (currentYear : Z) (clock : Clock) (data : option (list BEADataItem)) :
  let dataYear := dataYearOf year currentYear in
  key ≠ "" →
  getCachedData (selectSingle b) BEA
    (generateCacheKey BEA (endpointOf which) (stringifyYear dataYear))
    (queryNow clock) (ageNow clock) = Ok None →
  ok (respond net (urlOf which dataYear)) = true →
  json (respond net (urlOf which dataYear)) = Ok data →
  (∀ items item, data = Some items → item ∈ items → TimePeriod item ≠ dataYear) →
  ∃ b',
    getRPPAllOf which TTL stringifyYear (Some key) b net year currentYear clock =
      (Ok {| fetched_data := Some []; cached := false; cacheAge := None |},
       b',
       {| respond := respond net; requests := requests net ++ [urlOf which dataYear] |}).
Proof.
  intros dataYear Hkey Hmiss Hok Hjson Hrows.
  rewrite getRPPAllOf_unfold. cbv zeta. fold dataYear.
  destruct key as [|c rest]; [done|].
  unfold withCache. cbn [source]. rewrite Hmiss.
  unfold fetchRanked, fetch. cbv beta iota zeta. rewrite Hok, Hjson.
  assert (Hparse : parseBEAResponse data dataYear = []).
  { destruct data as [items|]; [|done]. simpl.
    apply parse_other_year. intros item Hin. by eapply Hrows. }
  rewrite Hparse. simpl. eexists. reflexivity.
Qed.

(** C5 (amended): with an API key configured, when the upstream response
    has no rows for the requested year, a fetch of all states or of all
    metros that misses the cache returns the empty list and adds exactly
    one request to those sent, the one for the requested year: the call
    itself asks for no prior year. *)
Theorem no_rows_one_request (which : Batch) (TTL : APISource → Z)
    (stringifyYear : Z → string) (key : string)
    (b : Backend (list RegionalPriceParity)) (net : Network)
    (year : option Z) (currentYear : Z) (clock : Clock)
    (data : option (list BEADataItem)) :
  let dataYear := dataYearOf year currentYear in
  let out := getRPPAllOf which TTL stringifyYear (Some key) b net year currentYear clock in
  key ≠ "" →
  getCachedData (selectSingle b) BEA
    (generateCacheKey BEA (endpointOf which) (stringifyYear dataYear))
    (queryNow clock) (ageNow clock) = Ok None →
  ok (respond net (urlOf which dataYear)) = true →
  json (respond net (urlOf which dataYear)) = Ok data →
  (∀ items item, data = Some items → item ∈ items → TimePeriod item ≠ dataYear) →
  out.1.1 = Ok {| fetched_data := Some []; cached := false; cacheAge := None |} ∧
  requests out.2 = requests net ++ [urlOf which dataYear] ∧
  Year (urlOf which dataYear) = dataYear ∧
  (attemptedPriorYear dataYear out.2 → attemptedPriorYear dataYear net).
Proof.
  intros dataYear out Hkey Hmiss Hok Hjson Hrows.
  destruct (getRPPAllOf_no_rows which TTL stringifyYear key b net year currentYear
              clock data Hkey Hmiss Hok Hjson Hrows) as [b' Hrun].
  subst out. rewrite Hrun. cbn [fst snd requests].
  split; [reflexivity|]. split; [reflexivity|]. split; [by destruct which|].
  intros (url & Hin & Hyear).
  apply elem_of_app in Hin as [Hin|Hin%list_elem_of_singleton].
  - by exists url.
  - subst url. fold dataYear in Hyear. destruct which; simpl in Hyear; lia.
Qed.

(** An upstream that has rows for 2021 only. *)
Definition staleNetwork : Network :=
  {| respond := λ url,
       if Year url =? 2021 then
         {| ok := true;
            json := Ok (Some [{| TimePeriod := 2021; GeoFips := "06000";
                                 GeoName := "California"; DataValue := Some 110%Q;
                                 LineCode := Some ALL_ITEMS |}]) |}
       else {| ok := true; json := Ok (Some []) |};
     requests := [] |}.

Lemma no_rows_one_request_witness :
  let out := getRPPAllStates (λ _, 3600) (λ _, "year:2022") (Some "key") emptyStore
               staleNetwork (Some 2022) 2024 noon in
  out.1.1 = Ok {| fetched_data := Some []; cached := false; cacheAge := None |} ∧
  requests out.2 = [statesUrl 2022].
Proof.
  destruct (no_rows_one_request AllStates (λ _, 3600) (λ _, "year:2022") "key" emptyStore
              staleNetwork (Some 2022) 2024 noon (Some [])) as (Hout & Hrequests & _).
  - discriminate.
  - reflexivity.
  - reflexivity.
  - reflexivity.
  - intros items item [= <-] Hin. by apply elem_of_nil in Hin.
  - split; [exact Hout | exact Hrequests].
Defined.

(** C5 as stated fails: asked for 2022 with rows upstream for 2021 only,
    the fetch returns an empty list and has asked for 2022 alone. *)
Lemma no_rows_one_request_counterexample :
  let out := getRPPAllStates (λ _, 3600) (λ _, "year:2022") (Some "key") emptyStore
               staleNetwork (Some 2022) 2024 noon in
  out.1.1 = Ok {| fetched_data := Some []; cached := false; cacheAge := None |} ∧
  requests out.2 = [statesUrl 2022] ∧
  ¬ attemptedPriorYear 2022 out.2.
Proof.
  split; [reflexivity|]. split; [reflexivity|].
  intros (url & Hin & Hyear). simpl in Hin.
  apply list_elem_of_singleton in Hin. subst url. simpl in Hyear. lia.
Qed.

End Bea.

(** ** String helpers of the JavaScript runtime and of the store *)

Module Text.

Definition comma : Ascii.ascii := ","%char.

Definition isWhitespace (c : Ascii.ascii) : bool :=
  let n := Ascii.nat_of_ascii c in
  ((9 <=? n) && (n <=? 13) || (n =? 32))%nat.

Fixpoint trimStart (s : string) : string :=
  match s with
  | String c rest => if isWhitespace c then trimStart rest else s
  | EmptyString => EmptyString
  end.

(** [s.trim()] *)
Definition trim (s : string) : string :=
  String.rev (trimStart (String.rev (trimStart s))).

(** [s.split(",")]: the pieces between the separators, at least one. *)
Fixpoint split (sep : Ascii.ascii) (s : string) : list string :=
  match s with
  | EmptyString => [EmptyString]
  | String c rest =>
      if Ascii.eqb c sep then EmptyString :: split sep rest
      else
        match split sep rest with
        | piece :: pieces => String c piece :: pieces
        | [] => [String c EmptyString]
        end
  end.

(** [x || fallback] on an optional string: [undefined] and [""] are falsy. *)
Definition orElse (x : option string) (fallback : string) : string :=
  match x with
  | Some (String c rest) => String c rest
  | _ => fallback
  end.

Definition isDigit (c : Ascii.ascii) : bool :=
  let n := Ascii.nat_of_ascii c in ((48 <=? n) && (n <=? 57))%nat.

Definition isLetter (c : Ascii.ascii) : bool :=
  let n := Ascii.nat_of_ascii c in
  ((65 <=? n) && (n <=? 90) || (97 <=? n) && (n <=? 122))%nat.

Definition isUpper (c : Ascii.ascii) : bool :=
  let n := Ascii.nat_of_ascii c in ((65 <=? n) && (n <=? 90))%nat.

Definition toUpperChar (c : Ascii.ascii) : Ascii.ascii :=
  let n := Ascii.nat_of_ascii c in
  if ((97 <=? n) && (n <=? 122))%nat then Ascii.ascii_of_nat (n - 32) else c.

(** [s.toUpperCase()] on ASCII text. *)
Fixpoint toUpperCase (s : string) : string :=
  match s with
  | EmptyString => EmptyString
  | String c rest => String (toUpperChar c) (toUpperCase rest)
  end.

Fixpoint allChars (p : Ascii.ascii → bool) (s : string) : bool :=
  match s with
  | EmptyString => true
  | String c rest => p c && allChars p rest
  end.

(** SQL [LIKE]: [%] matches any run of characters, [_] any one character,
    every other character itself. *)
Fixpoint likeChars (pattern : list Ascii.ascii) : list Ascii.ascii → bool :=
  match pattern with
  | [] => λ s, match s with [] => true | _ => false end
  | p :: pattern' =>
      if Ascii.eqb p "%"%char then
        fix star (s : list Ascii.ascii) : bool :=
          likeChars pattern' s ||
          match s with
          | [] => false
          | _ :: s' => star s'
          end
      else if Ascii.eqb p "_"%char then
        λ s, match s with
             | [] => false
             | _ :: s' => likeChars pattern' s'
             end
      else
        λ s, match s with
             | [] => false
             | c :: s' => Ascii.eqb p c && likeChars pattern' s'
             end
  end.

Definition like (pattern s : string) : bool :=
  likeChars (String.list_ascii_of_string pattern) (String.list_ascii_of_string s).

End Text.

(** ** ZIP-to-metro resolver: [src/lib/api/hud.ts] *)

Module Hud.
Import Store.

(** A row of [zip_to_cbsa]. *)
Record CrosswalkRow : Type := {
  zip_code : string;
  cbsa_code : string;
  cbsa_name : string;
  residential_ratio : Q
}.

Record CBSACrosswalkResult : Type := {
  cbsaCode : string;
  cbsaName : string;
  cityName : string;
  stateCode : string;
  residentialRatio : Q;
  isSplitZip : bool
}.

(** The two queries the module sends to [zip_to_cbsa]; both are ordered
    by [residential_ratio] descending. *)
Inductive CrosswalkQuery : Type :=
| ByZip (zipCode : string)
| LikeNameExcept (pattern : string) (excludedCode : string) (limit : nat).

Definition CrosswalkClient : Type := CrosswalkQuery → result (Reply (list CrosswalkRow)).

(** [.order("residential_ratio", { ascending: false })]; rows with equal
    ratios are left in table order. *)
Definition orderByRatio (rows : list CrosswalkRow) : list CrosswalkRow :=
  JsArray.sort (JsArray.descendingBy residential_ratio) rows.

Definition rowsOfZip (table : list CrosswalkRow) (zipCode : string) : list CrosswalkRow :=
  filter (λ row, zip_code row = zipCode) table.

Definition isCandidate (pattern excludedCode : string) (row : CrosswalkRow) : Prop :=
  Text.like pattern (cbsa_name row) = true ∧ cbsa_code row ≠ excludedCode.

#[global] Instance isCandidate_dec pattern excludedCode row :
  Decision (isCandidate pattern excludedCode row).
Proof. unfold isCandidate. apply _. Defined.

(** A reachable store holding [table]. *)
Definition crosswalkSelect (table : list CrosswalkRow) : CrosswalkClient := λ q,
  match q with
  | ByZip zipCode =>
      Ok {| data := Some (orderByRatio (rowsOfZip table zipCode)); error := None |}
  | LikeNameExcept pattern excludedCode limit =>
      Ok {| data := Some (take limit
                            (orderByRatio (filter (isCandidate pattern excludedCode) table)));
            error := None |}
  end.

(** City and state of a name of the form ["City Name, ST"]. *)
Definition cityOf (name : string) : string :=
  Text.orElse (Text.trim <$> Text.split Text.comma name !! 0%nat) "Unknown".

Definition stateOf (name : string) : string :=
  Text.orElse (Text.trim <$> Text.split Text.comma name !! 1%nat) "".

Definition getMetroCodeForZip (supabase : CrosswalkClient) (zipCode : string)
    : result (option CBSACrosswalkResult) :=
  try_catch
    (reply ← supabase (ByZip zipCode);
     match error reply with
     | Some _ => Ok None
     | None =>
         match data reply with
         | None | Some [] => Ok None
         | Some (primary :: others) =>
             Ok (Some {| cbsaCode := cbsa_code primary;
                         cbsaName := cbsa_name primary;
                         cityName := cityOf (cbsa_name primary);
                         stateCode := stateOf (cbsa_name primary);
                         residentialRatio := residential_ratio primary;
                         isSplitZip := bool_decide (1 < length (primary :: others))%nat |})
         end
     end)
    (λ _, Ok None).

Definition nearbyResult (item : CrosswalkRow) : CBSACrosswalkResult :=
  {| cbsaCode := cbsa_code item;
     cbsaName := cbsa_name item;
     cityName := cityOf (cbsa_name item);
     stateCode := stateOf (cbsa_name item);
     residentialRatio := residential_ratio item;
     isSplitZip := false |}.

(** One turn of the loop that fills [seen] and [unique]. *)
Definition dedupeStep (limit : nat) (acc : gset string * list CBSACrosswalkResult)
    (item : CrosswalkRow) : gset string * list CBSACrosswalkResult :=
  let '(seen, unique) := acc in
  if bool_decide (cbsa_code item ∉ seen) && bool_decide (length unique < limit)%nat
  then ({[cbsa_code item]} ∪ seen, unique ++ [nearbyResult item])
  else (seen, unique).

(** [limit = None] is an omitted argument, which defaults to 5. *)
Definition getNearbyMetros (supabase : CrosswalkClient) (zipCode : string)
    (limit : option nat) : result (list CBSACrosswalkResult) :=
  let limit := default 5%nat limit in
  try_catch
    (crosswalk ← getMetroCodeForZip supabase zipCode;
     match crosswalk with
     | None => Ok []
     | Some crosswalk =>
         reply ← supabase (LikeNameExcept ("%" +:+ stateCode crosswalk +:+ "%")
                             (cbsaCode crosswalk) (limit * 3));
         match error reply, data reply with
         | None, Some data => Ok (foldl (dedupeStep limit) (∅, []) data).2
         | _, _ => Ok []
         end
     end)
    (λ _, Ok []).

(** The loop as a function of the rows still to visit, with [n] for
    [unique.length]. *)
Fixpoint dedupeFrom (limit : nat) (seen : gset string) (n : nat)
    (data : list CrosswalkRow) : list CBSACrosswalkResult :=
  match data with
  | [] => []
  | item :: rest =>
      if bool_decide (cbsa_code item ∉ seen) && bool_decide (n < limit)%nat
      then nearbyResult item :: dedupeFrom limit ({[cbsa_code item]} ∪ seen) (S n) rest
      else dedupeFrom limit seen n rest
  end.

(** The primary metro built from a row, as [getMetroCodeForZip] returns it. *)
Definition primaryResult (primary : CrosswalkRow) (split : bool) : CBSACrosswalkResult :=
  {| cbsaCode := cbsa_code primary;
     cbsaName := cbsa_name primary;
     cityName := cityOf (cbsa_name primary);
     stateCode := stateOf (cbsa_name primary);
     residentialRatio := residential_ratio primary;
     isSplitZip := split |}.

Lemma orderByRatio_head rows primary others :
  orderByRatio rows = primary :: others →
  primary ∈ rows ∧
  ∀ row, row ∈ rows → (residential_ratio row <= residential_ratio primary)%Q.
Proof.
  intros Hsort.
  pose proof (JsArray.sort_perm (JsArray.descendingBy residential_ratio) rows) as Hperm.
  pose proof (JsArray.sort_descending residential_ratio rows) as Hdesc.
  fold (orderByRatio rows) in Hperm, Hdesc. rewrite Hsort in Hperm, Hdesc.
  split.
  - rewrite <- Hperm. by left.
  - intros row Hrow. rewrite <- Hperm in Hrow.
    apply StronglySorted_inv in Hdesc as [_ Hall].
    apply elem_of_cons in Hrow as [->|Hrow]; [lra|].
    rewrite Forall_forall in Hall. by apply Hall.
Qed.

Lemma getMetroCodeForZip_select table zipCode :
  getMetroCodeForZip (crosswalkSelect table) zipCode =
    match orderByRatio (rowsOfZip table zipCode) with
    | [] => Ok None
    | primary :: others =>
        Ok (Some (primaryResult primary
                    (bool_decide (1 < length (rowsOfZip table zipCode))%nat)))
    end.
Proof.
  unfold getMetroCodeForZip, crosswalkSelect. simpl.
  destruct (orderByRatio (rowsOfZip table zipCode)) as [|primary others] eqn:Hsort; [done|].
  simpl. unfold primaryResult. do 3 f_equal.
  apply (f_equal length) in Hsort. unfold orderByRatio in Hsort.
  rewrite JsArray.sort_length in Hsort. by rewrite Hsort.
Qed.

Lemma foldl_dedupeStep limit data seen unique :
  (foldl (dedupeStep limit) (seen, unique) data).2 =
  unique ++ dedupeFrom limit seen (length unique) data.
Proof.
  revert seen unique. induction data as [|item rest IH]; intros seen unique; simpl.
  - by rewrite app_nil_r.
  - destruct (bool_decide (cbsa_code item ∉ seen) && bool_decide (length unique < limit)%nat).
    + rewrite IH, length_app. simpl. rewrite Nat.add_1_r, <- app_assoc. reflexivity.
    + apply IH.
Qed.

Lemma dedupeFrom_full limit seen n data :
  (limit ≤ n)%nat → dedupeFrom limit seen n data = [].
Proof.
  intros Hfull. revert seen. induction data as [|item rest IH]; intros seen; simpl; [done|].
  rewrite (bool_decide_eq_false_2 (n < limit)%nat) by lia.
  rewrite andb_false_r. apply IH.
Qed.

Lemma dedupeFrom_origin limit seen n data r :
  r ∈ dedupeFrom limit seen n data →
  ∃ item, item ∈ data ∧ r = nearbyResult item ∧ cbsa_code item ∉ seen.
Proof.
  revert seen n. induction data as [|item rest IH]; intros seen n; simpl.
  - intros Hin. by apply elem_of_nil in Hin.
  - destruct (bool_decide (cbsa_code item ∉ seen)) eqn:Hseen; simpl.
    + destruct (bool_decide (n < limit)%nat); simpl.
      * intros [->|Hin]%elem_of_cons.
        -- exists item. apply bool_decide_eq_true in Hseen. repeat split; [left|done].
        -- destruct (IH _ _ Hin) as (item' & Hin' & -> & Hnot).
           exists item'. repeat split; [by right|set_solver].
      * intros Hin. destruct (IH _ _ Hin) as (item' & Hin' & -> & Hnot).
        exists item'. repeat split; [by right|done].
    + intros Hin. destruct (IH _ _ Hin) as (item' & Hin' & -> & Hnot).
      exists item'. repeat split; [by right|done].
Qed.

Lemma dedupeFrom_NoDup limit seen n data :
  NoDup (cbsaCode <$> dedupeFrom limit seen n data).
Proof.
  revert seen n. induction data as [|item rest IH]; intros seen n; simpl; [constructor|].
  destruct (bool_decide (cbsa_code item ∉ seen) && bool_decide (n < limit)%nat); [|apply IH].
  simpl. constructor; [|apply IH].
  intros Hin. apply list_elem_of_fmap in Hin as (r & Hcode & Hr).
  apply dedupeFrom_origin in Hr as (item' & _ & -> & Hnot).
  simpl in Hcode. set_solver.
Qed.

Lemma dedupeFrom_length limit seen n data :
  (n ≤ limit)%nat → (n + length (dedupeFrom limit seen n data) ≤ limit)%nat.
Proof.
  revert seen n. induction data as [|item rest IH]; intros seen n Hn; simpl; [lia|].
  destruct (bool_decide (cbsa_code item ∉ seen)); simpl; [|by apply IH].
  destruct (bool_decide_reflect (n < limit)%nat) as [Hlt|Hge]; simpl; [|by apply IH].
  specialize (IH ({[cbsa_code item]} ∪ seen) (S n)). lia.
Qed.

Lemma dedupeFrom_descending limit seen n data :
  JsArray.descending residential_ratio data →
  JsArray.descending residentialRatio (dedupeFrom limit seen n data).
Proof.
  unfold JsArray.descending.
  revert seen n. induction data as [|item rest IH]; intros seen n Hs; simpl; [constructor|].
  apply StronglySorted_inv in Hs as [Hrest Hall].
  destruct (bool_decide (cbsa_code item ∉ seen) && bool_decide (n < limit)%nat);
    [|by apply IH].
  constructor; [by apply IH|].
  apply Forall_forall. intros r Hr.
  apply dedupeFrom_origin in Hr as (item' & Hin & -> & _). simpl.
  rewrite Forall_forall in Hall. by apply Hall.
Qed.

(** A returned entry is the first row of its code, so no visited row of
    that code has a higher ratio. *)
Lemma dedupeFrom_highest limit seen n data r row :
  JsArray.descending residential_ratio data →
  r ∈ dedupeFrom limit seen n data →
  row ∈ data →
  cbsa_code row = cbsaCode r →
  (residential_ratio row <= residentialRatio r)%Q.
Proof.
  unfold JsArray.descending.
  revert seen n. induction data as [|item rest IH]; intros seen n Hs Hr Hrow Hcode.
  { by apply elem_of_nil in Hrow. }
  apply StronglySorted_inv in Hs as [Hrest Hall]. rewrite Forall_forall in Hall.
  simpl in Hr.
  destruct (bool_decide_reflect (cbsa_code item ∉ seen)) as [Hnew|Hold]; simpl in Hr.
  - destruct (bool_decide_reflect (n < limit)%nat) as [Hlt|Hge]; simpl in Hr.
    + apply elem_of_cons in Hr as [->|Hr].
      * simpl. apply elem_of_cons in Hrow as [->|Hrow]; [lra|by apply Hall].
      * pose proof (dedupeFrom_origin _ _ _ _ _ Hr) as (item' & _ & Hitem & Hnot).
        apply elem_of_cons in Hrow as [->|Hrow].
        -- subst r. simpl in Hcode. set_solver.
        -- by eapply IH.
    + rewrite dedupeFrom_full in Hr by lia. by apply elem_of_nil in Hr.
  - pose proof (dedupeFrom_origin _ _ _ _ _ Hr) as (item' & _ & Hitem & Hnot).
    apply elem_of_cons in Hrow as [->|Hrow].
    + subst r. simpl in Hcode. exfalso. apply Hold. by rewrite Hcode.
    + by eapply IH.
Qed.

Lemma descending_app {A} (key : A → Q) l1 l2 x y :
  JsArray.descending key (l1 ++ l2) → x ∈ l1 → y ∈ l2 → (key y <= key x)%Q.
Proof.
  unfold JsArray.descending. induction l1 as [|z l1 IH]; intros Hs Hx Hy.
  { by apply elem_of_nil in Hx. }
  simpl in Hs. apply StronglySorted_inv in Hs as [Hrest Hall].
  apply elem_of_cons in Hx as [->|Hx].
  - rewrite Forall_forall in Hall. apply Hall. apply elem_of_app. by right.
  - by apply IH.
Qed.

Lemma descending_take {A} (key : A → Q) k l :
  JsArray.descending key l → JsArray.descending key (take k l).
Proof.
  unfold JsArray.descending. revert k.
  induction l as [|x l IH]; intros k Hs; [by destruct k; constructor|].
  apply StronglySorted_inv in Hs as [Hrest Hall].
  destruct k as [|k]; simpl; constructor; [by apply IH | by apply Forall_take].
Qed.

(** C6: for a ZIP with crosswalk records the resolver returns a record of
    that ZIP whose [residentialRatio] is the maximum, with [isSplitZip]
    true exactly when the ZIP has more than one record; for a ZIP without
    records it returns none and does not throw. Two rows with ratios 0.7
    and 0.3 resolve to the 0.7 row with [isSplitZip = true]. *)
Theorem primary_metro_has_max_ratio (table : list CrosswalkRow) (zipCode : string) :
  let rows := rowsOfZip table zipCode in
  (rows = [] → getMetroCodeForZip (crosswalkSelect table) zipCode = Ok None) ∧
  (rows ≠ [] →
   ∃ primary,
     primary ∈ rows ∧
     (∀ row, row ∈ rows → (residential_ratio row <= residential_ratio primary)%Q) ∧
     getMetroCodeForZip (crosswalkSelect table) zipCode =
       Ok (Some (primaryResult primary (bool_decide (1 < length rows)%nat)))) ∧
  (∀ a b,
     (residential_ratio a == 7 # 10)%Q → (residential_ratio b == 3 # 10)%Q →
     rows = [a; b] ∨ rows = [b; a] →
     getMetroCodeForZip (crosswalkSelect table) zipCode =
       Ok (Some (primaryResult a true))).
Proof.
  intros rows. rewrite getMetroCodeForZip_select. fold rows.
  split; [|split].
  - intros ->. reflexivity.
  - intros Hne.
    destruct (orderByRatio rows) as [|primary others] eqn:Hsort.
    + apply (f_equal length) in Hsort. unfold orderByRatio in Hsort.
      rewrite JsArray.sort_length in Hsort. by destruct rows.
    + exists primary. destruct (orderByRatio_head _ _ _ Hsort) as [Hin Hmax].
      split; [exact Hin|]. split; [exact Hmax|]. reflexivity.
  - intros a b Ha Hb Hrows.
    assert (Hba : JsArray.comesAfter (JsArray.descendingBy residential_ratio) b a = true).
    { apply JsArray.comesAfter_desc. rewrite Ha, Hb. reflexivity. }
    assert (Hab : JsArray.comesAfter (JsArray.descendingBy residential_ratio) a b = false).
    { apply JsArray.comesAfter_desc_false. rewrite Ha, Hb. discriminate. }
    destruct Hrows as [->| ->]; unfold orderByRatio;
      cbn [JsArray.sort foldr JsArray.insert]; rewrite ?Hba, ?Hab; reflexivity.
Qed.

Definition beverlyHills : list CrosswalkRow :=
  [ {| zip_code := "90210"; cbsa_code := "37100";
       cbsa_name := "Oxnard-Thousand Oaks-Ventura, CA"; residential_ratio := 3 # 10 |};
    {| zip_code := "10001"; cbsa_code := "35620";
       cbsa_name := "New York-Newark-Jersey City, NY-NJ-PA"; residential_ratio := 1 |};
    {| zip_code := "90210"; cbsa_code := "31080";
       cbsa_name := "Los Angeles-Long Beach-Anaheim, CA"; residential_ratio := 7 # 10 |} ].

(** ZIP 90210 with rows 0.3 and 0.7 resolves to the 0.7 row. *)
Lemma primary_metro_has_max_ratio_witness :
  getMetroCodeForZip (crosswalkSelect beverlyHills) "90210" =
    Ok (Some {| cbsaCode := "31080";
                cbsaName := "Los Angeles-Long Beach-Anaheim, CA";
                cityName := "Los Angeles-Long Beach-Anaheim";
                stateCode := "CA";
                residentialRatio := 7 # 10;
                isSplitZip := true |}).
Proof.
  destruct (primary_metro_has_max_ratio beverlyHills "90210") as (_ & _ & H).
  apply (H {| zip_code := "90210"; cbsa_code := "31080";
              cbsa_name := "Los Angeles-Long Beach-Anaheim, CA";
              residential_ratio := 7 # 10 |}
           {| zip_code := "90210"; cbsa_code := "37100";
              cbsa_name := "Oxnard-Thousand Oaks-Ventura, CA";
              residential_ratio := 3 # 10 |}).
  - reflexivity.
  - reflexivity.
  - right. reflexivity.
Defined.

(** What the store returns for the nearby query of a resolved primary. *)
Definition candidatesOf (table : list CrosswalkRow) (primary : CBSACrosswalkResult)
    : list CrosswalkRow :=
  orderByRatio
    (filter (isCandidate ("%" +:+ stateCode primary +:+ "%") (cbsaCode primary)) table).

Lemma getNearbyMetros_select table zipCode limit :
  getNearbyMetros (crosswalkSelect table) zipCode limit =
    match getMetroCodeForZip (crosswalkSelect table) zipCode with
    | Ok (Some primary) =>
        Ok (dedupeFrom (default 5%nat limit) ∅ 0
              (take (default 5%nat limit * 3) (candidatesOf table primary)))
    | _ => Ok []
    end.
Proof.
  unfold getNearbyMetros. rewrite getMetroCodeForZip_select.
  destruct (orderByRatio (rowsOfZip table zipCode)) as [|primary others]; [done|].
  simpl. by rewrite foldl_dedupeStep.
Qed.

(** The reading of "in the same state" on the returned records. *)
Definition sameState (primary r : CBSACrosswalkResult) : Prop :=
  stateCode r = stateCode primary.

(** What the query and the loop give on a table: rows whose metro name
    matches the pattern [%stateCode%] built from the primary, without the
    primary's own code, at most one entry per metro code (the highest-ratio
    row of that code among the matching rows), ordered by
    [residentialRatio] descending and at most [limit] many; for an
    unresolvable ZIP the list is empty. *)
Lemma nearby_rows (table : list CrosswalkRow) (zipCode : string) (limit : option nat) :
  (getMetroCodeForZip (crosswalkSelect table) zipCode = Ok None →
   getNearbyMetros (crosswalkSelect table) zipCode limit = Ok []) ∧
  ∀ primary,
    getMetroCodeForZip (crosswalkSelect table) zipCode = Ok (Some primary) →
    ∃ nearby,
      getNearbyMetros (crosswalkSelect table) zipCode limit = Ok nearby ∧
      (∀ r, r ∈ nearby →
         ∃ row, row ∈ table ∧ r = nearbyResult row ∧
                Text.like ("%" +:+ stateCode primary +:+ "%") (cbsaName r) = true) ∧
      (∀ r, r ∈ nearby → cbsaCode r ≠ cbsaCode primary) ∧
      NoDup (cbsaCode <$> nearby) ∧
      (∀ r row,
         r ∈ nearby → row ∈ table →
         isCandidate ("%" +:+ stateCode primary +:+ "%") (cbsaCode primary) row →
         cbsa_code row = cbsaCode r →
         (residential_ratio row <= residentialRatio r)%Q) ∧
      JsArray.descending residentialRatio nearby ∧
      (length nearby ≤ default 5 limit)%nat.
Proof.
  rewrite getNearbyMetros_select. split.
  { by intros ->. }
  intros primary ->. eexists. split; [reflexivity|].
  set (lim := default 5%nat limit).
  set (pattern := "%" +:+ stateCode primary +:+ "%").
  assert (Hdesc : JsArray.descending residential_ratio (candidatesOf table primary))
    by apply JsArray.sort_descending.
  assert (Hperm : candidatesOf table primary ≡ₚ
                  filter (isCandidate pattern (cbsaCode primary)) table)
    by apply JsArray.sort_perm.
  assert (Horigin : ∀ r,
            r ∈ dedupeFrom lim ∅ 0 (take (lim * 3) (candidatesOf table primary)) →
            ∃ row, row ∈ take (lim * 3) (candidatesOf table primary) ∧
                   r = nearbyResult row ∧ row ∈ table ∧
                   isCandidate pattern (cbsaCode primary) row).
  { intros r Hr. apply dedupeFrom_origin in Hr as (row & Hin & -> & _).
    exists row. split; [exact Hin|]. split; [reflexivity|].
    apply (subseteq_take (lim * 3)) in Hin. rewrite Hperm in Hin.
    by apply list_elem_of_filter in Hin as [? ?]. }
  split; [|split; [|split; [|split; [|split]]]].
  - intros r Hr. destruct (Horigin r Hr) as (row & _ & -> & Hin & [Hlike _]).
    exists row. done.
  - intros r Hr. destruct (Horigin r Hr) as (row & _ & -> & _ & [_ Hne]). exact Hne.
  - apply dedupeFrom_NoDup.
  - intros r row Hr Hrow Hcand Hcode.
    assert (Hsorted : row ∈ candidatesOf table primary).
    { rewrite Hperm. by apply list_elem_of_filter. }
    rewrite <- (take_drop (lim * 3) (candidatesOf table primary)) in Hsorted.
    apply elem_of_app in Hsorted as [Hfront|Hback].
    + eapply dedupeFrom_highest; [|exact Hr|exact Hfront|exact Hcode].
      by apply descending_take.
    + destruct (Horigin r Hr) as (row' & Hin' & -> & _). simpl.
      eapply (descending_app residential_ratio); [|exact Hin'|exact Hback].
      by rewrite take_drop.
  - apply dedupeFrom_descending. by apply descending_take.
  - apply (dedupeFrom_length lim ∅ 0). lia.
Qed.

(** A table with a ZIP outside any metro area, whose name has no state
    part, and two metros of different states. *)
Definition ruralTable : list CrosswalkRow :=
  [ {| zip_code := "59001"; cbsa_code := "99999";
       cbsa_name := "Outside any metro area"; residential_ratio := 1 |};
    {| zip_code := "77002"; cbsa_code := "26420";
       cbsa_name := "Houston-The Woodlands-Sugar Land, TX"; residential_ratio := 9 # 10 |};
    {| zip_code := "90012"; cbsa_code := "31080";
       cbsa_name := "Los Angeles-Long Beach-Anaheim, CA"; residential_ratio := 8 # 10 |};
    {| zip_code := "90210"; cbsa_code := "31080";
       cbsa_name := "Los Angeles-Long Beach-Anaheim, CA"; residential_ratio := 7 # 10 |} ].

(** Around ZIP 90012 (Los Angeles) the one other California metro of the
    table is Oxnard. *)
Lemma nearby_rows_example :
  ∃ nearby,
    getNearbyMetros (crosswalkSelect (ruralTable ++ beverlyHills)) "90012" (Some 2%nat) =
      Ok nearby ∧
    cbsaCode <$> nearby = ["37100"] ∧
    NoDup (cbsaCode <$> nearby) ∧
    (length nearby ≤ 2)%nat.
Proof.
  destruct (nearby_rows (ruralTable ++ beverlyHills) "90012" (Some 2%nat)) as [_ H].
  destruct (H (primaryResult
                 {| zip_code := "90012"; cbsa_code := "31080";
                    cbsa_name := "Los Angeles-Long Beach-Anaheim, CA";
                    residential_ratio := 8 # 10 |} false))
    as (nearby & Hrun & _ & _ & Hnodup & _ & _ & Hlen).
  - reflexivity.
  - exists nearby. split; [exact Hrun|].
    split; [|split; [exact Hnodup | exact Hlen]].
    vm_compute in Hrun. injection Hrun as <-. reflexivity.
Defined.

(** C9: the claim fails on the code. The primary metro of ZIP 59001 is
    "Outside any metro area", a name without a state part: its state code
    is empty, the pattern is [%%], and the nearby metros are those of
    Houston, TX and Los Angeles, CA, which are not in the state of the
    primary (and not in one state). *)
Theorem nearby_metros_other_states :
  ∃ primary nearby,
    getMetroCodeForZip (crosswalkSelect ruralTable) "59001" = Ok (Some primary) ∧
    getNearbyMetros (crosswalkSelect ruralTable) "59001" None = Ok nearby ∧
    cbsaName primary = "Outside any metro area" ∧
    stateCode primary = "" ∧
    cbsaName <$> nearby =
      ["Houston-The Woodlands-Sugar Land, TX"; "Los Angeles-Long Beach-Anaheim, CA"] ∧
    stateCode <$> nearby = ["TX"; "CA"] ∧
    ¬ (∀ r, r ∈ nearby → sameState primary r).
Proof.
  eexists _, _. split; [vm_compute; reflexivity|].
  split; [vm_compute; reflexivity|].
  split; [reflexivity|]. split; [reflexivity|].
  split; [reflexivity|]. split; [reflexivity|].
  intros Hall.
  specialize (Hall (nearbyResult
                      {| zip_code := "77002"; cbsa_code := "26420";
                         cbsa_name := "Houston-The Woodlands-Sugar Land, TX";
                         residential_ratio := 9 # 10 |})).
  unfold sameState in Hall. simpl in Hall.
  assert (Hcontra : "TX" = "") by (apply Hall; left).
  discriminate Hcontra.
Qed.

End Hud.

(** ** Energy prices: [lib/api/eia.ts] *)

Module Eia.
Import Store ApiCache.

(** The fields of [EnergyPrices] that [getEnergyPricesByState] fills. *)
Record EnergyPrices : Type := {
  stateCode : string;
  stateName : string;
  year : Z;
  month : Z;
  electricityPrice : option Q;
  naturalGasPrice : option Q;
  gasolinePrice : option Q;
  electricityNationalAvg : Q;
  naturalGasNationalAvg : option Q;
  gasolineNationalAvg : option Q;
  electricityIndex : option Q;
  naturalGasIndex : option Q;
  gasolineIndex : option Q
}.

Definition STATE_NAME_TO_CODE : list (string * string) :=
  [("Alabama", "AL"); ("Alaska", "AK"); ("Arizona", "AZ"); ("Arkansas", "AR");
   ("California", "CA"); ("Colorado", "CO"); ("Connecticut", "CT"); ("Delaware", "DE");
   ("District of Columbia", "DC"); ("Florida", "FL"); ("Georgia", "GA"); ("Hawaii", "HI");
   ("Idaho", "ID"); ("Illinois", "IL"); ("Indiana", "IN"); ("Iowa", "IA");
   ("Kansas", "KS"); ("Kentucky", "KY"); ("Louisiana", "LA"); ("Maine", "ME");
   ("Maryland", "MD"); ("Massachusetts", "MA"); ("Michigan", "MI"); ("Minnesota", "MN");
   ("Mississippi", "MS"); ("Missouri", "MO"); ("Montana", "MT"); ("Nebraska", "NE");
   ("Nevada", "NV"); ("New Hampshire", "NH"); ("New Jersey", "NJ"); ("New Mexico", "NM");
   ("New York", "NY"); ("North Carolina", "NC"); ("North Dakota", "ND"); ("Ohio", "OH");
   ("Oklahoma", "OK"); ("Oregon", "OR"); ("Pennsylvania", "PA"); ("Rhode Island", "RI");
   ("South Carolina", "SC"); ("South Dakota", "SD"); ("Tennessee", "TN"); ("Texas", "TX");
   ("Utah", "UT"); ("Vermont", "VT"); ("Virginia", "VA"); ("Washington", "WA");
   ("West Virginia", "WV"); ("Wisconsin", "WI"); ("Wyoming", "WY")].

Definition STATE_CODE_TO_NAME : list (string * string) :=
  (λ entry, (entry.2, entry.1)) <$> STATE_NAME_TO_CODE.

(** An entry of the array [Promise.allSettled] resolves to. *)
Inductive Settled (A : Type) : Type :=
| Fulfilled (value : A)
| Rejected (reason : string).
Arguments Fulfilled {A} value.
Arguments Rejected {A} reason.

(** What a series fetcher resolves to: a [Record<string, number>] by state
    code in the envelope of [withCache]. *)
Abbreviation Series := (Fetched (option (gmap string Q))).

(** The settled outcomes of [getElectricityPricesByState],
    [getNaturalGasPricesByState] and [getGasolinePricesByState]. *)
Record SeriesResults : Type := {
  electricity : Settled Series;
  naturalGas : Settled Series;
  gasoline : Settled Series
}.

(** [results[i].status === 'fulfilled' ? results[i].value : null] *)
Definition valueOf (r : Settled Series) : option Series :=
  match r with
  | Fulfilled value => Some value
  | Rejected _ => None
  end.

(** [result?.data] *)
Definition recordOf (result : option Series) : option (gmap string Q) :=
  result ≫= fetched_data.

(** [result?.data?.[upperState]] *)
Definition priceOf (result : option Series) (upperState : string) : option Q :=
  recordOf result ≫= (λ record, record !! upperState).

(** The sum and the count taken over [Object.values(record)]. *)
Definition totals (record : option (gmap string Q)) : Q * nat :=
  match record with
  | None => (0%Q, 0%nat)
  | Some prices =>
      map_fold (λ _ price acc, ((acc.1 + price)%Q, S acc.2)) (0%Q, 0%nat) prices
  end.

Definition mean (t : Q * nat) : Q := (t.1 / inject_Z (Z.of_nat t.2))%Q.

Definition truthy (x : Q) : bool := negb (Qeq_bool x 0).

Definition positive (x : Q) : bool := negb (Qle_bool x 0).

(** [/^[A-Z]{2}$/.test(s)] *)
Definition isStateCode (s : string) : bool :=
  match s with
  | String a (String b EmptyString) => Text.isUpper a && Text.isUpper b
  | _ => false
  end.

(** The closure handed to [withCache]. *)
Definition settleEnergy (upperState : string) (year month : Z) (results : SeriesResults)
    : option EnergyPrices :=
  let electricityResult := valueOf (electricity results) in
  let gasResult := valueOf (naturalGas results) in
  let gasolineResult := valueOf (gasoline results) in
  let electricityPrice := priceOf electricityResult upperState in
  let naturalGasPrice := priceOf gasResult upperState in
  let gasolinePrice := priceOf gasolineResult upperState in
  match electricityPrice, gasolinePrice with
  | None, None => None
  | _, _ =>
      let electricityTotals := totals (recordOf electricityResult) in
      let gasTotals := totals (recordOf gasResult) in
      let gasolineTotals := totals (recordOf gasolineResult) in
      let electricityNationalAvg :=
        if (0 <? electricityTotals.2)%nat then mean electricityTotals else 0%Q in
      let naturalGasNationalAvg :=
        if (0 <? gasTotals.2)%nat then Some (mean gasTotals) else None in
      let gasolineNationalAvg :=
        if (0 <? gasolineTotals.2)%nat then Some (mean gasolineTotals) else None in
      let index (price avg : option Q) : option Q :=
        match price, avg with
        | Some p, Some a =>
            if truthy p && truthy a && positive a then Some (p / a * 100)%Q else None
        | _, _ => None
        end in
      Some {| stateCode := upperState;
              stateName := Text.orElse (Bea.mapGet upperState STATE_CODE_TO_NAME) upperState;
              year := year;
              month := month;
              electricityPrice := electricityPrice;
              naturalGasPrice := naturalGasPrice;
              gasolinePrice := gasolinePrice;
              electricityNationalAvg := electricityNationalAvg;
              naturalGasNationalAvg := naturalGasNationalAvg;
              gasolineNationalAvg := gasolineNationalAvg;
              electricityIndex :=
                match electricityPrice with
                | Some p =>
                    if positive electricityNationalAvg
                    then Some (p / electricityNationalAvg * 100)%Q else None
                | None => None
                end;
              naturalGasIndex := index naturalGasPrice naturalGasNationalAvg;
              gasolineIndex := index gasolinePrice gasolineNationalAvg |}
  end.

Section Fetcher.

Variable DEFAULT_CACHE_TTL : APISource → Z.

(** [JSON.stringify({ stateCode }, ["stateCode"])] *)
Variable stringifyState : string → string.

(** [year] and [month] are read from [new Date()] inside the closure. *)
Definition getEnergyPricesByState (stateCode : string) (b : Backend EnergyPrices)
    (results : SeriesResults) (year month : Z) (clock : Clock)
    : result (Fetched (option EnergyPrices)) * Backend EnergyPrices * SeriesResults :=
  let upperState := Text.toUpperCase stateCode in
  if isStateCode upperState then
    let cacheKey := generateCacheKey EIA "energy-state" (stringifyState upperState) in
    withCache DEFAULT_CACHE_TTL b cacheKey
      {| source := EIA; ttlSeconds := Some (86400 * 7) |}
      (λ settled, (Ok (settleEnergy upperState year month settled), settled))
      clock results
  else
    (Throw "INVALID_PARAMS: Invalid state code. Must be 2 letter abbreviation.", b, results).

End Fetcher.

(** A series that failed, or that has no value for the state. *)
Definition unavailable (r : Settled Series) (upperState : string) : Prop :=
  match r with
  | Rejected _ => True
  | Fulfilled value =>
      match fetched_data value with
      | None => True
      | Some record => record !! upperState = None
      end
  end.

(** A series that has the value [price] for the state. *)
Definition provides (r : Settled Series) (upperState : string) (price : Q) : Prop :=
  ∃ value record,
    r = Fulfilled value ∧ fetched_data value = Some record ∧
    record !! upperState = Some price.

Lemma priceOf_None r upperState :
  priceOf (valueOf r) upperState = None ↔ unavailable r upperState.
Proof.
  unfold priceOf, recordOf, unavailable.
  destruct r as [value|reason]; simpl; [|done].
  by destruct (fetched_data value).
Qed.

Lemma priceOf_Some r upperState price :
  priceOf (valueOf r) upperState = Some price ↔ provides r upperState price.
Proof.
  unfold priceOf, recordOf, provides. split.
  - destruct r as [value|reason]; simpl; [|done].
    destruct (fetched_data value) as [record|] eqn:Hrec; simpl; [|done].
    intros Hprice. by exists value, record.
  - intros (value & record & -> & Hrec & Hprice). simpl. by rewrite Hrec.
Qed.

Lemma settleEnergy_prices upperState year month results e :
  settleEnergy upperState year month results = Some e →
  electricityPrice e = priceOf (valueOf (electricity results)) upperState ∧
  naturalGasPrice e = priceOf (valueOf (naturalGas results)) upperState ∧
  gasolinePrice e = priceOf (valueOf (gasoline results)) upperState.
Proof.
  unfold settleEnergy.
  destruct (priceOf (valueOf (electricity results)) upperState);
    destruct (priceOf (valueOf (gasoline results)) upperState);
    intros [= <-]; done.
Qed.

Lemma settleEnergy_None upperState year month results :
  settleEnergy upperState year month results = None ↔
  priceOf (valueOf (electricity results)) upperState = None ∧
  priceOf (valueOf (gasoline results)) upperState = None.
Proof.
  unfold settleEnergy.
  destruct (priceOf (valueOf (electricity results)) upperState);
    destruct (priceOf (valueOf (gasoline results)) upperState); split; try done;
    intros [? ?]; done.
Qed.

(** C8: a request for a valid state code that misses the cache settles
    the three series independently. The result is null exactly when both
    the electricity and the gasoline value of the state are unavailable;
    otherwise each price field is the value of its series, and undefined
    when that series failed or lacks the state. With electricity and
    gasoline present and natural gas missing, the result is non-null with
    [naturalGasPrice] undefined. *)
Theorem energy_series_settle_independently (TTL : APISource → Z)
    (stringifyState : string → string) (stateCode : string)
    (b : Backend EnergyPrices) (results : SeriesResults) (year month : Z) (clock : Clock) :
  let upperState := Text.toUpperCase stateCode in
  isStateCode upperState = true →
  getCachedData (selectSingle b) EIA
    (generateCacheKey EIA "energy-state" (stringifyState upperState))
    (queryNow clock) (ageNow clock) = Ok None →
  ∃ data b',
    getEnergyPricesByState TTL stringifyState stateCode b results year month clock =
      (Ok {| fetched_data := data; cached := false; cacheAge := None |}, b', results) ∧
    (data = None ↔
       unavailable (electricity results) upperState ∧
       unavailable (gasoline results) upperState) ∧
    (∀ e, data = Some e →
       (unavailable (electricity results) upperState → electricityPrice e = None) ∧
       (unavailable (naturalGas results) upperState → naturalGasPrice e = None) ∧
       (unavailable (gasoline results) upperState → gasolinePrice e = None) ∧
       (∀ p, provides (electricity results) upperState p → electricityPrice e = Some p) ∧
       (∀ p, provides (naturalGas results) upperState p → naturalGasPrice e = Some p) ∧
       (∀ p, provides (gasoline results) upperState p → gasolinePrice e = Some p)) ∧
    (∀ p q,
       provides (electricity results) upperState p →
       provides (gasoline results) upperState q →
       unavailable (naturalGas results) upperState →
       ∃ e, data = Some e ∧ naturalGasPrice e = None ∧
            electricityPrice e = Some p ∧ gasolinePrice e = Some q).
Proof.
  intros upperState Hvalid Hmiss.
  unfold getEnergyPricesByState, withCache. fold upperState. rewrite Hvalid.
  simpl. rewrite Hmiss.
  eexists _, _. split; [reflexivity|].
  split; [|split].
  - rewrite settleEnergy_None. by rewrite !priceOf_None.
  - intros e He. apply settleEnergy_prices in He as (-> & -> & ->).
    rewrite <- !priceOf_None.
    repeat split; try done; intros p Hp; by apply priceOf_Some.
  - intros p q Hp Hq Hgas.
    apply priceOf_Some in Hp, Hq. apply priceOf_None in Hgas.
    destruct (settleEnergy upperState year month results) as [e|] eqn:He.
    + exists e. apply settleEnergy_prices in He as (-> & -> & ->). done.
    + apply settleEnergy_None in He as [He _]. congruence.
Qed.

Definition seriesOf (prices : list (string * Q)) : Settled Series :=
  Fulfilled {| fetched_data := Some (list_to_map prices); cached := false; cacheAge := None |}.

(** Texas with electricity and gasoline data, natural gas rejected. *)
Definition texasResults : SeriesResults :=
  {| electricity := seriesOf [("TX", 14 # 1); ("CA", 30 # 1)];
     naturalGas := Rejected "EIA API returned 500";
     gasoline := seriesOf [("TX", 3 # 1); ("CA", 5 # 1)] |}.

Lemma energy_series_settle_independently_witness :
  ∃ e b',
    getEnergyPricesByState (λ _, 3600) (λ s, s) "tx" {| rows := ∅; status := Up |}
      texasResults 2026 11
      {| queryNow := 1000; ageNow := 1001; expiryNow := 1002; createdNow := 1003 |} =
      (Ok {| fetched_data := Some e; cached := false; cacheAge := None |}, b', texasResults) ∧
    naturalGasPrice e = None ∧
    electricityPrice e = Some (14 # 1) ∧
    gasolinePrice e = Some (3 # 1).
Proof.
  destruct (energy_series_settle_independently (λ _, 3600) (λ s, s) "tx"
              {| rows := ∅; status := Up |} texasResults 2026 11
              {| queryNow := 1000; ageNow := 1001; expiryNow := 1002; createdNow := 1003 |})
    as (data & b' & Hrun & _ & _ & Hexample).
  - reflexivity.
  - reflexivity.
  - destruct (Hexample (14 # 1) (3 # 1)) as (e & -> & Hgas & Hel & Hgl).
    + eexists _, _. split; [reflexivity|]. split; [reflexivity|]. reflexivity.
    + eexists _, _. split; [reflexivity|]. split; [reflexivity|]. reflexivity.
    + exact I.
    + exists e, b'. done.
Defined.

End Eia.

(** ** Fair market rents: [src/lib/api/hud.ts] *)

Module HudRent.
Import Store Hud.

(** The attributes of a feature of the HUD service. A rent of [None] is a
    missing or non-numeric field. *)
Record FMRAttributes : Type := {
  FMR_AREANAME : option string;
  FMR_CODE : string;
  FMR_0BDR : option Q;
  FMR_1BDR : option Q;
  FMR_2BDR : option Q;
  FMR_3BDR : option Q;
  FMR_4BDR : option Q
}.

Record HUDFairMarketRent : Type := {
  fmr_zipCode : string;
  fmr_countyName : string;
  fmr_stateName : string;
  fmr_stateCode : string;
  fmr_metroName : string;
  fmr_metroCode : string;
  fmr_year : Z;
  fmr_areaName : string;
  efficiency : Q;
  oneBedroom : Q;
  twoBedroom : Q;
  threeBedroom : Q;
  fourBedroom : Q;
  isSmallAreaFMR : bool
}.

Record HudResponse : Type := {
  hud_ok : bool;
  features : option (list FMRAttributes)
}.

(** What a rent lookup can reach: the cache, the crosswalk table and the
    HUD service (which answers a CBSA code, or fails to answer). *)
Record Env : Type := {
  cache : Client HUDFairMarketRent;
  crosswalk : CrosswalkClient;
  hudApi : string → result HudResponse
}.

(** [/^\d{5}$/.test(zipCode)] *)
Definition validateZipCode (zipCode : string) : bool :=
  (String.length zipCode =? 5)%nat && Text.allChars Text.isDigit zipCode.

(** [x || 0] on a rent. *)
Definition rentOrZero (x : option Q) : Q := default 0%Q x.

Definition fetchFMRByCBSA (env : Env) (cbsaCode : string) : result (option FMRAttributes) :=
  try_catch
    (response ← hudApi env cbsaCode;
     if hud_ok response then
       match features response with
       | None | Some [] => Ok None
       | Some (feature :: _) => Ok (Some feature)
       end
     else Throw "HUD API returned a non-2xx status")
    (λ error,
       if String.eqb error "AbortError" then Throw "HUD API request timeout"
       else Throw error).

(** The second component lists the entries written to the cache. *)
Definition fetchFairMarketRents (env : Env) (zipCode : string) (now : Z)
    : result (option HUDFairMarketRent) * list (string * HUDFairMarketRent) :=
  if validateZipCode zipCode then
    let cacheKey := "zip:" +:+ zipCode in
    match LibCache.getCachedData (cache env) HUD cacheKey now with
    | Throw error => (Throw error, [])
    | Ok (Some cached) => (Ok (Some cached), [])
    | Ok None =>
        match getMetroCodeForZip (crosswalk env) zipCode with
        | Throw error => (Throw error, [])
        | Ok None =>
            (Throw ("ZIP code " +:+ zipCode +:+ " not found in our database. " +:+
                    "This may be a very new ZIP code or a special-use code. " +:+
                    "Try a nearby ZIP code or contact support."), [])
        | Ok (Some crosswalk) =>
            match fetchFMRByCBSA env (cbsaCode crosswalk) with
            | Throw error => (Throw error, [])
            | Ok None =>
                (Throw ("No Fair Market Rent data available for " +:+ cityName crosswalk +:+
                        ". This metro area may not be covered by HUD's FMR program."), [])
            | Ok (Some attrs) =>
                let areaParts := Text.split Text.comma <$> FMR_AREANAME attrs in
                let fmrData :=
                  {| fmr_zipCode := zipCode;
                     fmr_countyName :=
                       Text.orElse (areaParts ≫= (λ parts, parts !! 0%nat)) (cityName crosswalk);
                     fmr_stateName :=
                       Text.orElse (Text.trim <$> (areaParts ≫= (λ parts, parts !! 1%nat)))
                         (stateCode crosswalk);
                     fmr_stateCode := stateCode crosswalk;
                     fmr_metroName := Text.orElse (FMR_AREANAME attrs) (cbsaName crosswalk);
                     fmr_metroCode := FMR_CODE attrs;
                     fmr_year := 2024;
                     fmr_areaName := Text.orElse (FMR_AREANAME attrs) (cbsaName crosswalk);
                     efficiency := rentOrZero (FMR_0BDR attrs);
                     oneBedroom := rentOrZero (FMR_1BDR attrs);
                     twoBedroom := rentOrZero (FMR_2BDR attrs);
                     threeBedroom := rentOrZero (FMR_3BDR attrs);
                     fourBedroom := rentOrZero (FMR_4BDR attrs);
                     isSmallAreaFMR := false |} in
                (Ok (Some fmrData), [(cacheKey, fmrData)])
            end
        end
    end
  else
    (Throw ("Invalid ZIP code format: " +:+ zipCode +:+ ". ZIP codes must be 5 digits."), []).

(** An element of the list [fetchMultipleFairMarketRents] resolves to. *)
Record BatchItem : Type := {
  item_zipCode : string;
  item_data : option HUDFairMarketRent;
  item_error : option string
}.

(** The body of the [async (zip) => ...] mapped over the batch. *)
Definition settleLookup (env : Env) (now : Z) (zip : string) : BatchItem :=
  match (fetchFairMarketRents env zip now).1 with
  | Ok data => {| item_zipCode := zip; item_data := data; item_error := None |}
  | Throw message =>
      {| item_zipCode := zip; item_data := None; item_error := Some message |}
  end.

(** Every lookup starts before any of them resumes, so each one reads the
    cache as the batch found it. *)
Definition fetchMultipleFairMarketRents (env : Env) (zipCodes : list string) (now : Z)
    : list BatchItem * list (string * HUDFairMarketRent) :=
  (settleLookup env now <$> zipCodes,
   zipCodes ≫= (λ zip, (fetchFairMarketRents env zip now).2)).

Definition getMetroInfoForZip (env : Env) (zipCode : string)
    : result (option CBSACrosswalkResult) :=
  if validateZipCode zipCode then getMetroCodeForZip (crosswalk env) zipCode
  else Throw ("Invalid ZIP code format: " +:+ zipCode).

Lemma fetchFairMarketRents_not_null env zipCode now :
  (fetchFairMarketRents env zipCode now).1 ≠ Ok None.
Proof.
  unfold fetchFairMarketRents.
  destruct (validateZipCode zipCode); [|done].
  destruct (LibCache.getCachedData _ _ _ _) as [[cached|]|]; try done.
  destruct (getMetroCodeForZip _ _) as [[cw|]|]; try done.
  destruct (fetchFMRByCBSA _ _) as [[attrs|]|]; done.
Qed.

(** Each element carries its ZIP code and either data or an error message,
    after the outcome of that ZIP's own lookup. *)
Lemma settleLookup_shape env now zip :
  item_zipCode (settleLookup env now zip) = zip ∧
  ((∃ data,
      (fetchFairMarketRents env zip now).1 = Ok (Some data) ∧
      item_data (settleLookup env now zip) = Some data ∧
      item_error (settleLookup env now zip) = None) ∨
   (∃ message,
      (fetchFairMarketRents env zip now).1 = Throw message ∧
      item_data (settleLookup env now zip) = None ∧
      item_error (settleLookup env now zip) = Some message)).
Proof.
  unfold settleLookup.
  pose proof (fetchFairMarketRents_not_null env zip now) as Hnot.
  destruct (fetchFairMarketRents env zip now).1 as [[data|]|message]; simpl.
  - split; [done|]. left. by exists data.
  - done.
  - split; [done|]. right. by exists message.
Qed.

Lemma malformed_zip_is_item_error env now zip :
  validateZipCode zip = false →
  item_data (settleLookup env now zip) = None ∧
  is_Some (item_error (settleLookup env now zip)).
Proof.
  intros Hbad. unfold settleLookup, fetchFairMarketRents. rewrite Hbad. simpl.
  split; [done|]. by eexists.
Qed.

End HudRent.

(** ** The rent endpoint: [app/api/hud/route.ts] *)

Module HudRoute.
Import Store Hud HudRent.

Inductive Body : Type :=
| ErrorBody (code message : string)
| StateBody (data : list HUDFairMarketRent) (count : nat) (state : string)
| MetroBody (zipCode : string) (metro : CBSACrosswalkResult)
| ZipBody (data : HUDFairMarketRent) (nearbyMetros : option (list CBSACrosswalkResult))
| BatchBody (data : list HUDFairMarketRent) (requested successful failed : nat)
    (errors : option (list (string * option string))).

Record Response : Type := {
  status : Z;
  success : bool;
  body : Body
}.

Definition failure (status : Z) (code message : string) : Response :=
  {| status := status; success := false; body := ErrorBody code message |}.

Definition succeed (body : Body) : Response :=
  {| status := 200; success := true; body := body |}.

(** The query string of a request. *)
Record Params : Type := {
  zip : option string;
  state : option string;
  metroOnly : bool;
  includeNearby : bool
}.

(** A parameter that is present and not empty. *)
Definition given (param : option string) : option string :=
  match param with
  | Some (String c rest) => Some (String c rest)
  | _ => None
  end.

(** [/^[A-Z]{2}$/i.test(s)] *)
Definition isStateParam (s : string) : bool :=
  match s with
  | String a (String b EmptyString) => Text.isLetter a && Text.isLetter b
  | _ => false
  end.

(** The ZIP codes for which [fetchFairMarketRents] was started. *)
Abbreviation Lookups := (list string).

(** The branch for one ZIP code, inside its own [try]. *)
Definition singleZip (env : Env) (params : Params) (zip : string) (now : Z)
    : Response * Lookups :=
  if metroOnly params then
    match getMetroInfoForZip env zip with
    | Throw message => (failure 500 "FETCH_ERROR" message, [])
    | Ok None =>
        (failure 404 "ZIP_NOT_FOUND" ("ZIP code " +:+ zip +:+ " not found in our database."), [])
    | Ok (Some metroInfo) => (succeed (MetroBody zip metroInfo), [])
    end
  else
    match (fetchFairMarketRents env zip now).1 with
    | Throw message => (failure 500 "FETCH_ERROR" message, [zip])
    | Ok None =>
        (failure 404 "NOT_FOUND" ("No Fair Market Rent data found for ZIP code: " +:+ zip),
         [zip])
    | Ok (Some data) =>
        if includeNearby params then
          match getNearbyMetros (crosswalk env) zip (Some 5%nat) with
          | Throw message => (failure 500 "FETCH_ERROR" message, [zip])
          | Ok nearby => (succeed (ZipBody data (Some nearby)), [zip])
          end
        else (succeed (ZipBody data None), [zip])
    end.

(** [byState] stands for [fetchFairMarketRentsByState]. *)
Definition GET (env : Env) (byState : string → result (list HUDFairMarketRent))
    (params : Params) (now : Z) : Response * Lookups :=
  match given (zip params), given (state params) with
  | None, None =>
      (failure 400 "MISSING_PARAMETER"
         "Please provide either a ZIP code (?zip=90210) or state code (?state=CA)", [])
  | _, Some stateParam =>
      if isStateParam stateParam then
        match byState stateParam with
        | Throw message => (failure 500 "INTERNAL_ERROR" message, [])
        | Ok data =>
            (succeed (StateBody data (length data) (Text.toUpperCase stateParam)), [])
        end
      else
        (failure 400 "INVALID_STATE" "State code must be 2 letters (e.g., CA, TX, NY)", [])
  | Some zipParam, None =>
      let zipCodes := Text.trim <$> Text.split Text.comma zipParam in
      let invalidZips := filter (λ zip, validateZipCode zip = false) zipCodes in
      if bool_decide (0 < length invalidZips)%nat then
        (failure 400 "INVALID_ZIP"
           ("Invalid ZIP code(s): " +:+ String.concat ", " invalidZips +:+
            ". ZIP codes must be 5 digits."), [])
      else
        if bool_decide (length zipCodes = 1)%nat then
          singleZip env params (default "" (zipCodes !! 0%nat)) now
        else if bool_decide (20 < length zipCodes)%nat then
          (failure 400 "TOO_MANY_ZIPS"
             "Maximum 20 ZIP codes per request. For larger datasets, use our bulk API.",
           [])
        else
          let results := (fetchMultipleFairMarketRents env zipCodes now).1 in
          let successful := filter (λ r, item_data r ≠ None) results in
          let failed := filter (λ r, item_data r = None) results in
          (succeed
             (BatchBody (omap item_data successful)
                (length zipCodes) (length successful) (length failed)
                (if bool_decide (0 < length failed)%nat
                 then Some ((λ f, (item_zipCode f, item_error f)) <$> failed)
                 else None)),
           zipCodes)
  end.

Lemma filter_split_length {A} (P : A → Prop) `{∀ x, Decision (P x)} (l : list A) :
  (length (filter P l) + length (filter (λ x, ¬ P x) l) = length l)%nat.
Proof.
  induction l as [|x l IH]; [done|].
  rewrite !filter_cons. destruct (decide (P x)), (decide (¬ P x)); simpl; try done; lia.
Qed.

Lemma omap_data_length (items : list BatchItem) :
  Forall (λ r, item_data r ≠ None) items →
  length (omap item_data items) = length items.
Proof.
  induction 1 as [|r items Hr _ IH]; [done|].
  cbn [omap list_omap]. destruct (item_data r); [|done]. simpl. f_equal. exact IH.
Qed.

(** The response to a batch of ZIP codes (no [state] parameter). *)
Definition batchOutcome (env : Env) (zipCodes : list string) (now : Z)
    (response : Response) (lookups : Lookups) : Prop :=
  let items := (fetchMultipleFairMarketRents env zipCodes now).1 in
  (* one element per ZIP, in order, each with data or with an error *)
  (length items = length zipCodes ∧
   ∀ i zip, zipCodes !! i = Some zip →
     ∃ item,
       items !! i = Some item ∧ item_zipCode item = zip ∧
       ((∃ data,
           (fetchFairMarketRents env zip now).1 = Ok (Some data) ∧
           item_data item = Some data ∧ item_error item = None) ∨
        (∃ message,
           (fetchFairMarketRents env zip now).1 = Throw message ∧
           item_data item = None ∧ item_error item = Some message))) ∧
  (* a batch of two to twenty well-formed ZIP codes succeeds, whatever
     the single lookups do *)
  ((2 ≤ length zipCodes ≤ 20)%nat →
   Forall (λ zip, validateZipCode zip = true) zipCodes →
   status response = 200 ∧ success response = true ∧ lookups = zipCodes ∧
   ∃ data successful failed errors,
     body response = BatchBody data (length zipCodes) successful failed errors ∧
     length data = successful ∧
     (successful + failed = length zipCodes)%nat ∧
     (errors = None ↔ failed = 0%nat)) ∧
  (* more than twenty: rejected before any lookup *)
  ((20 < length zipCodes)%nat →
   status response = 400 ∧ success response = false ∧ lookups = [] ∧
   (Forall (λ zip, validateZipCode zip = true) zipCodes →
    ∃ message, body response = ErrorBody "TOO_MANY_ZIPS" message)) ∧
  (* a malformed ZIP code: the whole request is rejected before any lookup *)
  (¬ Forall (λ zip, validateZipCode zip = true) zipCodes →
   status response = 400 ∧ success response = false ∧ lookups = [] ∧
   ∃ message, body response = ErrorBody "INVALID_ZIP" message).

Lemma invalidZips_empty (zipCodes : list string) :
  Forall (λ zip, validateZipCode zip = true) zipCodes ↔
  filter (λ zip, validateZipCode zip = false) zipCodes = [].
Proof.
  induction zipCodes as [|zip zipCodes IH]; [done|].
  rewrite filter_cons, Forall_cons.
  destruct (validateZipCode zip) eqn:Hzip; simpl.
  - rewrite <- IH. split; [by intros [_ ?] | by intros ?].
  - split; [by intros [? _] | by intros ?].
Qed.

(** C7 (amended): the batch lookup returns one element per ZIP code, each
    with data or with an error of its own. A request of two to twenty
    well-formed ZIP codes answers [success = true] however many lookups
    fail; a request of more than twenty is rejected with status 400
    before any lookup, and so is, as a whole, a request that contains a
    malformed ZIP code. *)
Theorem batch_rent_lookup (env : Env) (byState : string → result (list HUDFairMarketRent))
    (params : Params) (now : Z) (zipParam : string) :
  given (zip params) = Some zipParam →
  given (state params) = None →
  batchOutcome env (Text.trim <$> Text.split Text.comma zipParam) now
    (GET env byState params now).1 (GET env byState params now).2.
Proof.
  intros Hzip Hstate. unfold GET. rewrite Hzip, Hstate.
  set (zipCodes := Text.trim <$> Text.split Text.comma zipParam).
  unfold batchOutcome.
  split; [|split; [|split]].
  - unfold fetchMultipleFairMarketRents. simpl. split; [by rewrite length_fmap|].
    intros i zip Hi. exists (settleLookup env now zip).
    split; [by rewrite list_lookup_fmap, Hi|]. apply settleLookup_shape.
  - intros Hlen Hvalid. apply invalidZips_empty in Hvalid. rewrite Hvalid. simpl.
    rewrite (bool_decide_eq_false_2 (length zipCodes = 1)%nat) by lia.
    rewrite (bool_decide_eq_false_2 (20 < length zipCodes)%nat) by lia.
    simpl. repeat split.
    eexists _, _, _, _. split; [reflexivity|].
    set (results := settleLookup env now <$> zipCodes).
    split; [|split].
    + apply omap_data_length. apply Forall_forall. intros r Hr.
      by apply list_elem_of_filter in Hr as [? _].
    + rewrite <- (length_fmap (settleLookup env now) zipCodes). fold results.
      rewrite <- (filter_split_length (λ r, item_data r ≠ None) results).
      f_equal. f_equal. apply list_filter_iff. intros r. split.
      * intros ->. by intros ?.
      * intros Hnn. by destruct (item_data r); [exfalso; apply Hnn|].
    + case_bool_decide as Hfailed; split; try done; intros; lia.
  - intros Hlen.
    destruct (decide (Forall (λ zip, validateZipCode zip = true) zipCodes)) as [Hvalid|Hbad].
    + apply invalidZips_empty in Hvalid as Hnone. rewrite Hnone. simpl.
      rewrite (bool_decide_eq_false_2 (length zipCodes = 1)%nat) by lia.
      rewrite (bool_decide_eq_true_2 (20 < length zipCodes)%nat) by lia.
      simpl. repeat split. intros _. by eexists.
    + rewrite invalidZips_empty in Hbad.
      destruct (filter _ zipCodes) as [|bad others] eqn:Hbads; [done|].
      simpl. repeat split. intros Hvalid. apply invalidZips_empty in Hvalid. congruence.
  - intros Hbad. rewrite invalidZips_empty in Hbad.
    destruct (filter _ zipCodes) as [|bad others] eqn:Hbads; [done|].
    simpl. repeat split. by eexists.
Qed.

(** A cold cache, the table of [Hud.beverlyHills], and a HUD service that
    knows every metro. *)
Definition quietEnv : Env :=
  {| cache := λ _, Ok {| data := None; error := Some PGRST116 |};
     crosswalk := crosswalkSelect beverlyHills;
     hudApi := λ cbsaCode,
       Ok {| hud_ok := true;
             features := Some [ {| FMR_AREANAME := Some "Los Angeles-Long Beach, CA";
                                   FMR_CODE := "METRO" +:+ cbsaCode;
                                   FMR_0BDR := Some 1500%Q; FMR_1BDR := Some 1700%Q;
                                   FMR_2BDR := Some 2200%Q; FMR_3BDR := Some 2900%Q;
                                   FMR_4BDR := None |} ] |} |}.

Definition batchOf (zipParam : string) : Params :=
  {| zip := Some zipParam; state := None; metroOnly := false; includeNearby := false |}.

(** Two known ZIP codes and one that is in no table: the batch succeeds
    with two items of data and one error. *)
Lemma batch_rent_lookup_witness :
  ∃ data errors,
    (GET quietEnv (λ _, Ok []) (batchOf "90210, 10001,99999") 0).1 =
      succeed (BatchBody data 3 2 1 (Some errors)) ∧
    (GET quietEnv (λ _, Ok []) (batchOf "90210, 10001,99999") 0).2 =
      ["90210"; "10001"; "99999"].
Proof.
  pose proof (batch_rent_lookup quietEnv (λ _, Ok []) (batchOf "90210, 10001,99999") 0
                "90210, 10001,99999" eq_refl eq_refl) as (_ & Hok & _).
  destruct Hok as (_ & _ & Hlookups & _).
  - vm_compute. lia.
  - repeat constructor.
  - eexists _, _. split; [|exact Hlookups]. vm_compute. reflexivity.
Defined.

(** C7 as stated fails: with one malformed ZIP code among three, the
    request is rejected as a whole ([success = false], no lookup), although
    the batch function itself would have reported that ZIP as one failed
    item. *)
Lemma batch_rent_lookup_counterexample :
  let out := GET quietEnv (λ _, Ok []) (batchOf "90210,1234,10001") 0 in
  success out.1 = false ∧
  status out.1 = 400 ∧
  (∃ message, body out.1 = ErrorBody "INVALID_ZIP" message) ∧
  out.2 = [] ∧
  (λ item, (item_zipCode item, bool_decide (item_data item = None))) <$>
    (fetchMultipleFairMarketRents quietEnv ["90210"; "1234"; "10001"] 0).1 =
    [("90210", false); ("1234", true); ("10001", false)].
Proof.
  split; [reflexivity|]. split; [reflexivity|].
  split; [by eexists|]. split; [reflexivity|].
  vm_compute. reflexivity.
Qed.

End HudRoute.

(** ** More of the rate limiter: headers, client identifiers, interleaved
    clients *)

Module RateLimitMore.
Import RateLimit.

(** [RATE_LIMITS] *)
Definition standard : RateLimitConfig := {| windowMs := 60000; maxRequests := 100 |}.
Definition heavy : RateLimitConfig := {| windowMs := 60000; maxRequests := 30 |}.
Definition search : RateLimitConfig := {| windowMs := 60000; maxRequests := 60 |}.

(** A [Headers] object; [String(n)] is the decimal text of [n]. *)
Definition createRateLimitHeaders (r : RateLimitResult) : gmap string string :=
  let headers :=
    <["X-RateLimit-Reset" := pretty (ceil_div (resultResetTime r) 1000)]>
      (<["X-RateLimit-Remaining" := pretty (remaining r)]> ∅) in
  match retryAfter r with
  | Some secs =>
      if negb (allowed r) && negb (secs =? 0)
      then <["Retry-After" := pretty secs]> headers
      else headers
  | None => headers
  end.

(** [request.headers.get(name)] is [headers name]. *)
Definition getClientIdentifier (headers : string → option string) : string :=
  match headers "x-forwarded-for" with
  | Some (String c rest) =>
      Text.trim (default "" (Text.split Text.comma (String c rest) !! 0%nat))
  | _ =>
      match headers "x-real-ip" with
      | Some (String c rest) => String c rest
      | _ => "unknown"
      end
  end.

(** Calls of several clients, one after the other. *)
Fixpoint checkAll (calls : list (string * Z)) (config : RateLimitConfig)
    (store : Store) : list (string * RateLimitResult) * Store :=
  match calls with
  | [] => ([], store)
  | (identifier, now) :: rest =>
      let '(r, store1) := checkRateLimit now identifier config store in
      let '(rs, store2) := checkAll rest config store1 in
      ((identifier, r) :: rs, store2)
  end.

(** The results one client saw, and the instants of that client's calls. *)
Definition resultsOf (identifier : string) (rs : list (string * RateLimitResult))
    : list RateLimitResult :=
  snd <$> filter (λ ir, ir.1 = identifier) rs.

Definition timesOf (identifier : string) (calls : list (string * Z)) : list Z :=
  snd <$> filter (λ call, call.1 = identifier) calls.

(** *** One call looks at one bucket only *)

Lemma check_depends_on_bucket now identifier config (store1 store2 : Store) :
  store1 !! identifier = store2 !! identifier →
  (checkRateLimit now identifier config store1).1 =
    (checkRateLimit now identifier config store2).1 ∧
  (checkRateLimit now identifier config store1).2 !! identifier =
    (checkRateLimit now identifier config store2).2 !! identifier.
Proof.
  intros Heq. unfold checkRateLimit, freshWindow. rewrite Heq.
  destruct (store2 !! identifier) as [entry|] eqn:Hentry; simpl.
  - destruct (resetTime entry <? now); simpl;
      [by rewrite !lookup_insert_eq|].
    destruct (maxRequests config <=? count entry); simpl;
      [by rewrite Heq, Hentry | by rewrite !lookup_insert_eq].
  - by rewrite !lookup_insert_eq.
Qed.

Lemma check_other_bucket now identifier other config (store : Store) :
  other ≠ identifier →
  (checkRateLimit now identifier config store).2 !! other = store !! other.
Proof.
  intros Hne. unfold checkRateLimit, freshWindow.
  destruct (store !! identifier) as [entry|]; simpl;
    [|by rewrite lookup_insert_ne].
  destruct (resetTime entry <? now); simpl; [by rewrite lookup_insert_ne|].
  destruct (maxRequests config <=? count entry); simpl;
    [done | by rewrite lookup_insert_ne].
Qed.

Lemma checkMany_depends_on_bucket times identifier config (store1 store2 : Store) :
  store1 !! identifier = store2 !! identifier →
  (checkMany times identifier config store1).1 =
    (checkMany times identifier config store2).1.
Proof.
  revert store1 store2.
  induction times as [|now times IH]; intros store1 store2 Heq; [done|].
  simpl.
  destruct (check_depends_on_bucket now identifier config store1 store2 Heq) as [Hr Hs].
  destruct (checkRateLimit now identifier config store1) as [r1 s1].
  destruct (checkRateLimit now identifier config store2) as [r2 s2].
  simpl in Hr, Hs. subst r2.
  specialize (IH s1 s2 Hs).
  destruct (checkMany times identifier config s1) as [rs1 s1'].
  destruct (checkMany times identifier config s2) as [rs2 s2'].
  simpl in IH. by subst rs2.
Qed.

(** X1: what a client is answered depends on that client's own calls
    only: among interleaved calls of many clients, the results of one
    identifier are those of its calls made alone on the same table. *)
Theorem clients_do_not_interfere (calls : list (string * Z)) (identifier : string)
    (config : RateLimitConfig) (store : Store) :
  resultsOf identifier (checkAll calls config store).1 =
    (checkMany (timesOf identifier calls) identifier config store).1.
Proof.
  revert store. induction calls as [|[other now] calls IH]; intros store; [done|].
  unfold resultsOf, timesOf in *. cbn [checkAll].
  destruct (checkRateLimit now other config store) as [r store1] eqn:Hcheck.
  specialize (IH store1).
  destruct (checkAll calls config store1) as [rs store2].
  cbn [fst] in *. rewrite !filter_cons. cbn [fst].
  destruct (decide (other = identifier)) as [->|Hne].
  - rewrite !fmap_cons. cbn [snd checkMany]. rewrite Hcheck.
    destruct (checkMany _ identifier config store1) as [rs' store'].
    cbn [fst] in *. by rewrite IH.
  - rewrite IH. apply checkMany_depends_on_bucket.
    replace store1 with (checkRateLimit now other config store).2 by by rewrite Hcheck.
    by apply check_other_bucket.
Qed.

(** An elapsed bucket is treated like a missing one. *)
Lemma check_elapsed_as_absent now identifier config (store1 store2 : Store) entry :
  store1 !! identifier = Some entry →
  resetTime entry < now →
  store2 !! identifier = None →
  (checkRateLimit now identifier config store2).1 =
    (checkRateLimit now identifier config store1).1 ∧
  (checkRateLimit now identifier config store2).2 !! identifier =
    (checkRateLimit now identifier config store1).2 !! identifier.
Proof.
  intros Hentry Hold Hnone.
  rewrite (check_fresh now identifier config store1) by (right; eauto).
  rewrite (check_fresh now identifier config store2) by by left.
  unfold freshWindow. simpl. by rewrite !lookup_insert_eq.
Qed.

(** X2: the sweep is invisible: a check made at or after the sweep is
    answered as if the sweep had not run, and the sweep keeps exactly the
    buckets whose window has not elapsed. *)
Theorem sweep_is_invisible (sweepTime now : Z) (identifier : string)
    (config : RateLimitConfig) (store : Store) :
  sweepTime ≤ now →
  (checkRateLimit now identifier config (cleanup sweepTime store)).1 =
    (checkRateLimit now identifier config store).1 ∧
  (checkRateLimit now identifier config (cleanup sweepTime store)).2 !! identifier =
    (checkRateLimit now identifier config store).2 !! identifier ∧
  ∀ other entry,
    cleanup sweepTime store !! other = Some entry ↔
    store !! other = Some entry ∧ sweepTime ≤ resetTime entry.
Proof.
  intros Hle.
  assert (Hkeep : ∀ other entry,
            cleanup sweepTime store !! other = Some entry ↔
            store !! other = Some entry ∧ sweepTime ≤ resetTime entry).
  { intros other entry. unfold cleanup. rewrite map_lookup_filter_Some. simpl.
    split; intros [? ?]; split; try done; lia. }
  apply and_assoc. split; [|exact Hkeep].
  destruct (store !! identifier) as [entry|] eqn:Hentry.
  - destruct (decide (sweepTime ≤ resetTime entry)) as [Hin|Hout].
    + apply check_depends_on_bucket. rewrite Hentry. by apply Hkeep.
    + apply (check_elapsed_as_absent now identifier config store _ entry Hentry); [lia|].
      destruct (cleanup sweepTime store !! identifier) as [entry'|] eqn:Hswept; [|done].
      apply Hkeep in Hswept as [Heq ?]. rewrite Hentry in Heq.
      injection Heq as <-. lia.
  - apply check_depends_on_bucket. rewrite Hentry.
    destruct (cleanup sweepTime store !! identifier) as [entry'|] eqn:Hswept; [|done].
    apply Hkeep in Hswept as [Heq ?]. congruence.
Qed.

Lemma sweep_is_invisible_witness :
  (checkRateLimit 70000 "a" heavy
     (cleanup 65000 (checkRateLimit 1000 "a" heavy ∅).2)).1 =
  (checkRateLimit 70000 "a" heavy (checkRateLimit 1000 "a" heavy ∅).2).1.
Proof.
  apply (sweep_is_invisible 65000 70000 "a" heavy (checkRateLimit 1000 "a" heavy ∅).2).
  lia.
Defined.

Lemma ceil_div_bounds (d : Z) :
  (ceil_div d 1000 - 1) * 1000 < d ≤ ceil_div d 1000 * 1000.
Proof.
  unfold ceil_div.
  pose proof (Z.div_mod (- d) 1000 ltac:(lia)) as Hdm.
  pose proof (Z.mod_pos_bound (- d) 1000 ltac:(lia)) as Hmod.
  lia.
Qed.

Lemma headers_remaining r :
  createRateLimitHeaders r !! "X-RateLimit-Remaining" = Some (pretty (remaining r)).
Proof.
  unfold createRateLimitHeaders.
  destruct (retryAfter r) as [secs|];
    [destruct (negb (allowed r) && negb (secs =? 0))|];
    by simplify_map_eq.
Qed.

Lemma headers_retry_after r :
  createRateLimitHeaders r !! "Retry-After" =
    match retryAfter r with
    | Some secs =>
        if negb (allowed r) && negb (secs =? 0) then Some (pretty secs) else None
    | None => None
    end.
Proof.
  unfold createRateLimitHeaders.
  destruct (retryAfter r) as [secs|];
    [destruct (negb (allowed r) && negb (secs =? 0))|];
    by simplify_map_eq.
Qed.

(** X3: the headers of an answer. An allowed call never carries
    [Retry-After]; a rejected call carries it, with the whole seconds left
    until the reset rounded up, exactly when the reset lies ahead, and not
    when the call falls on the reset instant itself. *)
Theorem retry_after_header (now : Z) (identifier : string) (config : RateLimitConfig)
    (store : Store) :
  let r := (checkRateLimit now identifier config store).1 in
  let headers := createRateLimitHeaders r in
  headers !! "X-RateLimit-Remaining" = Some (pretty (remaining r)) ∧
  (allowed r = true → headers !! "Retry-After" = None) ∧
  (allowed r = false →
   ∃ entry,
     store !! identifier = Some entry ∧ now ≤ resetTime entry ∧
     (now = resetTime entry → headers !! "Retry-After" = None) ∧
     (now < resetTime entry →
      ∃ secs,
        headers !! "Retry-After" = Some (pretty secs) ∧ 1 ≤ secs ∧
        (secs - 1) * 1000 < resetTime entry - now ≤ secs * 1000)).
Proof.
  intros r headers. subst headers.
  split; [apply headers_remaining|].
  rewrite headers_retry_after. subst r.
  unfold checkRateLimit, freshWindow.
  destruct (store !! identifier) as [entry|] eqn:Hentry; [|by cbn].
  destruct (Z.ltb_spec (resetTime entry) now) as [Hold|Hin]; [by cbn|].
  destruct (maxRequests config <=? count entry); [|by cbn].
  cbn [fst allowed retryAfter negb andb].
  split; [done|]. intros _. exists entry. split; [done|]. split; [done|].
  pose proof (ceil_div_bounds (resetTime entry - now)) as Hb.
  split.
  - intros ->. by replace (resetTime entry - resetTime entry) with 0 by lia.
  - intros Hlt. exists (ceil_div (resetTime entry - now) 1000).
    destruct (Z.eqb_spec (ceil_div (resetTime entry - now) 1000) 0) as [H0|Hn0];
      [lia|].
    cbn [negb]. split; [done|]. lia.
Qed.

Lemma checkMany_in_window_allowed times identifier config (store : Store) entry :
  store !! identifier = Some entry →
  Forall (λ t, t ≤ resetTime entry) times →
  count entry + Z.of_nat (length times) ≤ maxRequests config →
  Forall (λ r, allowed r = true) (checkMany times identifier config store).1.
Proof.
  revert store entry.
  induction times as [|t times IH]; intros store entry Hsome Hall Hcount; [constructor|].
  apply Forall_cons in Hall as [Ht Hall]. simpl in Hcount. simpl checkMany.
  rewrite (check_in_window t identifier config store entry Hsome Ht) by lia.
  set (entry' := {| count := count entry + 1; resetTime := resetTime entry |}).
  specialize (IH (<[identifier := entry']> store) entry').
  destruct (checkMany times identifier config _) as [rs store'].
  constructor; [done|]. apply IH.
  - by rewrite lookup_insert_eq.
  - exact Hall.
  - simpl. lia.
Qed.

Lemma checkMany_window_allowed t1 times identifier config (store : Store) :
  (store !! identifier = None ∨
   ∃ entry, store !! identifier = Some entry ∧ resetTime entry < t1) →
  Forall (λ t, t ≤ t1 + windowMs config) times →
  1 + Z.of_nat (length times) ≤ maxRequests config →
  Forall (λ r, allowed r = true) (checkMany (t1 :: times) identifier config store).1.
Proof.
  intros Hfresh Hall Hcount. simpl checkMany.
  rewrite (check_fresh _ _ _ _ Hfresh). unfold freshWindow.
  set (entry := {| count := 1; resetTime := t1 + windowMs config |}).
  pose proof (checkMany_in_window_allowed times identifier config
                (<[identifier := entry]> store) entry) as Hrest.
  destruct (checkMany times identifier config _) as [rs store'].
  constructor; [done|]. apply Hrest.
  - by rewrite lookup_insert_eq.
  - exact Hall.
  - simpl. lia.
Qed.

(** X4: a fixed window lets a burst through at its boundary. With
    [maxRequests = N ≥ 1], [N] calls up to the reset instant and [N] more
    from just after it are all allowed: 2N calls, however close to the
    reset they all are. *)
Theorem boundary_burst (config : RateLimitConfig) (identifier : string) (store : Store)
    (t1 t2 : Z) (early late : list Z) :
  1 ≤ maxRequests config →
  (store !! identifier = None ∨
   ∃ entry, store !! identifier = Some entry ∧ resetTime entry < t1) →
  S (length early) = Z.to_nat (maxRequests config) →
  S (length late) = Z.to_nat (maxRequests config) →
  Forall (λ t, t ≤ t1 + windowMs config) early →
  t1 + windowMs config < t2 →
  Forall (λ t, t ≤ t2 + windowMs config) late →
  let rs := (checkMany ((t1 :: early) ++ t2 :: late) identifier config store).1 in
  Forall (λ r, allowed r = true) rs ∧
  length rs = (2 * Z.to_nat (maxRequests config))%nat.
Proof.
  intros Hmax Hfresh Hearly Hlate Hin1 Hgap Hin2 rs. subst rs.
  rewrite checkMany_app.
  pose proof (checkMany_window_allowed t1 early identifier config store Hfresh Hin1) as H1.
  destruct (checkMany_window_opened t1 early identifier config store Hfresh Hin1)
    as (rs1 & store1 & Hrun1 & Hlen1 & Hfin1 & _); [lia|].
  rewrite Hrun1 in H1 |- *.
  assert (Hfresh2 : store1 !! identifier = None ∨
            ∃ entry, store1 !! identifier = Some entry ∧ resetTime entry < t2).
  { right. eexists. split; [exact Hfin1|]. simpl. lia. }
  pose proof (checkMany_window_allowed t2 late identifier config store1 Hfresh2 Hin2) as H2.
  destruct (checkMany_window_opened t2 late identifier config store1 Hfresh2 Hin2)
    as (rs2 & store2 & Hrun2 & Hlen2 & _); [lia|].
  rewrite Hrun2 in H2 |- *. cbn [fst].
  split.
  - apply Forall_app. split; [apply H1; lia | apply H2; lia].
  - rewrite length_app. lia.
Qed.

(** Two requests per second: four calls within two milliseconds around
    the reset at 1000 are all allowed. *)
Lemma boundary_burst_witness :
  Forall (λ r, allowed r = true)
    (checkMany [999; 1000; 1001; 1001] "client"
       {| windowMs := 1; maxRequests := 2 |} ∅).1.
Proof.
  apply (boundary_burst {| windowMs := 1; maxRequests := 2 |} "client" ∅
           999 1001 [1000] [1001]).
  - simpl. lia.
  - left. apply lookup_empty.
  - reflexivity.
  - reflexivity.
  - repeat constructor. simpl. lia.
  - simpl. lia.
  - repeat constructor. simpl. lia.
Defined.

(** One request per second: a second call half a second later is told
    to retry after one second. *)
Lemma retry_after_header_witness :
  createRateLimitHeaders
    (checkRateLimit 500 "a" {| windowMs := 1000; maxRequests := 1 |}
       (checkRateLimit 0 "a" {| windowMs := 1000; maxRequests := 1 |} ∅).2).1
    !! "Retry-After" = Some "1".
Proof.
  destruct (retry_after_header 500 "a" {| windowMs := 1000; maxRequests := 1 |}
              (checkRateLimit 0 "a" {| windowMs := 1000; maxRequests := 1 |} ∅).2)
    as (_ & _ & Hrejected).
  destruct Hrejected as (entry & Hentry & _ & _ & Hahead); [reflexivity|].
  assert (entry = {| count := 1; resetTime := 1000 |}) as ->.
  { unfold checkRateLimit, freshWindow in Hentry. rewrite lookup_empty in Hentry.
    cbn in Hentry. rewrite lookup_insert_eq in Hentry. by injection Hentry. }
  destruct Hahead as (secs & Hheader & Hpos & Hbounds); [simpl; lia|].
  simpl in Hbounds. assert (secs = 1) as -> by lia. exact Hheader.
Defined.

End RateLimitMore.

(** ** More of the cache: invalidation, the expiry sweep, statistics *)

Module CacheMore.
Import Store.

(** [from("api_cache").delete()] with filters, closed by [.select()]:
    the store answers with the rows it deleted. *)
Definition deleteWhere {T} (b : Backend T)
    (matches : APISource * string → CacheRow T → bool)
    : result (Reply (list (APISource * string * CacheRow T))) * Backend T :=
  match status b with
  | Unreachable m => (Throw m, b)
  | Failing e => (Ok {| data := None; error := Some e |}, b)
  | Up =>
      (Ok {| data := Some (map_to_list
                             (filter (λ kv, matches kv.1 kv.2 = true) (rows b)));
             error := None |},
       {| rows := filter (λ kv, matches kv.1 kv.2 = false) (rows b); status := Up |})
  end.

(** [from("api_cache").select("source, expires_at")] *)
Definition selectAll {T} (b : Backend T)
    : result (Reply (list (APISource * string * CacheRow T))) :=
  match status b with
  | Unreachable m => Throw m
  | Failing e => Ok {| data := None; error := Some e |}
  | Up => Ok {| data := Some (map_to_list (rows b)); error := None |}
  end.

(** A filter argument that is given: [undefined] and [""] are falsy. *)
Definition keyFilter (locationKey : option string) : option string :=
  match locationKey with
  | Some (String c rest) => Some (String c rest)
  | _ => None
  end.

Section WithTypes.
Context {T : Type}.

(** [src/lib/cache.ts]: [invalidateCache(source?, locationKey?)]; the
    result [None] is [null]. *)
Definition invalidateCache (b : Backend T) (source : option APISource)
    (locationKey : option string) : option nat * Backend T :=
  let matches (k : APISource * string) (row : CacheRow T) : bool :=
    match source with
    | Some s => bool_decide (k.1 = s)
    | None => true
    end &&
    match keyFilter locationKey with
    | Some key => bool_decide (k.2 = key)
    | None => true
    end in
  match deleteWhere b matches with
  | (Throw _, b') => (None, b')
  | (Ok reply, b') =>
      match error reply with
      | Some _ => (None, b')
      | None => (Some (length (default [] (data reply))), b')
      end
  end.

(** [.lt("expires_at", now)] *)
Definition expiredBefore (now : Z) (row : CacheRow T) : bool :=
  match expires_at row with
  | Some e => e <? now
  | None => false
  end.

Definition cleanupExpiredCache (b : Backend T) (now : Z) : option nat * Backend T :=
  match deleteWhere b (λ _ row, expiredBefore now row) with
  | (Throw _, b') => (None, b')
  | (Ok reply, b') =>
      match error reply with
      | Some _ => (None, b')
      | None => (Some (length (default [] (data reply))), b')
      end
  end.

Record CacheStats : Type := {
  total : nat;
  bySource : gmap string nat;
  expired : nat
}.

(** One turn of the [forEach] over the selected rows. *)
Definition countEntry (now : Z) (stats : CacheStats)
    (entry : APISource * string * CacheRow T) : CacheStats :=
  let name := sourceValue entry.1.1 in
  {| total := total stats;
     bySource := <[name := (default 0 (bySource stats !! name) + 1)%nat]> (bySource stats);
     expired :=
       match expires_at entry.2 with
       | Some e => if e <=? now then S (expired stats) else expired stats
       | None => expired stats
       end |}.

Definition getCacheStats (b : Backend T) (now : Z) : option CacheStats :=
  match selectAll b with
  | Throw _ => None
  | Ok reply =>
      match error reply, data reply with
      | Some _, _ => None
      | None, None => None
      | None, Some entries =>
          Some (foldl (countEntry now)
                  {| total := length entries; bySource := ∅; expired := 0 |} entries)
      end
  end.

(** [lib/api/cache.ts]: [invalidateCache(source, locationKey)] and
    [invalidateCacheBySource(source)]; what the store answers is not
    looked at. *)
Definition apiInvalidateCache (b : Backend T) (source : APISource)
    (locationKey : string) : Backend T :=
  (deleteWhere b (λ k _, bool_decide (k = (source, locationKey)))).2.

Definition invalidateCacheBySource (b : Backend T) (source : APISource) : Backend T :=
  (deleteWhere b (λ k _, bool_decide (k.1 = source))).2.

End WithTypes.

(** *** Writing and reading [src/lib/cache.ts] *)

(** X5: [setCachedData] of [src/lib/cache.ts] reports [true] exactly when
    the key is not empty, the payload is not null and the store took the
    row; otherwise the store is left as it was. After a successful write
    a read returns the payload until the expiry and none from that
    instant on. The expiry is the instant at which the host's wall clock
    shows the source's TTL in hours more than at the write: that many
    hours after the write when the offset of the time zone is the same at
    both ends, and as much earlier or later as the offset has changed
    otherwise. *)
Theorem lib_set_then_get {T} (tz : LibCache.TimeZone) (b : Backend T) (S : APISource)
    (K : string) (payload : option T) (now later : Z) :
  let out := LibCache.setCachedData tz b S K payload now in
  let ttl := LibCache.CACHE_TTL_HOURS S * 3600000 in
  let expiresAt := LibCache.UTC tz (LibCache.LocalTime tz now + ttl) in
  (out.1 = true ↔ K ≠ "" ∧ is_Some payload ∧ status b = Up) ∧
  (out.1 = false → out.2 = b) ∧
  (∀ P, out.1 = true → payload = Some P →
     LibCache.getCachedData (selectSingle out.2) S K later =
       if bool_decide (later < expiresAt) then Ok (Some P) else Ok None) ∧
  expiresAt = now + ttl + (tz now true - tz (LibCache.LocalTime tz now + ttl) false) ∧
  (tz now true = tz (LibCache.LocalTime tz now + ttl) false → expiresAt = now + ttl).
Proof.
  cbv zeta.
  assert (LibCache.setHours tz now (LibCache.getHours tz now + LibCache.CACHE_TTL_HOURS S)
          = LibCache.UTC tz (LibCache.LocalTime tz now + LibCache.CACHE_TTL_HOURS S * 3600000))
    as Hexpiry by apply LibCache.setHours_getHours.
  assert (LibCache.UTC tz (LibCache.LocalTime tz now + LibCache.CACHE_TTL_HOURS S * 3600000)
          = now + LibCache.CACHE_TTL_HOURS S * 3600000
            + (tz now true
               - tz (LibCache.LocalTime tz now + LibCache.CACHE_TTL_HOURS S * 3600000) false))
    as Hoffset by (unfold LibCache.UTC, LibCache.LocalTime; lia).
  split; [|split; [|split; [|split]]]; [| | |exact Hoffset|rewrite Hoffset; lia].
  - unfold LibCache.setCachedData, upsert.
    destruct (decide (K = "")) as [->|HK]; [split; [done|by intros (? & _)]|].
    destruct payload as [P|]; [|split; [done|by intros (_ & [? ?] & _)]].
    destruct (status b); cbn [fst].
    + done.
    + split; [done|]. by intros (_ & _ & ?).
    + split; [done|]. by intros (_ & _ & ?).
  - unfold LibCache.setCachedData, upsert.
    destruct (decide (K = "")); [done|]. destruct payload; [|done].
    by destruct (status b).
  - intros P Htrue ->. revert Htrue.
    unfold LibCache.setCachedData, upsert.
    destruct (decide (K = "")) as [|HK]; [done|].
    destruct (status b) eqn:Hstatus; [|done|done]. intros _. cbn [snd].
    unfold LibCache.getCachedData, selectSingle. cbn.
    destruct (decide (K = "")); [done|]. rewrite lookup_insert_eq. cbn.
    rewrite Hexpiry.
    by destruct (Z.ltb_spec later
                   (LibCache.UTC tz (LibCache.LocalTime tz now
                                     + LibCache.CACHE_TTL_HOURS S * 3600000)));
      [rewrite bool_decide_eq_true_2 | rewrite bool_decide_eq_false_2 by lia].
Qed.

(** A host on United States Eastern time: the clocks go forward by an
    hour at [springForward], 2027-03-14 07:00 UTC. *)
Definition springForward : Z := 1805007600000.

Definition easternTime : LibCache.TimeZone := λ t isUTC,
  if isUTC then (if t <? springForward then -18000000 else -14400000)
  else (if t <? springForward - 18000000 then -18000000 else -14400000).

(** A rent entry written on 2027-03-01 12:00 UTC, before the change, expires 719 hours later: it is readable up to the last
    millisecond before that, and no longer at 719 hours. *)
Lemma lib_set_then_get_witness :
  let written :=
    (LibCache.setCachedData easternTime {| rows := ∅; status := Up |} HUD "zip:90210"
       (Some 1500%Z) 1803902400000).2 in
  LibCache.getCachedData (selectSingle written) HUD "zip:90210"
    (1803902400000 + 719 * 3600000 - 1) = Ok (Some 1500%Z) ∧
  LibCache.getCachedData (selectSingle written) HUD "zip:90210"
    (1803902400000 + 719 * 3600000) = Ok None.
Proof.
  split.
  - pose proof (lib_set_then_get easternTime {| rows := ∅; status := Up |} HUD "zip:90210"
                  (Some 1500%Z) 1803902400000 (1803902400000 + 719 * 3600000 - 1))
      as (_ & _ & Hread & _).
    rewrite (Hread 1500%Z); [reflexivity | reflexivity | reflexivity].
  - pose proof (lib_set_then_get easternTime {| rows := ∅; status := Up |} HUD "zip:90210"
                  (Some 1500%Z) 1803902400000 (1803902400000 + 719 * 3600000))
      as (_ & _ & Hread & _).
    rewrite (Hread 1500%Z); [reflexivity | reflexivity | reflexivity].
Defined.

(** X6: a second write under a key replaces the first: in both caches
    the read returns the later payload until the expiry of the second
    write, and the table has the keys it had after the first write. *)
Theorem latest_write_wins {T} (TTL : APISource → Z) (tz : LibCache.TimeZone)
    (b : Backend T) (S : APISource) (K : string) (P1 P2 : T) (ttl : option Z)
    (t1 t2 later : Z) :
  status b = Up →
  let config := {| ApiCache.source := S; ApiCache.ttlSeconds := ttl |} in
  let api1 := (ApiCache.setCachedData TTL b K (Some P1) config t1 t1).2 in
  let api2 := (ApiCache.setCachedData TTL api1 K (Some P2) config t2 t2).2 in
  let lib1 := (LibCache.setCachedData tz b S K (Some P1) t1).2 in
  let lib2 := (LibCache.setCachedData tz lib1 S K (Some P2) t2).2 in
  (later < t2 + ApiCache.or_default ttl (TTL S) * 1000 →
   ApiCache.getCachedData (selectSingle api2) S K later later =
     Ok (Some (P2, (later - t2) / 1000))) ∧
  dom (rows api2) = dom (rows api1) ∧
  (K ≠ "" →
   later < LibCache.UTC tz (LibCache.LocalTime tz t2
                            + LibCache.CACHE_TTL_HOURS S * 3600000) →
   LibCache.getCachedData (selectSingle lib2) S K later = Ok (Some P2)) ∧
  dom (rows lib2) = dom (rows lib1).
Proof.
  intros Hup config api1 api2 lib1 lib2.
  subst api1 api2 lib1 lib2 config.
  unfold ApiCache.setCachedData, LibCache.setCachedData, upsert. cbn.
  rewrite Hup. cbn.
  split; [|split; [|split]].
  - intros Hlate.
    apply (ApiCache.getCachedData_hit _ S K
             {| row_data := P2; created_at := t2;
                expires_at := Some (t2 + ApiCache.or_default ttl (TTL S) * 1000) |}
             (t2 + ApiCache.or_default ttl (TTL S) * 1000));
      [reflexivity | cbn; by rewrite lookup_insert_eq | reflexivity | exact Hlate].
  - rewrite !dom_insert_L. by rewrite (assoc_L (∪)), (idemp_L (∪)).
  - intros HK Hlate. destruct (decide (K = "")); [done|]. cbn.
    unfold LibCache.getCachedData, selectSingle. cbn.
    destruct (decide (K = "")); [done|]. rewrite lookup_insert_eq. cbn.
    rewrite LibCache.setHours_getHours.
    apply Z.ltb_lt in Hlate. unfold LibCache.msPerHour. by rewrite Hlate.
  - destruct (decide (K = "")); [done|]. cbn.
    rewrite !dom_insert_L. by rewrite (assoc_L (∪)), (idemp_L (∪)).
Qed.

Lemma latest_write_wins_witness :
  ApiCache.getCachedData
    (selectSingle
       (ApiCache.setCachedData (λ _, 3600)
          (ApiCache.setCachedData (λ _, 3600) {| rows := ∅; status := Up |} "k"
             (Some 1%Z) {| ApiCache.source := BEA; ApiCache.ttlSeconds := None |} 0 0).2
          "k" (Some 2%Z) {| ApiCache.source := BEA; ApiCache.ttlSeconds := None |}
          5000 5000).2)
    BEA "k" 9000 9000 = Ok (Some (2%Z, 4)) ∧
  LibCache.getCachedData
    (selectSingle
       (LibCache.setCachedData easternTime
          (LibCache.setCachedData easternTime {| rows := ∅; status := Up |} BEA "k"
             (Some 1%Z) 1803902400000).2
          BEA "k" (Some 2%Z) 1803902405000).2)
    BEA "k" (1803902405000 + 719 * 3600000 - 1) = Ok (Some 2%Z).
Proof.
  pose proof (latest_write_wins (λ _, 3600) LibCache.utc {| rows := ∅; status := Up |}
                BEA "k" 1%Z 2%Z None 0 5000 9000 eq_refl) as (Hapi & _).
  pose proof (latest_write_wins (λ _, 3600) easternTime {| rows := ∅; status := Up |}
                BEA "k" 1%Z 2%Z None 1803902400000 1803902405000
                (1803902405000 + 719 * 3600000 - 1) eq_refl) as (_ & _ & Hlib & _).
  split.
  - apply Hapi. simpl. lia.
  - apply Hlib; [discriminate | reflexivity].
Defined.

(** *** Invalidation and the expiry sweep *)

Lemma deleteWhere_up {T} (b : Backend T) matches :
  status b = Up →
  deleteWhere b matches =
    (Ok {| data := Some (map_to_list (filter (λ kv, matches kv.1 kv.2 = true) (rows b)));
           error := None |},
     {| rows := filter (λ kv, matches kv.1 kv.2 = false) (rows b); status := Up |}).
Proof. intros Hup. unfold deleteWhere. by rewrite Hup. Qed.

(** The rows deleted and the rows kept are all the rows. *)
Lemma deleted_and_kept {T} (m : gmap (APISource * string) (CacheRow T))
    (f : APISource * string * CacheRow T → bool) :
  (size (filter (λ kv, f kv = true) m) + size (filter (λ kv, f kv = false) m))%nat = size m.
Proof.
  rewrite <- (map_filter_union_complement (λ kv, f kv = true) m) at 3.
  rewrite map_size_disj_union by apply map_disjoint_filter_complement.
  f_equal. f_equal. apply map_filter_ext. intros k row _. cbn.
  destruct (f (k, row)); split; congruence.
Qed.

Lemma deleteWhere_count {T} (b : Backend T) matches :
  status b = Up →
  length (map_to_list (filter (λ kv, matches kv.1 kv.2 = true) (rows b))) =
    (size (rows b) - size (filter (λ kv, matches kv.1 kv.2 = false) (rows b)))%nat.
Proof.
  intros _. rewrite length_map_to_list.
  pose proof (deleted_and_kept (rows b) (λ kv, matches kv.1 kv.2)) as Hsize.
  cbn in Hsize. lia.
Qed.

(** A read looks at the status of the store and at the row of its key. *)
Lemma lib_read_depends_on_row {T} (b b' : Backend T) S K now :
  status b' = status b →
  rows b' !! (S, K) = rows b !! (S, K) →
  LibCache.getCachedData (selectSingle b') S K now =
    LibCache.getCachedData (selectSingle b) S K now.
Proof.
  intros Hstatus Hrow. unfold LibCache.getCachedData, selectSingle. cbn.
  by rewrite Hstatus, Hrow.
Qed.

Lemma api_read_depends_on_row {T} (b b' : Backend T) S K tq ta :
  status b' = status b →
  rows b' !! (S, K) = rows b !! (S, K) →
  ApiCache.getCachedData (selectSingle b') S K tq ta =
    ApiCache.getCachedData (selectSingle b) S K tq ta.
Proof.
  intros Hstatus Hrow. unfold ApiCache.getCachedData, selectSingle. cbn.
  by rewrite Hstatus, Hrow.
Qed.

Lemma lib_read_absent {T} (b : Backend T) S K now :
  rows b !! (S, K) = None →
  LibCache.getCachedData (selectSingle b) S K now = Ok None.
Proof.
  intros Hrow. unfold LibCache.getCachedData, selectSingle. cbn.
  destruct (decide (K = "")); [done|]. rewrite Hrow.
  by destruct (status b).
Qed.

(** X7: [invalidateCache(source, key)] with a key that is not empty
    removes that entry and no other: it reports 1 if the entry was there
    and 0 if not, a read of the key finds nothing afterwards, and every
    other key reads as before. *)
Theorem invalidate_entry {T} (b : Backend T) (S : APISource) (K : string) (later : Z) :
  status b = Up →
  K ≠ "" →
  let out := invalidateCache b (Some S) (Some K) in
  out.1 = Some (if rows b !! (S, K) is Some _ then 1 else 0)%nat ∧
  rows out.2 = delete (S, K) (rows b) ∧
  LibCache.getCachedData (selectSingle out.2) S K later = Ok None ∧
  (∀ S' K', (S', K') ≠ (S, K) →
     LibCache.getCachedData (selectSingle out.2) S' K' later =
       LibCache.getCachedData (selectSingle b) S' K' later).
Proof.
  intros Hup HK out. subst out. unfold invalidateCache.
  rewrite deleteWhere_up by done. cbn [error data fst snd default from_option id rows].
  assert (keyFilter (Some K) = Some K) as -> by by destruct K.
  assert (filter (λ kv : APISource * string * CacheRow T,
             bool_decide (kv.1.1 = S) && bool_decide (kv.1.2 = K) = false) (rows b)
          = delete (S, K) (rows b)) as Hkept.
  { apply map_eq. intros [S' K']. apply option_eq. intros row.
    rewrite map_lookup_filter_Some, lookup_delete_Some. cbn.
    rewrite andb_false_iff, !bool_decide_eq_false.
    split.
    - intros [H1 H2]. split; [|done]. intros [= <- <-]. by destruct H2.
    - intros [H1 H2]. split; [done|].
      destruct (decide (S' = S)) as [->|]; [right|by left].
      intros ->. by destruct H1. }
  split; [|split; [|split]].
  - pose proof (deleteWhere_count b
                  (λ k _, bool_decide (k.1 = S) && bool_decide (k.2 = K)) Hup) as Hcount.
    cbn beta in Hcount. rewrite Hcount, Hkept.
    destruct (rows b !! (S, K)) as [row|] eqn:Hrow.
    + pose proof (map_size_delete_Some (S, K) (rows b) (mk_is_Some _ _ Hrow)).
      assert (size (rows b) ≠ 0%nat).
      { intros Hz. apply map_size_empty_inv in Hz. by rewrite Hz in Hrow. }
      f_equal. lia.
    + rewrite map_size_delete_None by done. f_equal. lia.
  - exact Hkept.
  - apply lib_read_absent. cbn. rewrite Hkept. apply lookup_delete_eq.
  - intros S' K' Hne. apply lib_read_depends_on_row; [done|].
    cbn. rewrite Hkept. by apply lookup_delete_ne.
Qed.

Lemma invalidate_entry_witness :
  (invalidateCache
     {| rows := {[ (HUD, "zip:90210") :=
                    {| row_data := 1500%Z; created_at := 0; expires_at := Some 10 |} ]};
        status := Up |}
     (Some HUD) (Some "zip:90210")).1 = Some 1%nat.
Proof.
  pose proof (invalidate_entry
    {| rows := {[ (HUD, "zip:90210") :=
                   {| row_data := 1500%Z; created_at := 0; expires_at := Some 10 |} ]};
       status := Up |} HUD "zip:90210" 0 eq_refl) as Hentry.
  destruct Hentry as (Hcount & _); [done|]. exact Hcount.
Defined.

(** X8: an empty string as the key is no key: [invalidateCache(source, "")]
    does what [invalidateCache(source)] does and removes every entry of
    the source, whatever its key, leaving the other sources as they were.
    The number reported is the number of rows removed. *)
Theorem invalidate_empty_key_clears_source {T} (b : Backend T) (S : APISource) :
  status b = Up →
  let out := invalidateCache b (Some S) (Some "") in
  out = invalidateCache b (Some S) None ∧
  (∀ K, rows out.2 !! (S, K) = None) ∧
  (∀ S' K, S' ≠ S → rows out.2 !! (S', K) = rows b !! (S', K)) ∧
  out.1 = Some (size (rows b) - size (rows out.2))%nat.
Proof.
  intros Hup out. subst out. split; [reflexivity|].
  unfold invalidateCache. rewrite deleteWhere_up by done.
  cbn [error data fst snd default from_option id rows keyFilter].
  split; [|split].
  - intros K. apply map_lookup_filter_None. right. intros row _. cbn.
    by rewrite bool_decide_eq_true_2.
  - intros S' K Hne. apply option_eq. intros row.
    rewrite map_lookup_filter_Some. cbn.
    rewrite bool_decide_eq_false_2 by done. split; [by intros [? _]|done].
  - f_equal. exact (deleteWhere_count b (λ k _, bool_decide (k.1 = S) && true) Hup).
Qed.

Lemma invalidate_empty_key_clears_source_witness :
  rows (invalidateCache
          {| rows := {[ (HUD, "zip:90210") :=
                         {| row_data := 1500%Z; created_at := 0; expires_at := Some 10 |} ]};
             status := Up |}
          (Some HUD) (Some "")).2 !! (HUD, "zip:90210") = None.
Proof.
  pose proof (invalidate_empty_key_clears_source
    {| rows := {[ (HUD, "zip:90210") :=
                   {| row_data := 1500%Z; created_at := 0; expires_at := Some 10 |} ]};
       status := Up |} HUD eq_refl) as (_ & Hgone & _).
  apply Hgone.
Defined.

(** X9: [cleanupExpiredCache] cannot be noticed by a reader: at the time
    of the sweep and at any later time, both [getCachedData] functions
    return for every key what they would have returned without it. The
    number reported is the number of rows removed, and every row left
    expires at the sweep time or later. *)
Theorem expiry_sweep_keeps_reads {T} (b : Backend T) (now later : Z)
    (S : APISource) (K : string) :
  status b = Up →
  now ≤ later →
  let out := cleanupExpiredCache b now in
  LibCache.getCachedData (selectSingle out.2) S K later =
    LibCache.getCachedData (selectSingle b) S K later ∧
  (∀ ageNow,
     ApiCache.getCachedData (selectSingle out.2) S K later ageNow =
       ApiCache.getCachedData (selectSingle b) S K later ageNow) ∧
  out.1 = Some (size (rows b) - size (rows out.2))%nat ∧
  (∀ k row e, rows out.2 !! k = Some row → expires_at row = Some e → now ≤ e).
Proof.
  intros Hup Hlater out. subst out. unfold cleanupExpiredCache.
  rewrite (deleteWhere_up b (λ _ row, expiredBefore now row)) by done.
  cbn [error data fst snd default from_option id rows].
  destruct (rows b !! (S, K)) as [row|] eqn:Hrow.
  - destruct (expiredBefore now row) eqn:Hexpired.
    + assert (filter (λ kv : APISource * string * CacheRow T,
                 expiredBefore now kv.2 = false) (rows b) !! (S, K) = None) as Hgone.
      { apply map_lookup_filter_None. right. intros row' Hrow'. cbn.
        rewrite Hrow in Hrow'. injection Hrow' as <-. by rewrite Hexpired. }
      unfold expiredBefore in Hexpired.
      destruct (expires_at row) as [e|] eqn:He; [|done].
      apply Z.ltb_lt in Hexpired.
      split; [|split; [|split]].
      * unfold LibCache.getCachedData, selectSingle. cbn. rewrite Hup, Hgone, Hrow.
        destruct (decide (K = "")); [done|]. cbn. rewrite He. cbn.
        by destruct (Z.ltb_spec later e); [lia|].
      * intros ageNow. unfold ApiCache.getCachedData, selectSingle. cbn.
        rewrite Hup, Hgone, Hrow. unfold passes_filter. cbn. rewrite He.
        by destruct (Z.ltb_spec later e); [lia|].
      * f_equal. exact (deleteWhere_count b (λ _ row, expiredBefore now row) Hup).
      * intros k row' e' [Hin Hkeep]%map_lookup_filter_Some He'. cbn in Hkeep.
        unfold expiredBefore in Hkeep. rewrite He' in Hkeep.
        by apply Z.ltb_ge in Hkeep.
    + assert (filter (λ kv : APISource * string * CacheRow T,
                 expiredBefore now kv.2 = false) (rows b) !! (S, K) = Some row) as Hkept.
      { by apply map_lookup_filter_Some. }
      split; [|split; [|split]].
      * apply lib_read_depends_on_row; [done|]. cbn. by rewrite Hkept.
      * intros ageNow. apply api_read_depends_on_row; [done|]. cbn. by rewrite Hkept.
      * f_equal. exact (deleteWhere_count b (λ _ row, expiredBefore now row) Hup).
      * intros k row' e' [Hin Hkeep]%map_lookup_filter_Some He'. cbn in Hkeep.
        unfold expiredBefore in Hkeep. rewrite He' in Hkeep.
        by apply Z.ltb_ge in Hkeep.
  - assert (filter (λ kv : APISource * string * CacheRow T,
               expiredBefore now kv.2 = false) (rows b) !! (S, K) = None) as Hgone.
    { apply map_lookup_filter_None. by left. }
    split; [|split; [|split]].
    + apply lib_read_depends_on_row; [done|]. cbn. by rewrite Hgone.
    + intros ageNow. apply api_read_depends_on_row; [done|]. cbn. by rewrite Hgone.
    + f_equal. exact (deleteWhere_count b (λ _ row, expiredBefore now row) Hup).
    + intros k row' e' [Hin Hkeep]%map_lookup_filter_Some He'. cbn in Hkeep.
      unfold expiredBefore in Hkeep. rewrite He' in Hkeep.
      by apply Z.ltb_ge in Hkeep.
Qed.

Lemma expiry_sweep_keeps_reads_witness :
  (cleanupExpiredCache
     {| rows := {[ (HUD, "zip:90210") :=
                    {| row_data := 1500%Z; created_at := 0; expires_at := Some 10 |} ]};
        status := Up |} 20).1 = Some 1%nat.
Proof.
  pose proof (expiry_sweep_keeps_reads
    {| rows := {[ (HUD, "zip:90210") :=
                   {| row_data := 1500%Z; created_at := 0; expires_at := Some 10 |} ]};
       status := Up |} 20 20 HUD "zip:90210" eq_refl) as Hsweep.
  destruct Hsweep as (_ & _ & Hcount & _); [lia|].
  rewrite Hcount. vm_compute. reflexivity.
Defined.

(** *** [withCache] and the store *)

Lemma api_read_store_down {T} (b : Backend T) S K tq ta :
  status b ≠ Up →
  ApiCache.getCachedData (selectSingle b) S K tq ta = Ok None.
Proof.
  intros Hdown. unfold ApiCache.getCachedData, selectSingle.
  by destruct (status b).
Qed.

Lemma api_set_store_down (TTL : APISource → Z) {T} (b : Backend T) K
    (fresh : option T) config te tc :
  status b ≠ Up →
  (ApiCache.setCachedData TTL b K fresh config te tc).2 = b.
Proof.
  intros Hdown. unfold ApiCache.setCachedData, upsert.
  destruct fresh; [|done]. by destruct (status b).
Qed.

(** X10: write-through. When [withCache] misses and the fetch gives a
    payload, the call returns it with [cached = false] and leaves a store
    from which the next [withCache] of the key, made before the TTL has
    passed, returns the same payload with [cached = true] and the age in
    whole seconds, without running its fetch. *)
Theorem miss_then_hit (TTL : APISource → Z) {T W : Type} (b : Backend T)
    (S : APISource) (K : string) (ttl : option Z)
    (fetchFn fetchAgain : W → result (option T) * W) (w w' w2 : W) (P : T)
    (first second : ApiCache.Clock) :
  let config := {| ApiCache.source := S; ApiCache.ttlSeconds := ttl |} in
  let out := ApiCache.withCache TTL b K config fetchFn first w in
  status b = Up →
  ApiCache.getCachedData (selectSingle b) S K
    (ApiCache.queryNow first) (ApiCache.ageNow first) = Ok None →
  fetchFn w = (Ok (Some P), w') →
  ApiCache.queryNow second <
    ApiCache.expiryNow first + ApiCache.or_default ttl (TTL S) * 1000 →
  out.1.1 = Ok {| ApiCache.fetched_data := Some P; ApiCache.cached := false;
                  ApiCache.cacheAge := None |} ∧
  out.2 = w' ∧
  ApiCache.withCache TTL out.1.2 K config fetchAgain second w2 =
    (Ok {| ApiCache.fetched_data := Some P; ApiCache.cached := true;
           ApiCache.cacheAge :=
             Some ((ApiCache.ageNow second - ApiCache.createdNow first) / 1000) |},
     out.1.2, w2).
Proof.
  intros config out Hup Hmiss Hfetch Hfresh.
  assert (out =
            (Ok {| ApiCache.fetched_data := Some P; ApiCache.cached := false;
                   ApiCache.cacheAge := None |},
             {| rows := <[(S, K) :=
                           {| row_data := P; created_at := ApiCache.createdNow first;
                              expires_at :=
                                Some (ApiCache.expiryNow first +
                                      ApiCache.or_default ttl (TTL S) * 1000) |}]> (rows b);
                status := Up |}, w')) as ->.
  { subst out config. unfold ApiCache.withCache. cbn [ApiCache.source].
    rewrite Hmiss, Hfetch. unfold ApiCache.setCachedData, upsert. by rewrite Hup. }
  cbn [fst snd]. split; [done|]. split; [done|].
  subst config. unfold ApiCache.withCache. cbn [ApiCache.source].
  by erewrite ApiCache.getCachedData_hit;
    [| reflexivity | cbn; apply lookup_insert_eq | reflexivity | exact Hfresh].
Qed.

Lemma miss_then_hit_witness :
  ApiCache.withCache (λ _, 3600)
    (ApiCache.withCache (λ _, 3600) {| rows := ∅; status := Up |} "k"
       {| ApiCache.source := BLS; ApiCache.ttlSeconds := None |}
       (λ n : nat, (Ok (Some 7%Z), Datatypes.S n))
       {| ApiCache.queryNow := 0; ApiCache.ageNow := 0;
          ApiCache.expiryNow := 0; ApiCache.createdNow := 0 |} 0%nat).1.2
    "k" {| ApiCache.source := BLS; ApiCache.ttlSeconds := None |}
    (λ n : nat, (Ok (Some 8%Z), Datatypes.S n))
    {| ApiCache.queryNow := 5000; ApiCache.ageNow := 5000;
       ApiCache.expiryNow := 5000; ApiCache.createdNow := 5000 |} 1%nat
  = (Ok {| ApiCache.fetched_data := Some 7%Z; ApiCache.cached := true;
           ApiCache.cacheAge := Some 5 |},
     (ApiCache.withCache (λ _, 3600) {| rows := ∅; status := Up |} "k"
        {| ApiCache.source := BLS; ApiCache.ttlSeconds := None |}
        (λ n : nat, (Ok (Some 7%Z), Datatypes.S n))
        {| ApiCache.queryNow := 0; ApiCache.ageNow := 0;
           ApiCache.expiryNow := 0; ApiCache.createdNow := 0 |} 0%nat).1.2,
     1%nat).
Proof.
  pose proof (miss_then_hit (λ _, 3600) {| rows := ∅; status := Up |} BLS "k" None
    (λ n : nat, (Ok (Some 7%Z), Datatypes.S n))
    (λ n : nat, (Ok (Some 8%Z), Datatypes.S n)) 0%nat 1%nat 1%nat 7%Z
    {| ApiCache.queryNow := 0; ApiCache.ageNow := 0;
       ApiCache.expiryNow := 0; ApiCache.createdNow := 0 |}
    {| ApiCache.queryNow := 5000; ApiCache.ageNow := 5000;
       ApiCache.expiryNow := 5000; ApiCache.createdNow := 5000 |}
    eq_refl eq_refl eq_refl) as Hhit.
  destruct Hhit as (_ & _ & Hhit); [simpl; lia|]. exact Hhit.
Defined.

(** X11: a store that fails or cannot be reached never fails a
    [withCache] call: the call is then the fetch alone, with the fetch's
    data and [cached = false], or the fetch's own error, and the store is
    left as it was. *)
Theorem cache_outage_degrades_to_fetch (TTL : APISource → Z) {T W : Type}
    (b : Backend T) (K : string) (config : ApiCache.CacheConfig)
    (fetchFn : W → result (option T) * W) (clock : ApiCache.Clock) (w : W) :
  status b ≠ Up →
  ApiCache.withCache TTL b K config fetchFn clock w =
    match fetchFn w with
    | (Ok fresh, w') =>
        (Ok {| ApiCache.fetched_data := fresh; ApiCache.cached := false;
               ApiCache.cacheAge := None |}, b, w')
    | (Throw m, w') => (Throw m, b, w')
    end.
Proof.
  intros Hdown. unfold ApiCache.withCache.
  rewrite api_read_store_down by done.
  destruct (fetchFn w) as [[fresh|m] w']; [|done].
  by rewrite api_set_store_down.
Qed.

Lemma cache_outage_degrades_to_fetch_witness :
  ApiCache.withCache (λ _, 3600)
    {| rows := ∅; status := Unreachable "fetch failed" |} "k"
    {| ApiCache.source := EIA; ApiCache.ttlSeconds := None |}
    (λ n : nat, (Ok (Some 7%Z), Datatypes.S n))
    {| ApiCache.queryNow := 0; ApiCache.ageNow := 0;
       ApiCache.expiryNow := 0; ApiCache.createdNow := 0 |} 0%nat
  = (Ok {| ApiCache.fetched_data := Some 7%Z; ApiCache.cached := false;
           ApiCache.cacheAge := None |},
     {| rows := ∅; status := Unreachable "fetch failed" |}, 1%nat).
Proof.
  rewrite (cache_outage_degrades_to_fetch (λ _, 3600)
             {| rows := ∅; status := Unreachable "fetch failed" |}); [reflexivity|].
  simpl. discriminate.
Defined.

(** X12: [withCache] touches no entry but its own, and that one only
    after a miss whose fetch gave a payload: a hit, a fetch that throws
    and a fetch that gives [null] leave the store as it was. *)
Theorem withCache_frame (TTL : APISource → Z) {T W : Type}
    (b : Backend T) (K : string) (config : ApiCache.CacheConfig)
    (fetchFn : W → result (option T) * W) (clock : ApiCache.Clock) (w : W) :
  let out := ApiCache.withCache TTL b K config fetchFn clock w in
  status out.1.2 = status b ∧
  (∀ k, k ≠ (ApiCache.source config, K) → rows out.1.2 !! k = rows b !! k) ∧
  (∀ m, out.1.1 = Throw m → out.1.2 = b) ∧
  (∀ r, out.1.1 = Ok r →
     ApiCache.cached r = true ∨ ApiCache.fetched_data r = None → out.1.2 = b).
Proof.
  intros out. subst out. unfold ApiCache.withCache.
  destruct (ApiCache.getCachedData _ _ _ _ _) as [[[payload age]|]|m]; cbn [fst snd];
    [by repeat split | | by repeat split].
  destruct (fetchFn w) as [[fresh|m] w']; cbn [fst snd]; [|by repeat split].
  unfold ApiCache.setCachedData, upsert.
  destruct fresh as [payload|]; [|by repeat split].
  destruct (status b) eqn:Hstatus; cbn [fst snd rows status];
    [|by repeat split|by repeat split].
  split; [done|]. split; [|split].
  - intros k Hk. by rewrite lookup_insert_ne.
  - done.
  - intros r [= <-]. cbn. by intros [|].
Qed.

(** X13: [invalidateCache(source, key)] of [lib/api/cache.ts] makes the
    next [withCache] of that key fetch again, and
    [invalidateCacheBySource] does so for every key of the source; entries
    of other keys, respectively other sources, are kept. *)
Theorem api_invalidate_forces_refetch (TTL : APISource → Z) {T W : Type}
    (b : Backend T) (S : APISource) (K : string) (ttl : option Z)
    (fetchFn : W → result (option T) * W) (clock : ApiCache.Clock) (w : W) :
  status b = Up →
  let config := {| ApiCache.source := S; ApiCache.ttlSeconds := ttl |} in
  let refetched (b' : Backend T) (key : string) :=
    (ApiCache.withCache TTL b' key config fetchFn clock w).1.1 =
      r ← (fetchFn w).1;
      Ok {| ApiCache.fetched_data := r; ApiCache.cached := false;
            ApiCache.cacheAge := None |} in
  refetched (apiInvalidateCache b S K) K ∧
  (∀ k, k ≠ (S, K) → rows (apiInvalidateCache b S K) !! k = rows b !! k) ∧
  (∀ key, refetched (invalidateCacheBySource b S) key) ∧
  (∀ S' key, S' ≠ S → rows (invalidateCacheBySource b S) !! (S', key) = rows b !! (S', key)).
Proof.
  intros Hup config refetched. subst refetched config.
  unfold apiInvalidateCache, invalidateCacheBySource.
  rewrite !deleteWhere_up by done. cbn [snd].
  assert (∀ (b' : Backend T) key,
            status b' = Up → rows b' !! (S, key) = None →
            (ApiCache.withCache TTL b' key
               {| ApiCache.source := S; ApiCache.ttlSeconds := ttl |} fetchFn clock w).1.1 =
              r ← (fetchFn w).1;
              Ok {| ApiCache.fetched_data := r; ApiCache.cached := false;
                    ApiCache.cacheAge := None |}) as Hmiss.
  { intros b' key Hup' Hrow. unfold ApiCache.withCache, ApiCache.getCachedData, selectSingle.
    cbn. rewrite Hup', Hrow. cbn. by destruct (fetchFn w) as [[fresh|m] w']. }
  split; [|split; [|split]].
  - apply Hmiss; [done|]. cbn. apply map_lookup_filter_None. right. intros row _. cbn.
    by rewrite bool_decide_eq_true_2.
  - intros k Hk. cbn. apply option_eq. intros row.
    rewrite map_lookup_filter_Some. cbn.
    rewrite bool_decide_eq_false_2 by done. split; [by intros [? _]|done].
  - intros key. apply Hmiss; [done|]. cbn. apply map_lookup_filter_None. right.
    intros row _. cbn. by rewrite bool_decide_eq_true_2.
  - intros S' key Hne. cbn. apply option_eq. intros row.
    rewrite map_lookup_filter_Some. cbn.
    rewrite bool_decide_eq_false_2 by done. split; [by intros [? _]|done].
Qed.

Lemma api_invalidate_forces_refetch_witness :
  (ApiCache.withCache (λ _, 3600)
     (apiInvalidateCache
        {| rows := {[ (BLS, "k") :=
                       {| row_data := 7%Z; created_at := 0; expires_at := Some 10 |} ]};
           status := Up |} BLS "k")
     "k" {| ApiCache.source := BLS; ApiCache.ttlSeconds := None |}
     (λ n : nat, (Ok (Some 8%Z), Datatypes.S n))
     {| ApiCache.queryNow := 5; ApiCache.ageNow := 5;
        ApiCache.expiryNow := 5; ApiCache.createdNow := 5 |} 0%nat).1.1
  = Ok {| ApiCache.fetched_data := Some 8%Z; ApiCache.cached := false;
          ApiCache.cacheAge := None |}.
Proof.
  pose proof (api_invalidate_forces_refetch (λ _, 3600)
    {| rows := {[ (BLS, "k") :=
                   {| row_data := 7%Z; created_at := 0; expires_at := Some 10 |} ]};
       status := Up |} BLS "k" None
    (λ n : nat, (Ok (Some 8%Z), Datatypes.S n))
    {| ApiCache.queryNow := 5; ApiCache.ageNow := 5;
       ApiCache.expiryNow := 5; ApiCache.createdNow := 5 |} 0%nat eq_refl)
    as (Hrefetch & _).
  exact Hrefetch.
Defined.

(** *** [getCacheStats] *)

Lemma sourceValue_inj (s1 s2 : APISource) : sourceValue s1 = sourceValue s2 → s1 = s2.
Proof. by destruct s1, s2. Qed.

(** What an entry adds to the [expired] counter. *)
Definition countedExpired {T} (now : Z) (row : CacheRow T) : bool :=
  match expires_at row with
  | Some e => negb (LibCache.isCacheValid (Some e) now)
  | None => false
  end.

Lemma size_filter_to_list {T} (P : APISource * string * CacheRow T → Prop)
    `{!∀ x, Decision (P x)} (m : gmap (APISource * string) (CacheRow T)) :
  length (filter P (map_to_list m)) = size (filter P m).
Proof.
  induction m as [|k row m Hk IH] using map_ind.
  { by rewrite map_to_list_empty, map_filter_empty, map_size_empty. }
  rewrite map_to_list_insert by done. rewrite filter_cons.
  destruct (decide (P (k, row))) as [HP|HP].
  - rewrite map_filter_insert_True by done.
    rewrite map_size_insert_None by (apply map_lookup_filter_None; by left).
    cbn. by rewrite IH.
  - rewrite map_filter_insert_not' by (done || by rewrite Hk).
    exact IH.
Qed.

Lemma foldl_countEntry {T} (now : Z) (entries : list (APISource * string * CacheRow T))
    (init : CacheStats) :
  let stats := foldl (countEntry now) init entries in
  total stats = total init ∧
  expired stats =
    (expired init + length (filter (λ kv, countedExpired now kv.2 = true) entries))%nat ∧
  ∀ S, default 0%nat (bySource stats !! sourceValue S) =
         (default 0%nat (bySource init !! sourceValue S) +
          length (filter (λ kv, kv.1.1 = S) entries))%nat.
Proof.
  revert init. induction entries as [|[[S0 K0] row] entries IH]; intros init; cbn zeta.
  { cbn. split; [done|]. split; [lia|]. intros S. lia. }
  cbn [foldl]. destruct (IH (countEntry now init (S0, K0, row))) as (Htotal & Hexpired & Hsource).
  split; [|split].
  - by rewrite Htotal.
  - rewrite Hexpired, filter_cons. cbn [countEntry expired snd fst].
    assert (countedExpired now row =
              match expires_at row with Some e => e <=? now | None => false end) as Hc.
    { unfold countedExpired, LibCache.isCacheValid.
      destruct (expires_at row) as [e|]; [|done].
      destruct (Z.leb_spec e now), (Z.ltb_spec now e); done || lia. }
    rewrite Hc.
    destruct (expires_at row) as [e|]; [destruct (e <=? now)|];
      [rewrite decide_True by done | rewrite decide_False by done
       | rewrite decide_False by done];
      cbn [length]; lia.
  - intros S. rewrite Hsource, filter_cons. cbn [countEntry bySource fst snd].
    destruct (decide (S0 = S)) as [->|Hne].
    + rewrite lookup_insert_eq. cbn [default from_option id length]. lia.
    + by rewrite lookup_insert_ne by (intros ?%sourceValue_inj; done).
Qed.

(** X14: on a reachable store [getCacheStats] counts what is there:
    [total] is the number of rows, [bySource] holds for each source the
    number of its rows, and [expired] is the number of rows with a
    readable expiry that [isCacheValid] refuses at that time. So
    [expired] never exceeds [total]. *)
Theorem stats_count_rows {T} (b : Backend T) (now : Z) :
  status b = Up →
  ∃ stats,
    getCacheStats b now = Some stats ∧
    total stats = size (rows b) ∧
    expired stats = size (filter (λ kv, countedExpired now kv.2 = true) (rows b)) ∧
    (∀ S, default 0%nat (bySource stats !! sourceValue S) =
            size (filter (λ kv, kv.1.1 = S) (rows b))) ∧
    (expired stats ≤ total stats)%nat.
Proof.
  intros Hup. unfold getCacheStats, selectAll. rewrite Hup. cbn [error data].
  eexists. split; [reflexivity|].
  destruct (foldl_countEntry now (map_to_list (rows b))
              {| total := length (map_to_list (rows b)); bySource := ∅; expired := 0 |})
    as (Htotal & Hexpired & Hsource).
  cbn [total expired bySource] in Htotal, Hexpired, Hsource.
  assert (expired
            (foldl (countEntry now)
               {| total := length (map_to_list (rows b)); bySource := ∅; expired := 0 |}
               (map_to_list (rows b))) =
          size (filter (λ kv : APISource * string * CacheRow T,
                          countedExpired now kv.2 = true) (rows b))) as Hcount.
  { rewrite Hexpired. cbn. apply size_filter_to_list. }
  split; [by rewrite Htotal, length_map_to_list|].
  split; [exact Hcount|]. split.
  - intros S. rewrite Hsource, lookup_empty. cbn. apply size_filter_to_list.
  - rewrite Hcount, Htotal, length_map_to_list.
    pose proof (deleted_and_kept (rows b) (λ kv, countedExpired now kv.2)) as Hsize.
    cbn beta in Hsize. lia.
Qed.

Lemma stats_count_rows_witness :
  ∃ stats,
    getCacheStats
      {| rows := {[ (HUD, "zip:90210") :=
                     {| row_data := 1500%Z; created_at := 0; expires_at := Some 10 |} ]};
         status := Up |} 10 = Some stats ∧
    total stats = 1%nat.
Proof.
  destruct (stats_count_rows
    {| rows := {[ (HUD, "zip:90210") :=
                   {| row_data := 1500%Z; created_at := 0; expires_at := Some 10 |} ]};
       status := Up |} 10 eq_refl) as (stats & Hstats & Htotal & _).
  exists stats. split; [exact Hstats|]. rewrite Htotal. vm_compute. reflexivity.
Defined.

End CacheMore.

(** ** More of price parity: single geographies, parsing, display helpers *)

Module BeaMore.
Import Store ApiCache Bea.

Lemma mapGet_is_Some {V} k (m : list (string * V)) : is_Some (mapGet k m) ↔ k ∈ m.*1.
Proof.
  unfold mapGet. induction m as [|[k' v] m IH]; cbn.
  { split; [by intros [? ?] | by intros ?%elem_of_nil]. }
  destruct (String.eqb_spec k' k) as [->|Hne]; cbn.
  - split; [intros _; left | by eexists].
  - rewrite IH. split; [by right|]. intros [?|?]%elem_of_cons; [congruence|done].
Qed.

Lemma mapUpdate_keys {V} k (f : V → V) (m : list (string * V)) :
  (mapUpdate k f m).*1 = m.*1.
Proof.
  unfold mapUpdate. rewrite <- list_fmap_compose. apply list_fmap_ext.
  intros i [k' v] _. cbn. by destruct (String.eqb k' k).
Qed.

Lemma elem_of_mapUpdate {V} k (f : V → V) (m : list (string * V)) geo v' :
  (geo, v') ∈ mapUpdate k f m ↔
  ∃ v, (geo, v) ∈ m ∧ v' = if String.eqb geo k then f v else v.
Proof.
  unfold mapUpdate. rewrite list_elem_of_fmap. split.
  - intros ([k' v] & Heq & Hin). cbn in Heq.
    destruct (String.eqb k' k) eqn:Hk; injection Heq as -> ->; exists v; by rewrite ?Hk.
  - intros (v & Hin & ->). exists (geo, v). split; [|done]. cbn.
    by destruct (String.eqb geo k).
Qed.

(** A row that [parseBEAResponse] takes up for the geography [geo]. *)
Definition yearRow (year : Z) (geo : string) (item : BEADataItem) : Prop :=
  TimePeriod item = year ∧ GeoFips item = geo ∧ is_Some (DataValue item).

Definition wellFormed (year : Z) (geo : string) (rpp : PartialRPP) : Prop :=
  p_geoFips rpp = geo ∧ p_year rpp = year ∧
  p_housing rpp = p_servicesRents rpp ∧
  p_percentAboveNational rpp = (λ v, (v - 100)%Q) <$> p_overall rpp.

Lemma applyLine_wellFormed year geo line value rpp :
  wellFormed year geo rpp → wellFormed year geo (applyLine line value rpp).
Proof.
  intros (Hgeo & Hyear & Hhousing & Hpercent).
  destruct line as [[]|]; repeat split; cbn; done.
Qed.

Lemma applyLine_overall line value rpp :
  is_Some (p_overall (applyLine line value rpp)) ↔
  is_Some (p_overall rpp) ∨ line = Some ALL_ITEMS.
Proof.
  destruct line as [[]|]; cbn; split; try (by left); try (by intros [?|?]);
    try (by right); by eexists.
Qed.

Record Parsed (year : Z) (items : list BEADataItem) (m : list (string * PartialRPP))
    : Prop := {
  parsed_NoDup : NoDup m.*1;
  parsed_wellFormed : ∀ geo rpp, (geo, rpp) ∈ m → wellFormed year geo rpp;
  parsed_keys : ∀ geo, geo ∈ m.*1 ↔ ∃ item, item ∈ items ∧ yearRow year geo item;
  parsed_overall : ∀ geo rpp, (geo, rpp) ∈ m →
    (is_Some (p_overall rpp) ↔
     ∃ item, item ∈ items ∧ yearRow year geo item ∧ LineCode item = Some ALL_ITEMS)
}.

Lemma parseItem_Parsed year items m item :
  Parsed year items m → Parsed year (items ++ [item]) (parseItem year m item).
Proof.
  intros [Hnodup Hwf Hkeys Hoverall]. unfold parseItem.
  assert (∀ geo (Q : BEADataItem → Prop),
            ¬ yearRow year geo item →
            ((∃ i, i ∈ items ++ [item] ∧ yearRow year geo i ∧ Q i) ↔
             (∃ i, i ∈ items ∧ yearRow year geo i ∧ Q i))) as Hskip.
  { intros geo Q Hno. split; intros (i & Hin & Hrow & HQ).
    - apply elem_of_app in Hin as [Hin|Hin%list_elem_of_singleton]; [eauto|].
      by subst i.
    - exists i. split; [apply elem_of_app; by left|done]. }
  assert (∀ geo, ¬ yearRow year geo item →
            ((∃ i, i ∈ items ++ [item] ∧ yearRow year geo i) ↔
             (∃ i, i ∈ items ∧ yearRow year geo i))) as Hskip'.
  { intros geo Hno. split; intros (i & Hin & Hrow).
    - apply elem_of_app in Hin as [Hin|Hin%list_elem_of_singleton]; [eauto|].
      by subst i.
    - exists i. split; [apply elem_of_app; by left|done]. }
  destruct (decide (TimePeriod item = year)) as [Hyear|Hyear].
  2:{ assert (∀ geo, ¬ yearRow year geo item) as Hno by (by intros geo (? & _)).
      split; [done|done| |].
      - intros geo. by rewrite Hkeys, Hskip'.
      - intros geo rpp Hin. by rewrite (Hoverall geo rpp Hin), Hskip. }
  destruct (DataValue item) as [value|] eqn:Hvalue.
  2:{ assert (∀ geo, ¬ yearRow year geo item) as Hno.
      { intros geo (_ & _ & [? ?]). congruence. }
      split; [done|done| |].
      - intros geo. by rewrite Hkeys, Hskip'.
      - intros geo rpp Hin. by rewrite (Hoverall geo rpp Hin), Hskip. }
  set (fresh := {| p_geoFips := GeoFips item; p_geoName := GeoName item;
                   p_stateCode := mapGet (String.substring 0 2 (GeoFips item)) STATE_FIPS_TO_CODE;
                   p_year := year;
                   p_overall := None; p_percentAboveNational := None;
                   p_goods := None; p_servicesRents := None;
                   p_housing := None; p_servicesOther := None |}).
  set (m1 := if mapHas (GeoFips item) m then m else m ++ [(GeoFips item, fresh)]).
  assert (yearRow year (GeoFips item) item) as Hrow.
  { split; [done|]. split; [done|]. rewrite Hvalue. by eexists. }
  assert (∀ geo, geo ≠ GeoFips item → ¬ yearRow year geo item) as Hother.
  { intros geo Hne (_ & Heq & _). congruence. }
  assert (NoDup m1.*1 ∧
          (∀ geo rpp, (geo, rpp) ∈ m1 → wellFormed year geo rpp) ∧
          (∀ geo, geo ∈ m1.*1 ↔ geo ∈ m.*1 ∨ geo = GeoFips item) ∧
          (∀ geo rpp, (geo, rpp) ∈ m1 →
             (is_Some (p_overall rpp) ↔
              ∃ i, i ∈ items ∧ yearRow year geo i ∧ LineCode i = Some ALL_ITEMS)))
    as (Hnodup1 & Hwf1 & Hkeys1 & Hoverall1).
  { subst m1. unfold mapHas. case_bool_decide as Hhas.
    - apply mapGet_is_Some in Hhas. split; [done|]. split; [done|]. split; [|done].
      intros geo. split; [by left|]. by intros [?| ->].
    - rewrite mapGet_is_Some in Hhas. split; [|split; [|split]].
      + rewrite fmap_app. apply NoDup_app. split; [done|]. split.
        * intros geo Hin Hin'%list_elem_of_singleton. cbn in Hin'. by subst geo.
        * cbn. apply NoDup_singleton.
      + intros geo rpp [Hin|Hin%list_elem_of_singleton]%elem_of_app; [by apply Hwf|].
        injection Hin as -> ->. by repeat split.
      + intros geo. rewrite fmap_app, elem_of_app. cbn.
        by rewrite list_elem_of_singleton.
      + intros geo rpp [Hin|Hin%list_elem_of_singleton]%elem_of_app;
          [by apply Hoverall|].
        injection Hin as -> ->. cbn. split; [by intros [? ?]|].
        intros (i & Hin & Hi & _). destruct Hhas. apply Hkeys. eauto. }
  split.
  - by rewrite mapUpdate_keys.
  - intros geo rpp' (rpp & Hin & ->)%elem_of_mapUpdate.
    destruct (String.eqb geo (GeoFips item)); [apply applyLine_wellFormed|]; eauto.
  - intros geo. rewrite mapUpdate_keys, Hkeys1, Hkeys.
    destruct (decide (geo = GeoFips item)) as [->|Hne].
    + split; [intros _|by right]. exists item. split; [|done].
      apply elem_of_app. right. by apply list_elem_of_singleton.
    + rewrite Hskip' by auto. split; [by intros [?|?]|by left].
  - intros geo rpp' (rpp & Hin & ->)%elem_of_mapUpdate.
    destruct (String.eqb_spec geo (GeoFips item)) as [->|Hne].
    + rewrite applyLine_overall, (Hoverall1 _ _ Hin). split.
      * intros [(i & Hi & Hrowi & Hline)|Hline].
        -- exists i. split; [apply elem_of_app; by left|done].
        -- exists item. split; [|done]. apply elem_of_app. right.
           by apply list_elem_of_singleton.
      * intros (i & [Hi|Hi%list_elem_of_singleton]%elem_of_app & Hrowi & Hline).
        -- left. eauto.
        -- subst i. by right.
    + rewrite (Hoverall1 _ _ Hin). by rewrite Hskip by auto.
Qed.

Lemma parse_Parsed year items :
  Parsed year items (parseBEAResponse (Some items) year).
Proof.
  cbn. induction items as [|item items IH] using rev_ind.
  - split; cbn.
    + constructor.
    + by intros geo rpp ?%elem_of_nil.
    + intros geo. split; [by intros ?%elem_of_nil|]. by intros (i & ?%elem_of_nil & _).
    + by intros geo rpp ?%elem_of_nil.
  - rewrite foldl_app. cbn [foldl]. by apply parseItem_Parsed.
Qed.

(** The closure handed to [withCache] by [getRPPByStateFips] and
    [getRPPByMetroCode]: [rppMap.get(geo)], or [null] when it has no
    [overall]. *)
Definition fetchOne (url : Request) (dataYear : Z) (geo : string) (net : Network)
    : result (option RegionalPriceParity) * Network :=
  let '(response, net') := fetch net url in
  if ok response then
    match json response with
    | Throw m => (Throw m, net')
    | Ok data =>
        let rppMap := parseBEAResponse data dataYear in
        (Ok (mapGet geo rppMap ≫= complete), net')
    end
  else (Throw "UPSTREAM_ERROR: BEA API returned a non-2xx status", net').

Section Fetchers.

Variable DEFAULT_CACHE_TTL : APISource → Z.

(** [JSON.stringify({ stateFips, year }, ...)] and the like: the name of
    the parameter, the geography and the year. *)
Variable stringifyGeoYear : string → string → Z → string.

Variable BEA_API_KEY : option string.

Definition getRPPBy (endpoint table param : string) (b : Backend RegionalPriceParity)
    (net : Network) (geo : string) (year : option Z) (currentYear : Z) (clock : Clock)
    : result (Fetched (option RegionalPriceParity)) * Backend RegionalPriceParity * Network :=
  let dataYear := dataYearOf year currentYear in
  let cacheKey := generateCacheKey BEA endpoint (stringifyGeoYear param geo dataYear) in
  match BEA_API_KEY with
  | Some (String _ _) =>
      let url := {| TableName := table; LineCodes := "1,2,3,4";
                    GeoFipsParam := geo; Year := dataYear |} in
      withCache DEFAULT_CACHE_TTL b cacheKey
        {| source := BEA; ttlSeconds := Some (86400 * 30) |}
        (fetchOne url dataYear geo) clock net
  | _ => (Throw "INTERNAL_ERROR: BEA API key not configured", b, net)
  end.

Definition getRPPByStateFips := getRPPBy "rpp-state" "SARPP" "stateFips".

Definition getRPPByMetroCode := getRPPBy "rpp-metro" "MARPP" "metroCode".

End Fetchers.

Lemma mapGet_elem {V} k (m : list (string * V)) v : mapGet k m = Some v → (k, v) ∈ m.
Proof.
  unfold mapGet. induction m as [|[k' v'] m IH]; cbn; [done|].
  destruct (String.eqb_spec k' k) as [->|Hne]; cbn.
  - intros [= ->]. left.
  - intros Hfind. right. by apply IH.
Qed.

Lemma elem_of_completeRecords m rpp :
  rpp ∈ completeRecords m ↔ ∃ geo p, (geo, p) ∈ m ∧ complete p = Some rpp.
Proof.
  unfold completeRecords. rewrite list_elem_of_omap. split.
  - intros ([geo p] & Hin & Hc). eauto.
  - intros (geo & p & Hin & Hc). exists (geo, p). eauto.
Qed.

Lemma complete_Some p rpp :
  complete p = Some rpp →
  p_overall p = Some (overall rpp) ∧ geoFips rpp = p_geoFips p ∧ year rpp = p_year p ∧
  percentAboveNational rpp = p_percentAboveNational p ∧
  housing rpp = p_housing p ∧ servicesRents rpp = p_servicesRents p ∧ rank rpp = None.
Proof.
  unfold complete. destruct (p_overall p) as [v|]; [|done]. by intros [= <-].
Qed.

Lemma completeRecords_keys m :
  (∀ geo p, (geo, p) ∈ m → p_geoFips p = geo) →
  geoFips <$> completeRecords m `sublist_of` m.*1.
Proof.
  induction m as [|[geo p] m IH]; intros Hkeys; [constructor|].
  unfold completeRecords. cbn [omap list_omap fmap list_fmap fst snd].
  assert (geoFips <$> completeRecords m `sublist_of` m.*1) as Hrest.
  { apply IH. intros geo' p' Hin. apply Hkeys. by right. }
  destruct (complete p) as [rpp|] eqn:Hc.
  - cbn. apply complete_Some in Hc as (_ & -> & _).
    rewrite (Hkeys geo p) by left. by constructor.
  - by constructor.
Qed.

Lemma rankByOverall_strip results :
  withRank None <$> rankByOverall results ≡ₚ withRank None <$> results.
Proof.
  unfold rankByOverall.
  rewrite <- (JsArray.sort_perm (JsArray.descendingBy overall) results) at 2.
  rewrite fmap_imap. cbn.
  erewrite imap_ext; [|intros; apply withRank_withRank].
  by rewrite (imap_const (withRank None)).
Qed.

Lemma rankByOverall_field {A} (f : RegionalPriceParity → A) results :
  (∀ r rpp, f (withRank r rpp) = f rpp) →
  f <$> rankByOverall results ≡ₚ f <$> results.
Proof.
  intros Hf.
  assert (∀ l : list RegionalPriceParity,
            f <$> l = f <$> (withRank None <$> l)) as Hstrip.
  { intros l. rewrite <- list_fmap_compose. apply list_fmap_ext. intros i x _. cbn.
    by rewrite Hf. }
  rewrite (Hstrip (rankByOverall results)), (Hstrip results).
  by rewrite rankByOverall_strip.
Qed.

Lemma ranked_of_items (dataYear : Z) (items : list BEADataItem) :
  let ranked := rankByOverall (completeRecords (parseBEAResponse (Some items) dataYear)) in
  NoDup (geoFips <$> ranked) ∧
  (∀ geo, geo ∈ geoFips <$> ranked ↔
          ∃ item, item ∈ items ∧ yearRow dataYear geo item ∧
                  LineCode item = Some ALL_ITEMS) ∧
  (∀ rpp, rpp ∈ ranked →
     year rpp = dataYear ∧
     percentAboveNational rpp = Some (overall rpp - 100)%Q ∧
     housing rpp = servicesRents rpp).
Proof.
  cbv zeta.
  pose proof (parse_Parsed dataYear items) as HP.
  set (m := parseBEAResponse (Some items) dataYear) in *.
  destruct HP as [Hnodup Hwf Hkeys Hoverall].
  assert (Hgeo : geoFips <$> rankByOverall (completeRecords m)
                 ≡ₚ geoFips <$> completeRecords m)
    by by apply rankByOverall_field.
  split; [|split].
  - rewrite Hgeo. eapply sublist_NoDup; [exact Hnodup|].
    apply completeRecords_keys. intros geo p Hin. by destruct (Hwf geo p Hin).
  - intros geo. rewrite Hgeo, list_elem_of_fmap. split.
    + intros (rpp & -> & (geo' & p & Hin & Hc)%elem_of_completeRecords).
      apply complete_Some in Hc as (Hov & -> & _).
      destruct (Hwf geo' p Hin) as (-> & _).
      apply (Hoverall geo' p Hin). rewrite Hov. by eexists.
    + intros (item & Hin & Hrow & Hline).
      assert (geo ∈ m.*1) as Hkey by (apply Hkeys; eauto).
      apply list_elem_of_fmap in Hkey as ([geo' p] & -> & Hp). cbn.
      assert (is_Some (p_overall p)) as [v Hv] by (apply (Hoverall geo' p Hp); eauto).
      assert (∃ rpp, complete p = Some rpp) as [rpp Hc].
      { unfold complete. rewrite Hv. by eexists. }
      exists rpp. split.
      * apply complete_Some in Hc as (_ & -> & _). by destruct (Hwf geo' p Hp).
      * apply elem_of_completeRecords. eauto.
  - intros rpp Hin.
    assert (withRank None rpp ∈ withRank None <$> completeRecords m) as Hin'.
    { rewrite <- rankByOverall_strip. apply list_elem_of_fmap. eauto. }
    apply list_elem_of_fmap in Hin' as (r0 & Heq & (geo & p & Hp & Hc)%elem_of_completeRecords).
    apply complete_Some in Hc as (Hov & _ & Hyear & Hpercent & Hhousing & Hrents & _).
    destruct (Hwf geo p Hp) as (_ & Hy & Hh & Hpc).
    change (year rpp) with (year (withRank None rpp)).
    change (percentAboveNational rpp) with (percentAboveNational (withRank None rpp)).
    change (overall rpp) with (overall (withRank None rpp)).
    change (housing rpp) with (housing (withRank None rpp)).
    change (servicesRents rpp) with (servicesRents (withRank None rpp)).
    rewrite Heq. cbn [withRank year percentAboveNational overall housing servicesRents].
    rewrite Hyear, Hpercent, Hhousing, Hrents, Hy, Hh, Hpc, Hov. done.
Qed.



(** The two fetches of one geography. *)
Inductive Single : Type := OneState | OneMetro.

Definition getRPPByOf (which : Single) :=
  match which with
  | OneState => getRPPByStateFips
  | OneMetro => getRPPByMetroCode
  end.

(** The URL each of them builds. *)
Definition singleUrl (which : Single) (geo : string) (dataYear : Z) : Request :=
  {| TableName := match which with OneState => "SARPP" | OneMetro => "MARPP" end;
     LineCodes := "1,2,3,4"; GeoFipsParam := geo; Year := dataYear |}.

Lemma getRPPByOf_fresh (which : Single) (TTL : APISource → Z)
    (stringifyGeoYear : string → string → Z → string) (key : option string)
    (b b' : Backend RegionalPriceParity) (net net' : Network) (geo : string)
    (year : option Z) (currentYear : Z) (clock : Clock)
    (fetched : Fetched (option RegionalPriceParity)) :
  getRPPByOf which TTL stringifyGeoYear key b net geo year currentYear clock =
    (Ok fetched, b', net') →
  cached fetched = false →
  let dataYear := dataYearOf year currentYear in
  ∃ data,
    json (respond net (singleUrl which geo dataYear)) = Ok data ∧
    fetched_data fetched = mapGet geo (parseBEAResponse data dataYear) ≫= complete.
Proof.
  assert (getRPPByOf which TTL stringifyGeoYear key b net geo year currentYear clock =
          let dataYear := dataYearOf year currentYear in
          match key with
          | Some (String _ _) =>
              withCache TTL b
                (generateCacheKey BEA
                   match which with OneState => "rpp-state" | OneMetro => "rpp-metro" end
                   (stringifyGeoYear
                      match which with OneState => "stateFips" | OneMetro => "metroCode" end
                      geo dataYear))
                {| source := BEA; ttlSeconds := Some (86400 * 30) |}
                (fetchOne (singleUrl which geo dataYear) dataYear geo) clock net
          | _ => (Throw "INTERNAL_ERROR: BEA API key not configured", b, net)
          end) as -> by by destruct which.
  cbv zeta. destruct key as [[|c rest]|]; [done| |done].
  unfold withCache. cbn [source].
  destruct (getCachedData _ _ _ _ _) as [[[payload age]|]|m]; [| |done].
  { intros [= <- _ _]. done. }
  unfold fetchOne, fetch. cbv beta iota zeta.
  destruct (ok (respond net _)); [|done].
  destruct (json (respond net _)) as [data|m]; [|done].
  intros [= <- _ _] _. by exists data.
Qed.



(** X17: an empty ranking is cached like any other. With an API key
    configured, when the response has no rows for the requested year, the
    fetch of all states stores the empty list, and a second call within
    30 days returns it with [cached = true] and sends no request. *)
Theorem empty_ranking_is_cached (TTL : APISource → Z) (stringifyYear : Z → string)
    (key : string) (b : Backend (list RegionalPriceParity)) (net net2 : Network)
    (year : option Z) (currentYear : Z) (first second : Clock)
    (data : option (list BEADataItem)) :
  let dataYear := dataYearOf year currentYear in
  let out := getRPPAllStates TTL stringifyYear (Some key) b net year currentYear first in
  key ≠ "" →
  status b = Up →
  getCachedData (selectSingle b) BEA
    (generateCacheKey BEA "rpp-states" (stringifyYear dataYear))
    (queryNow first) (ageNow first) = Ok None →
  ok (respond net (statesUrl dataYear)) = true →
  json (respond net (statesUrl dataYear)) = Ok data →
  (∀ items item, data = Some items → item ∈ items → TimePeriod item ≠ dataYear) →
  queryNow second < expiryNow first + 2592000 * 1000 →
  getRPPAllStates TTL stringifyYear (Some key) out.1.2 net2 year currentYear second =
    (Ok {| fetched_data := Some []; cached := true;
           cacheAge := Some ((ageNow second - createdNow first) / 1000) |},
     out.1.2, net2).
Proof.
  intros dataYear out Hkey Hup Hmiss Hok Hjson Hrows Hfresh.
  destruct key as [|c rest]; [done|]. clear Hkey.
  assert (out.1.2 =
            {| rows := <[(BEA, generateCacheKey BEA "rpp-states" (stringifyYear dataYear)) :=
                          {| row_data := []; created_at := createdNow first;
                             expires_at := Some (expiryNow first + 2592000 * 1000) |}]>
                         (rows b);
               status := Up |}) as ->.
  { subst out. unfold getRPPAllStates, getRPPAll, withCache. fold dataYear.
    cbn [source]. rewrite Hmiss. unfold fetchRanked, fetch. cbv beta iota zeta.
    change {| TableName := "SARPP"; LineCodes := "1,2,3,4"; GeoFipsParam := "STATE";
              Year := dataYear |} with (statesUrl dataYear).
    rewrite Hok, Hjson.
    assert (parseBEAResponse data dataYear = []) as ->.
    { destruct data as [items|]; [|done]. cbn.
      apply parse_other_year. intros item Hin. by eapply Hrows. }
    cbn [fst snd]. unfold setCachedData, upsert. rewrite Hup. reflexivity. }
  unfold getRPPAllStates, getRPPAll, withCache. fold dataYear. cbn [source].
  by erewrite getCachedData_hit;
    [| reflexivity | cbn; apply lookup_insert_eq | reflexivity | exact Hfresh].
Qed.

Lemma empty_ranking_is_cached_witness :
  getRPPAllStates (λ _, 3600) (λ _, "year:2022") (Some "key")
    (getRPPAllStates (λ _, 3600) (λ _, "year:2022") (Some "key") emptyStore
       staleNetwork (Some 2022) 2024 noon).1.2
    staleNetwork (Some 2022) 2024
    {| queryNow := 86400000; ageNow := 86400000;
       expiryNow := 86400000; createdNow := 86400000 |}
  = (Ok {| fetched_data := Some []; cached := true; cacheAge := Some 86398 |},
     (getRPPAllStates (λ _, 3600) (λ _, "year:2022") (Some "key") emptyStore
        staleNetwork (Some 2022) 2024 noon).1.2,
     staleNetwork).
Proof.
  apply (empty_ranking_is_cached (λ _, 3600) (λ _, "year:2022") "key" emptyStore
           staleNetwork staleNetwork (Some 2022) 2024 noon
           {| queryNow := 86400000; ageNow := 86400000;
              expiryNow := 86400000; createdNow := 86400000 |} (Some [])).
  - discriminate.
  - reflexivity.
  - reflexivity.
  - reflexivity.
  - reflexivity.
  - intros items item [= <-] Hin. by apply elem_of_nil in Hin.
  - simpl. lia.
Defined.

(** *** Display helpers *)

(** [s[i]] for a number [i]: [undefined] outside the array. *)
Definition at_index (s : list string) (i : Z) : option string :=
  if i <? 0 then None else s !! Z.to_nat i.

(** [%] is the remainder of the truncated division. *)
Definition getOrdinalSuffix (n : Z) : string :=
  let s := ["th"; "st"; "nd"; "rd"] in
  let v := Z.rem n 100 in
  default (default "" (at_index s 0))
    (at_index s (Z.rem (v - 20) 10) ∪ at_index s v).

(** The English rule. *)
Definition ordinal (n : Z) : string :=
  if bool_decide (11 ≤ n `mod` 100 ≤ 13) then "th"
  else if bool_decide (n `mod` 10 = 1) then "st"
  else if bool_decide (n `mod` 10 = 2) then "nd"
  else if bool_decide (n `mod` 10 = 3) then "rd"
  else "th".

(** X18: for a rank that is not negative [getOrdinalSuffix] is the
    English ordinal suffix: "st", "nd", "rd" after a last digit 1, 2, 3,
    except in 11, 12, 13 (and 111, 112, ...), and "th" otherwise. *)
Theorem ordinal_suffix (n : Z) :
  0 ≤ n → getOrdinalSuffix n = ordinal n.
Proof.
  intros Hn.
  assert (Forall (λ v, getOrdinalSuffix v = ordinal v) (seqZ 0 100)) as Hall.
  { apply (bool_decide_unpack _). by vm_compute. }
  rewrite Forall_forall in Hall.
  pose proof (Z.mod_pos_bound n 100 eq_refl) as Hbound.
  assert (getOrdinalSuffix n = getOrdinalSuffix (n `mod` 100)) as ->.
  { unfold getOrdinalSuffix. rewrite (Z.rem_mod_nonneg n 100) by lia.
    rewrite (Z.rem_mod_nonneg (n `mod` 100) 100) by lia.
    by rewrite Z.mod_mod by lia. }
  rewrite Hall by (apply elem_of_seqZ; lia).
  unfold ordinal. rewrite Z.mod_mod by lia.
  assert ((n `mod` 100) `mod` 10 = n `mod` 10) as ->
    by (Z.div_mod_to_equations; lia).
  done.
Qed.

Lemma ordinal_suffix_witness :
  getOrdinalSuffix 112 = "th" ∧ getOrdinalSuffix 22 = "nd".
Proof.
  split.
  - rewrite (ordinal_suffix 112) by lia. reflexivity.
  - rewrite (ordinal_suffix 22) by lia. reflexivity.
Defined.

End BeaMore.

(** ** More of the resolver, the rent fetcher and the rent endpoint *)

Module HudMore.
Import Store Hud HudRent.

(** X19: the resolver never throws, whatever the store does: a store
    that fails, throws or answers nonsense gives [null], respectively an
    empty list. The nearby metros are never more than the limit (5 when
    none is given), no CBSA code stands twice, and none is marked as a
    split ZIP. *)
Theorem resolver_never_throws (supabase : CrosswalkClient) (zipCode : string)
    (limit : option nat) :
  (∃ r, getMetroCodeForZip supabase zipCode = Ok r) ∧
  ∃ metros,
    getNearbyMetros supabase zipCode limit = Ok metros ∧
    (length metros ≤ default 5 limit)%nat ∧
    NoDup (cbsaCode <$> metros) ∧
    Forall (λ r, isSplitZip r = false) metros.
Proof.
  assert (∃ r, getMetroCodeForZip supabase zipCode = Ok r) as [r Hr].
  { unfold getMetroCodeForZip.
    destruct (supabase (ByZip zipCode)) as [[d [e|]]|m]; cbn; eauto.
    destruct d as [[|primary others]|]; eauto. }
  split; [eauto|].
  unfold getNearbyMetros. rewrite Hr. cbn.
  destruct r as [crosswalk|]; cbn.
  2:{ exists []. split; [done|]. split; [cbn; lia|]. split; constructor. }
  destruct (supabase (LikeNameExcept _ _ _)) as [[d [e|]]|m]; cbn.
  1,3: exists []; (split; [done|]); (split; [cbn; lia|]); split; constructor.
  destruct d as [rows|]; cbn.
  2:{ exists []. split; [done|]. split; [cbn; lia|]. split; constructor. }
  eexists. split; [reflexivity|].
  rewrite foldl_dedupeStep. cbn [app length].
  split; [|split].
  - pose proof (dedupeFrom_length (default 5%nat limit) ∅ 0 rows). lia.
  - apply dedupeFrom_NoDup.
  - apply Forall_forall. intros x Hx.
    by destruct (dedupeFrom_origin _ _ _ _ _ Hx) as (item & _ & -> & _).
Qed.

Lemma zip_key_not_empty zipCode : "zip:" +:+ zipCode ≠ "".
Proof. done. Qed.

(** X20: a rent lookup that had to ask HUD leaves one cache entry, under
    ["zip:" + zipCode]; once that entry is in the store, every lookup of
    the ZIP code before the entry expires is answered from the cache with
    the same record, whatever the crosswalk and the HUD service would
    say. The entry expires when the host's wall clock shows 720 hours
    more than at the write. *)
Theorem rent_lookup_is_cached (tz : LibCache.TimeZone) (env env' : Env) (zipCode : string)
    (now later : Z) (fmrData : HUDFairMarketRent)
    (written : list (string * HUDFairMarketRent)) (b : Backend HUDFairMarketRent) :
  fetchFairMarketRents env zipCode now = (Ok (Some fmrData), written) →
  written ≠ [] →
  Store.status b = Up →
  let b' := (LibCache.setCachedData tz b HUD ("zip:" +:+ zipCode) (Some fmrData) now).2 in
  cache env' = selectSingle b' →
  later < LibCache.UTC tz (LibCache.LocalTime tz now + 720 * 3600000) →
  written = [("zip:" +:+ zipCode, fmrData)] ∧
  fmr_zipCode fmrData = zipCode ∧
  fetchFairMarketRents env' zipCode later = (Ok (Some fmrData), []).
Proof.
  intros Hrun Hwritten Hup b' Hcache Hlater.
  assert (validateZipCode zipCode = true ∧
          written = [("zip:" +:+ zipCode, fmrData)] ∧
          fmr_zipCode fmrData = zipCode) as (Hvalid & -> & Hzip).
  { unfold fetchFairMarketRents in Hrun.
    destruct (validateZipCode zipCode); [|done].
    destruct (LibCache.getCachedData _ _ _ _) as [[cached|]|];
      [by injection Hrun as _ <- | | done].
    destruct (getMetroCodeForZip _ _) as [[cw|]|]; try done.
    destruct (fetchFMRByCBSA _ _) as [[attrs|]|]; try done.
    by injection Hrun as <- <-. }
  split; [done|]. split; [done|].
  unfold fetchFairMarketRents. rewrite Hvalid, Hcache.
  assert (LibCache.getCachedData (selectSingle b') HUD ("zip:" +:+ zipCode) later
          = Ok (Some fmrData)) as ->; [|done].
  subst b'. unfold LibCache.setCachedData, upsert.
  destruct (decide ("zip:" +:+ zipCode = "")) as [Hempty|_]; [done|].
  rewrite Hup. cbn [snd].
  unfold LibCache.getCachedData, selectSingle. cbn.
  rewrite lookup_insert_eq. cbn.
  change (LibCache.setHours tz now (LibCache.getHours tz now + 720))
    with (LibCache.setHours tz now (LibCache.getHours tz now + LibCache.CACHE_TTL_HOURS HUD)).
  rewrite LibCache.setHours_getHours.
  apply Z.ltb_lt in Hlater. unfold LibCache.msPerHour. cbn [LibCache.CACHE_TTL_HOURS].
  by rewrite Hlater.
Qed.

(** A cold cache, the table of [Hud.beverlyHills] and a HUD service with
    one feature. *)
Definition coldEnv : Env :=
  {| cache := selectSingle {| rows := ∅; Store.status := Up |};
     crosswalk := crosswalkSelect beverlyHills;
     hudApi := λ cbsaCode,
       Ok {| hud_ok := true;
             features := Some [ {| FMR_AREANAME := Some "Los Angeles-Long Beach, CA";
                                   FMR_CODE := "METRO" +:+ cbsaCode;
                                   FMR_0BDR := Some 1500%Q; FMR_1BDR := Some 1700%Q;
                                   FMR_2BDR := Some 2200%Q; FMR_3BDR := Some 2900%Q;
                                   FMR_4BDR := None |} ] |} |}.

(** The store after the write on a host on UTC, with the crosswalk and
    HUD out of reach. *)
Definition warmEnv (fmrData : HUDFairMarketRent) : Env :=
  {| cache :=
       selectSingle
         (LibCache.setCachedData LibCache.utc {| rows := ∅; Store.status := Up |} HUD
            "zip:90210" (Some fmrData) 0).2;
     crosswalk := λ _, Throw "unreachable";
     hudApi := λ _, Throw "unreachable" |}.

Lemma rent_lookup_is_cached_witness :
  ∃ fmrData,
    (fetchFairMarketRents coldEnv "90210" 0).1 = Ok (Some fmrData) ∧
    fetchFairMarketRents (warmEnv fmrData) "90210" 1000 = (Ok (Some fmrData), []).
Proof.
  destruct (fetchFairMarketRents coldEnv "90210" 0) as [out written] eqn:Hrun.
  assert (∃ fmrData, out = Ok (Some fmrData) ∧ written ≠ []) as (fmrData & -> & Hwritten).
  { vm_compute in Hrun. injection Hrun as <- <-. by eexists. }
  exists fmrData. split; [reflexivity|].
  destruct (rent_lookup_is_cached LibCache.utc coldEnv (warmEnv fmrData) "90210" 0 1000
              fmrData written {| rows := ∅; Store.status := Up |} Hrun Hwritten eq_refl
              eq_refl)
    as (_ & _ & Hcached); [reflexivity|exact Hcached].
Defined.

Import HudRoute.

Definition wellFormedEnvelope (r : Response) : Prop :=
  (success r = true ↔ HudRoute.status r = 200) ∧
  (success r = false ↔ ∃ code message, body r = ErrorBody code message).

Lemma failure_envelope st code message :
  st ≠ 200 → wellFormedEnvelope (failure st code message).
Proof.
  intros Hst. split; cbn.
  - split; [done|]. by intros ->.
  - split; [by eexists _, _|done].
Qed.

Lemma succeed_envelope b :
  (∀ c m, b ≠ ErrorBody c m) → wellFormedEnvelope (succeed b).
Proof.
  intros Hb. split; cbn; [done|].
  split; [done|]. intros (c & m & Heq). by destruct (Hb c m).
Qed.

Lemma singleZip_envelope env params zip now :
  let out := singleZip env params zip now in
  wellFormedEnvelope out.1 ∧
  (HudRoute.status out.1 = 200 ∨ HudRoute.status out.1 = 404 ∨
   HudRoute.status out.1 = 500) ∧
  (out.2 = [] ∨ out.2 = [zip]).
Proof.
  unfold singleZip.
  destruct (metroOnly params).
  - destruct (getMetroInfoForZip env zip) as [[metroInfo|]|message]; cbn [fst snd].
    + split; [by apply succeed_envelope|]. cbn. auto.
    + split; [by apply failure_envelope|]. cbn. auto.
    + split; [by apply failure_envelope|]. cbn. auto.
  - destruct (fetchFairMarketRents env zip now).1 as [[data|]|message]; cbn [fst snd].
    + destruct (includeNearby params).
      * destruct (getNearbyMetros (crosswalk env) zip (Some 5%nat)) as [nearby|message];
          cbn [fst snd].
        -- split; [by apply succeed_envelope|]. cbn. auto.
        -- split; [by apply failure_envelope|]. cbn. auto.
      * cbn [fst snd]. split; [by apply succeed_envelope|]. cbn. auto.
    + split; [by apply failure_envelope|]. cbn. auto.
    + split; [by apply failure_envelope|]. cbn. auto.
Qed.

(** X21: every answer of the rent route has the one envelope:
    [success] is true exactly with status 200 and false exactly with an
    error body, and the status is 200, 400, 404 or 500. A lookup is only
    ever started for a well-formed ZIP code, never for more than 20 in one
    request, and not at all when the request is rejected with 400. *)
Theorem hud_route_envelope (env : Env) (byState : string → result (list HUDFairMarketRent))
    (params : Params) (now : Z) :
  let out := GET env byState params now in
  wellFormedEnvelope out.1 ∧
  (HudRoute.status out.1 = 200 ∨ HudRoute.status out.1 = 400 ∨
   HudRoute.status out.1 = 404 ∨ HudRoute.status out.1 = 500) ∧
  Forall (λ zip, validateZipCode zip = true) out.2 ∧
  (length out.2 ≤ 20)%nat ∧
  (HudRoute.status out.1 = 400 → out.2 = []).
Proof.
  assert (∀ st code message, st = 400 ∨ st = 500 →
            let out := (failure st code message, @nil string) in
            wellFormedEnvelope out.1 ∧
            (HudRoute.status out.1 = 200 ∨ HudRoute.status out.1 = 400 ∨
             HudRoute.status out.1 = 404 ∨ HudRoute.status out.1 = 500) ∧
            Forall (λ zip, validateZipCode zip = true) out.2 ∧
            (length out.2 ≤ 20)%nat ∧
            (HudRoute.status out.1 = 400 → out.2 = [])) as Hfail.
  { intros st code message Hst. cbn [fst snd].
    split; [apply failure_envelope; lia|]. cbn.
    split; [lia|]. split; [constructor|]. split; [lia|done]. }
  unfold GET.
  destruct (given (zip params)) as [zipParam|], (given (state params)) as [stateParam|].
  1,3: destruct (isStateParam stateParam); [|apply Hfail; auto];
       destruct (byState stateParam) as [data|message]; [|apply Hfail; auto];
       cbn [fst snd]; (split; [by apply succeed_envelope|]); cbn;
       (split; [auto|]); (split; [constructor|]); (split; [lia|done]).
  2: apply Hfail; auto.
  set (zipCodes := Text.trim <$> Text.split Text.comma zipParam).
  case_bool_decide as Hinvalid; [apply Hfail; auto|].
  assert (Forall (λ zip, validateZipCode zip = true) zipCodes) as Hvalid.
  { apply invalidZips_empty.
    destruct (filter _ zipCodes) eqn:Hf; [done|]. cbn in Hinvalid. lia. }
  case_bool_decide as Hone.
  - destruct zipCodes as [|zip [|? ?]] eqn:Hz; try done.
    cbn [lookup list_lookup default from_option id].
    apply Forall_inv in Hvalid.
    destruct (singleZip_envelope env params zip now) as (H1 & H2 & H3).
    split; [done|]. split; [tauto|].
    destruct H3 as [-> | ->].
    + split; [constructor|]. split; [cbn; lia|done].
    + split; [by constructor|]. split; [cbn; lia|].
      intros H400. rewrite H400 in H2. lia.
  - case_bool_decide as Hmany; [apply Hfail; auto|].
    cbn [fst snd]. split; [by apply succeed_envelope|]. cbn.
    split; [auto|]. split; [done|]. split; [lia|done].
Qed.

End HudMore.

(** ** More of energy prices: the electricity and gasoline series *)

Module EiaMore.
Import Store ApiCache Eia.

(** [a > b] on two strings: the order of the code units. *)
Definition newer (a b : string) : bool := String.ltb b a.

Lemma newer_trans a b c : newer a b = true → newer b c = true → newer a c = true.
Proof.
  unfold newer, String.ltb.
  destruct (String.compare b a) eqn:Hba; try done.
  destruct (String.compare c b) eqn:Hcb; try done. intros _ _.
  apply OrderedTypeEx.String_as_OT.cmp_lt in Hba, Hcb.
  pose proof (OrderedTypeEx.String_as_OT.lt_trans _ _ _ Hcb Hba) as Hca.
  apply OrderedTypeEx.String_as_OT.cmp_lt in Hca.
  unfold OrderedTypeEx.String_as_OT.cmp in Hca. by rewrite Hca.
Qed.

Lemma newer_irrefl a : newer a a = false.
Proof.
  unfold newer, String.ltb.
  destruct (String.compare a a) eqn:Hc; try done.
  apply OrderedTypeEx.String_as_OT.cmp_lt in Hc.
  by apply OrderedTypeEx.String_as_OT.lt_not_eq in Hc.
Qed.

(** The names every object literal inherits: [latestByState[name]] is
    then a function or [Object.prototype], which is truthy and has no
    [period]. *)
Definition inherited : list string :=
  ["constructor"; "__defineGetter__"; "__defineSetter__"; "hasOwnProperty";
   "__lookupGetter__"; "__lookupSetter__"; "isPrototypeOf"; "propertyIsEnumerable";
   "toString"; "valueOf"; "__proto__"; "toLocaleString"].

(** A row of the electricity response; [price = None] is [undefined] or
    [null]. *)
Record ElectricityItem : Type := {
  stateId : option string;
  price : option Q;
  period : string
}.

(** One turn of the loop that fills [latestByState]. *)
Definition latestStep (latestByState : gmap string (string * Q)) (item : ElectricityItem)
    : gmap string (string * Q) :=
  match stateId item, price item with
  | Some state, Some p =>
      if bool_decide (state = "") then latestByState
      else if bool_decide (state ∈ inherited) then latestByState
      else
        match latestByState !! state with
        | Some existing =>
            if newer (period item) existing.1
            then <[state := (period item, p)]> latestByState
            else latestByState
        | None => <[state := (period item, p)]> latestByState
        end
  | _, _ => latestByState
  end.

(** The closure of [getElectricityPricesByState] after the response has
    been read; [data = None] when [data.response?.data] is missing. Each
    entry of [latestByState] gives one key of [priceRecord]. *)
Definition electricityPrices (data : option (list ElectricityItem)) : gmap string Q :=
  match data with
  | None => ∅
  | Some items => snd <$> (foldl latestStep ∅ items)
  end.

(** A row that counts for [state]. *)
Definition countsFor (state : string) (item : ElectricityItem) : Prop :=
  stateId item = Some state ∧ state ≠ "" ∧ (state ∉ inherited) ∧ is_Some (price item).

Definition latestOf (state : string) (items : list ElectricityItem)
    (entry : option (string * Q)) : Prop :=
  match entry with
  | None => ∀ item, item ∈ items → ¬ countsFor state item
  | Some (per, p) =>
      ∃ item, item ∈ items ∧ countsFor state item ∧ period item = per ∧
              price item = Some p ∧
              ∀ other, other ∈ items → countsFor state other →
                       newer (period other) per = false
  end.

Lemma latestStep_latestOf items latest item :
  (∀ state, latestOf state items (latest !! state)) →
  ∀ state, latestOf state (items ++ [item]) (latestStep latest item !! state).
Proof.
  intros IH state.
  assert (∀ entry, ¬ countsFor state item →
            latestOf state items entry → latestOf state (items ++ [item]) entry) as Hskip.
  { intros [[per p]|] Hno; cbn.
    - intros (i & Hin & Hc & Hper & Hp & Hmax). exists i.
      split; [apply elem_of_app; by left|]. repeat (split; [done|]).
      intros other [Ho|Ho%list_elem_of_singleton]%elem_of_app Hco; [by apply Hmax|].
      by subst other.
    - intros Hnone i [Hi|Hi%list_elem_of_singleton]%elem_of_app; [by apply Hnone|].
      by subst i. }
  unfold latestStep.
  destruct (stateId item) as [st|] eqn:Hst.
  2:{ apply Hskip; [|apply IH]. intros (Heq & _). congruence. }
  destruct (price item) as [p|] eqn:Hp.
  2:{ apply Hskip; [|apply IH]. intros (_ & _ & _ & [? ?]). congruence. }
  case_bool_decide as Hempty.
  { apply Hskip; [|apply IH]. intros (Heq & Hne & _). congruence. }
  case_bool_decide as Hinh.
  { apply Hskip; [|apply IH]. intros (Heq & _ & Hni & _). congruence. }
  assert (countsFor st item) as Hcounts.
  { split; [done|]. split; [done|]. split; [done|]. rewrite Hp. by eexists. }
  destruct (decide (state = st)) as [->|Hne].
  2:{ assert (¬ countsFor state item) as Hno by (intros (Heq & _); congruence).
      destruct (latest !! st) as [existing|];
        [destruct (newer (period item) existing.1)|];
        rewrite ?lookup_insert_ne by done; apply Hskip; auto. }
  pose proof (IH st) as Hst'.
  destruct (latest !! st) as [[per q]|] eqn:Hlatest; cbn [fst].
  - destruct (newer (period item) per) eqn:Hnewer.
    + rewrite lookup_insert_eq. cbn.
      destruct Hst' as (i & Hin & Hc & Hper & Hq & Hmax).
      exists item. split; [apply elem_of_app; right; by apply list_elem_of_singleton|].
      repeat (split; [done|]).
      intros other [Ho|Ho%list_elem_of_singleton]%elem_of_app Hco.
      * destruct (newer (period other) (period item)) eqn:Hcontra; [|done].
        pose proof (Hmax other Ho Hco) as Hold.
        by rewrite (newer_trans _ _ _ Hcontra Hnewer) in Hold.
      * subst other. apply newer_irrefl.
    + rewrite Hlatest. cbn.
      destruct Hst' as (i & Hin & Hc & Hper & Hq & Hmax).
      exists i. split; [apply elem_of_app; by left|]. repeat (split; [done|]).
      intros other [Ho|Ho%list_elem_of_singleton]%elem_of_app Hco; [by apply Hmax|].
      by subst other.
  - rewrite lookup_insert_eq. cbn.
    exists item. split; [apply elem_of_app; right; by apply list_elem_of_singleton|].
    repeat (split; [done|]).
    intros other [Ho|Ho%list_elem_of_singleton]%elem_of_app Hco.
    + by destruct (Hst' other Ho).
    + subst other. apply newer_irrefl.
Qed.

Lemma foldl_latestOf items state :
  latestOf state items (foldl latestStep ∅ items !! state).
Proof.
  revert state. induction items as [|item items IH] using rev_ind; intros state.
  - cbn. rewrite lookup_empty. cbn. by intros item ?%elem_of_nil.
  - rewrite foldl_app. cbn [foldl]. by apply latestStep_latestOf.
Qed.

(** X22: the electricity price of a state is the price of its row with
    the latest period: no row that counts for the state has a later one.
    A state has no price exactly when no row counts for it; rows without
    a state or a price do not count. *)
Theorem electricity_latest_period (items : list ElectricityItem) (state : string) :
  let record := electricityPrices (Some items) in
  (record !! state = None ↔ ∀ item, item ∈ items → ¬ countsFor state item) ∧
  (∀ p, record !! state = Some p →
     ∃ item, item ∈ items ∧ countsFor state item ∧ price item = Some p ∧
             ∀ other, other ∈ items → countsFor state other →
                      newer (period other) (period item) = false).
Proof.
  cbn. rewrite lookup_fmap.
  pose proof (foldl_latestOf items state) as Hlatest.
  destruct (foldl latestStep ∅ items !! state) as [[per p]|]; cbn in *.
  - destruct Hlatest as (item & Hin & Hc & Hper & Hp & Hmax). split.
    + split; [done|]. intros Hnone. by destruct (Hnone item Hin).
    + intros p' [= <-]. exists item. subst per. eauto.
  - split; [done|]. by intros p' ?.
Qed.

Lemma electricity_latest_period_witness :
  electricityPrices
    (Some [ {| stateId := Some "TX"; price := Some 14%Q; period := "2024-02" |};
            {| stateId := Some "TX"; price := Some 15%Q; period := "2024-03" |};
            {| stateId := Some "TX"; price := None; period := "2024-04" |} ])
    !! "TX" = Some 15%Q.
Proof.
  pose proof (electricity_latest_period
    [ {| stateId := Some "TX"; price := Some 14%Q; period := "2024-02" |};
      {| stateId := Some "TX"; price := Some 15%Q; period := "2024-03" |};
      {| stateId := Some "TX"; price := None; period := "2024-04" |} ] "TX") as [_ Hlatest].
  destruct (electricityPrices _ !! "TX") as [p|] eqn:Hp; [|by vm_compute in Hp].
  destruct (Hlatest p eq_refl) as (item & Hin & _ & Hprice & Hmax).
  assert (newer "2024-03" (period item) = false) as Hnot.
  { apply (Hmax {| stateId := Some "TX"; price := Some 15%Q; period := "2024-03" |}).
    - right. left.
    - split; [done|]. split; [done|]. split; [|by eexists].
      apply (bool_decide_unpack _). by vm_compute. }
  apply elem_of_cons in Hin as [->|Hin]; [done|].
  apply elem_of_cons in Hin as [->|Hin]; [by injection Hprice as <-|].
  apply list_elem_of_singleton in Hin as ->. done.
Defined.

(** *** Gasoline: regions to states *)

Definition PADD_TO_STATES : list (string * list string) :=
  [("R1X", ["CT"; "ME"; "MA"; "NH"; "RI"; "VT"]);
   ("R1Y", ["DE"; "DC"; "MD"; "NJ"; "NY"; "PA"]);
   ("R1Z", ["FL"; "GA"; "NC"; "SC"; "VA"; "WV"]);
   ("R20", ["IL"; "IN"; "IA"; "KS"; "KY"; "MI"; "MN"; "MO"; "NE"; "ND"; "OH"; "OK";
            "SD"; "TN"; "WI"]);
   ("R30", ["AL"; "AR"; "LA"; "MS"; "NM"; "TX"]);
   ("R40", ["CO"; "ID"; "MT"; "UT"; "WY"]);
   ("R5XCA", ["AZ"; "NV"; "OR"; "WA"; "AK"]);
   ("SCA", ["CA"])].

(** [item.value ?? item.price], and what [parseFloat] makes of it. *)
Inductive RawPrice : Type :=
| Missing
| NotANumber
| Price (numPrice : Q).

Record GasolineItem : Type := {
  duoarea : option string;
  value : RawPrice;
  weekOf : string
}.

(** [latestByRegion[regionCode] = entry] on an object whose keys are
    listed in insertion order. *)
Definition mapSet {V} (k : string) (v : V) (m : list (string * V)) : list (string * V) :=
  if Bea.mapHas k m then Bea.mapUpdate k (λ _, v) m else m ++ [(k, v)].

(** One turn of the loop that fills [latestByRegion]. *)
Definition regionStep (latestByRegion : list (string * (string * Q))) (item : GasolineItem)
    : list (string * (string * Q)) :=
  match duoarea item, value item with
  | None, _ | _, Missing => latestByRegion
  | Some regionCode, raw =>
      if bool_decide (regionCode = "") then latestByRegion
      else
        match Bea.mapGet regionCode PADD_TO_STATES with
        | None => latestByRegion
        | Some _ =>
            let isNewer :=
              match Bea.mapGet regionCode latestByRegion with
              | Some existing => newer (weekOf item) existing.1
              | None => true
              end in
            if isNewer then
              match raw with
              | Price numPrice => mapSet regionCode (weekOf item, numPrice) latestByRegion
              | _ => latestByRegion
              end
            else latestByRegion
        end
  end.

(** [states.forEach((stateCode) => { priceRecord[stateCode] = value.price })] *)
Definition spread (priceRecord : gmap string Q) (entry : string * (string * Q))
    : gmap string Q :=
  foldl (λ record stateCode, <[stateCode := entry.2.2]> record) priceRecord
    (default [] (Bea.mapGet entry.1 PADD_TO_STATES)).

(** The closure of [getGasolinePricesByState] after a response with
    [response.ok] has been read. *)
Definition gasolinePrices (data : option (list GasolineItem)) : gmap string Q :=
  match data with
  | None => ∅
  | Some items => foldl spread ∅ (foldl regionStep [] items)
  end.

Definition statesOf (regionCode : string) : list string :=
  default [] (Bea.mapGet regionCode PADD_TO_STATES).

Lemma foldl_insert_lookup (record : gmap string Q) (states : list string) (v : Q) s :
  foldl (λ record stateCode, <[stateCode := v]> record) record states !! s =
    if bool_decide (s ∈ states) then Some v else record !! s.
Proof.
  revert record. induction states as [|st states IH]; intros record; cbn.
  { by rewrite bool_decide_eq_false_2 by apply not_elem_of_nil. }
  rewrite IH. case_bool_decide as Hin.
  - by rewrite bool_decide_eq_true_2 by by right.
  - destruct (decide (s = st)) as [->|Hne].
    + rewrite lookup_insert_eq. by rewrite bool_decide_eq_true_2 by left.
    + rewrite lookup_insert_ne by done.
      rewrite bool_decide_eq_false_2; [done|].
      by intros [?|?]%elem_of_cons.
Qed.

Lemma spread_lookup record entry s :
  spread record entry !! s =
    if bool_decide (s ∈ statesOf entry.1) then Some entry.2.2 else record !! s.
Proof. apply foldl_insert_lookup. Qed.

(** No state is listed under two regions. *)
Lemma regions_disjoint r1 r2 s : s ∈ statesOf r1 → s ∈ statesOf r2 → r1 = r2.
Proof.
  assert (∀ r, statesOf r ≠ [] → r ∈ PADD_TO_STATES.*1) as Hknown.
  { intros r Hr. unfold statesOf in Hr.
    destruct (Bea.mapGet r PADD_TO_STATES) as [l|] eqn:Hget; [|done].
    apply BeaMore.mapGet_is_Some. by eexists. }
  intros H1 H2.
  assert (r1 ∈ PADD_TO_STATES.*1) as Hr1
    by (apply Hknown; intros Heq; rewrite Heq in H1; by apply elem_of_nil in H1).
  assert (r2 ∈ PADD_TO_STATES.*1) as Hr2
    by (apply Hknown; intros Heq; rewrite Heq in H2; by apply elem_of_nil in H2).
  assert (Forall (λ a, Forall (λ b, Forall (λ st, st ∈ statesOf b → a = b) (statesOf a))
                         PADD_TO_STATES.*1) PADD_TO_STATES.*1) as Hall.
  { apply (bool_decide_unpack _). by vm_compute. }
  rewrite Forall_forall in Hall. specialize (Hall r1 Hr1).
  rewrite Forall_forall in Hall. specialize (Hall r2 Hr2).
  rewrite Forall_forall in Hall. by apply (Hall s).
Qed.

Lemma regionStep_origin items latest item :
  (∀ r per p, (r, (per, p)) ∈ latest →
     ∃ i, i ∈ items ∧ duoarea i = Some r ∧ value i = Price p) →
  ∀ r per p, (r, (per, p)) ∈ regionStep latest item →
    ∃ i, i ∈ items ++ [item] ∧ duoarea i = Some r ∧ value i = Price p.
Proof.
  intros IH r per p.
  assert ((r, (per, p)) ∈ latest →
          ∃ i, i ∈ items ++ [item] ∧ duoarea i = Some r ∧ value i = Price p) as Hold.
  { intros (i & Hin & Hi)%IH. exists i. split; [apply elem_of_app; by left|done]. }
  unfold regionStep.
  destruct (duoarea item) as [regionCode|] eqn:Hregion; [|by destruct (value item)].
  destruct (value item) as [| |numPrice] eqn:Hvalue; try done.
  - case_bool_decide; [done|].
    destruct (Bea.mapGet regionCode PADD_TO_STATES); [|done].
    by destruct (match Bea.mapGet regionCode latest with
                 | Some existing => newer (weekOf item) existing.1
                 | None => true
                 end).
  - case_bool_decide; [done|].
    destruct (Bea.mapGet regionCode PADD_TO_STATES); [|done].
    destruct (match Bea.mapGet regionCode latest with
              | Some existing => newer (weekOf item) existing.1
              | None => true
              end); [|done].
    unfold mapSet. destruct (Bea.mapHas regionCode latest).
    + intros (old & Hin & Heq)%BeaMore.elem_of_mapUpdate.
      destruct (String.eqb_spec r regionCode) as [->|Hne].
      * injection Heq as -> ->. exists item.
        split; [apply elem_of_app; right; by apply list_elem_of_singleton|done].
      * subst old. by apply Hold.
    + intros [Hin|Hin%list_elem_of_singleton]%elem_of_app; [by apply Hold|].
      injection Hin as -> -> ->. exists item.
      split; [apply elem_of_app; right; by apply list_elem_of_singleton|done].
Qed.

Lemma foldl_regionStep_origin items r per p :
  (r, (per, p)) ∈ foldl regionStep [] items →
  ∃ i, i ∈ items ∧ duoarea i = Some r ∧ value i = Price p.
Proof.
  revert r per p. induction items as [|item items IH] using rev_ind; intros r per p.
  - by intros ?%elem_of_nil.
  - rewrite foldl_app. cbn [foldl]. by apply regionStep_origin.
Qed.

Lemma foldl_spread_origin latest s p :
  foldl spread ∅ latest !! s = Some p →
  ∃ r per, (r, (per, p)) ∈ latest ∧ s ∈ statesOf r.
Proof.
  induction latest as [|[r [per q]] latest IH] using rev_ind.
  - cbn. by rewrite lookup_empty.
  - rewrite foldl_app. cbn [foldl]. rewrite spread_lookup. cbn [fst snd].
    case_bool_decide as Hin.
    + intros [= <-]. exists r, per. split; [|done].
      apply elem_of_app. right. by apply list_elem_of_singleton.
    + intros (r' & per' & Hin' & Hs)%IH. exists r', per'.
      split; [apply elem_of_app; by left|done].
Qed.

(** X23: gasoline prices come by region. Two states of one region
    always have the same price (or both none); a state that is in no
    region, such as Hawaii, never has one; and the price of a state is a
    value reported for its region. *)
Theorem gasoline_by_region (data : option (list GasolineItem)) :
  let record := gasolinePrices data in
  (∀ regionCode s1 s2,
     s1 ∈ statesOf regionCode → s2 ∈ statesOf regionCode → record !! s1 = record !! s2) ∧
  record !! "HI" = None ∧
  (∀ s p, record !! s = Some p →
     ∃ items item regionCode,
       data = Some items ∧ item ∈ items ∧ duoarea item = Some regionCode ∧
       s ∈ statesOf regionCode ∧ value item = Price p).
Proof.
  cbn zeta. split; [|split].
  - intros regionCode s1 s2 H1 H2. unfold gasolinePrices.
    destruct data as [items|]; [|done].
    induction (foldl regionStep [] items) as [|entry latest IH] using rev_ind; [done|].
    rewrite foldl_app. cbn [foldl]. rewrite !spread_lookup.
    destruct (decide (entry.1 = regionCode)) as [->|Hne].
    + by rewrite !bool_decide_eq_true_2.
    + rewrite !bool_decide_eq_false_2; [done| |];
        intros Hin; apply Hne; by eapply regions_disjoint.
  - destruct (gasolinePrices data !! "HI") as [p|] eqn:Hp; [|done].
    unfold gasolinePrices in Hp. destruct data as [items|]; [|by rewrite lookup_empty in Hp].
    apply foldl_spread_origin in Hp as (r & per & _ & Hin).
    assert (Forall (λ r, "HI" ∉ statesOf r) PADD_TO_STATES.*1) as Hall.
    { apply (bool_decide_unpack _). by vm_compute. }
    rewrite Forall_forall in Hall. exfalso. apply (Hall r); [|done].
    unfold statesOf in Hin.
    destruct (Bea.mapGet r PADD_TO_STATES) as [l|] eqn:Hget;
      [|by apply elem_of_nil in Hin].
    apply BeaMore.mapGet_is_Some. by eexists.
  - intros s p Hp. unfold gasolinePrices in Hp.
    destruct data as [items|]; [|by rewrite lookup_empty in Hp].
    apply foldl_spread_origin in Hp as (r & per & Hin & Hs).
    apply foldl_regionStep_origin in Hin as (item & Hitem & Hregion & Hvalue).
    by exists items, item, r.
Qed.

End EiaMore.

(** ** Price index: [src/lib/api/bls.ts] *)

Module Bls.

Record BLSRegion : Type := {
  code : string;
  name : string;
  states : list string
}.

#[global] Instance BLSRegion_eq_dec : EqDecision BLSRegion.
Proof. solve_decision. Defined.

Definition BLS_REGIONS : list BLSRegion :=
  [ {| code := "0100"; name := "Northeast";
       states := ["CT"; "ME"; "MA"; "NH"; "NJ"; "NY"; "PA"; "RI"; "VT"] |};
    {| code := "0200"; name := "Midwest";
       states := ["IL"; "IN"; "IA"; "KS"; "MI"; "MN"; "MO"; "NE"; "ND"; "OH"; "SD"; "WI"] |};
    {| code := "0300"; name := "South";
       states := ["AL"; "AR"; "DE"; "DC"; "FL"; "GA"; "KY"; "LA"; "MD"; "MS";
                  "NC"; "OK"; "SC"; "TN"; "TX"; "VA"; "WV"] |};
    {| code := "0400"; name := "West";
       states := ["AK"; "AZ"; "CA"; "CO"; "HI"; "ID"; "MT"; "NV"; "NM"; "OR"; "UT";
                  "WA"; "WY"] |} ].

Definition getRegionForState (stateCode : string) : option BLSRegion :=
  let upper := Text.toUpperCase stateCode in
  List.find (λ region, bool_decide (upper ∈ states region)) BLS_REGIONS.

(** The keys of [CPI_SERIES]. *)
Inductive RegionKey : Type := national | northeast | midwest | south | west.

#[global] Instance RegionKey_eq_dec : EqDecision RegionKey.
Proof. solve_decision. Defined.

Definition getRegionKey (stateCode : string) : RegionKey :=
  match getRegionForState stateCode with
  | None => national
  | Some region =>
      if String.eqb (code region) "0100" then northeast
      else if String.eqb (code region) "0200" then midwest
      else if String.eqb (code region) "0300" then south
      else if String.eqb (code region) "0400" then west
      else national
  end.

Record SeriesIds : Type := {
  food : string;
  transportation : string;
  medical : string;
  housing : string;
  all : string
}.

Definition CPI_SERIES (regionKey : RegionKey) : SeriesIds :=
  match regionKey with
  | national =>
      {| food := "CUUR0000SAF"; transportation := "CUUR0000SAT"; medical := "CUUR0000SAM";
         housing := "CUUR0000SAH"; all := "CUUR0000SA0" |}
  | northeast =>
      {| food := "CUUR0100SAF"; transportation := "CUUR0100SAT"; medical := "CUUR0100SAM";
         housing := "CUUR0100SAH"; all := "CUUR0100SA0" |}
  | midwest =>
      {| food := "CUUR0200SAF"; transportation := "CUUR0200SAT"; medical := "CUUR0200SAM";
         housing := "CUUR0200SAH"; all := "CUUR0200SA0" |}
  | south =>
      {| food := "CUUR0300SAF"; transportation := "CUUR0300SAT"; medical := "CUUR0300SAM";
         housing := "CUUR0300SAH"; all := "CUUR0300SA0" |}
  | west =>
      {| food := "CUUR0400SAF"; transportation := "CUUR0400SAT"; medical := "CUUR0400SAM";
         housing := "CUUR0400SAH"; all := "CUUR0400SA0" |}
  end.

(** The fields of [CPIData] that the latest value depends on. [year] and
    [month] are the numbers [parseInt] gave; [value = None] is the [NaN]
    that [parseFloat] gives for a value such as ["-"]. *)
Record CPIData : Type := {
  seriesId : string;
  year : Z;
  month : Z;
  value : option Q
}.

(** The comparator of [getLatestCPIValue]. *)
Definition latestFirst (a b : CPIData) : Q :=
  inject_Z (if bool_decide (year a ≠ year b) then year b - year a else month b - month a).

(** [None] is [null]; [Some None] is [NaN]. *)
Definition getLatestCPIValue (data : list CPIData) : option (option Q) :=
  match data with
  | [] => None
  | _ => value <$> head (JsArray.sort latestFirst data)
  end.

(** [x || 0] and the truth of [x] for a latest value: [null], [NaN] and
    [0] are falsy. *)
Definition truthyValue (x : option (option Q)) : option Q :=
  match x with
  | Some (Some q) => if Qeq_bool q 0 then None else Some q
  | _ => None
  end.

Definition orZero (x : option (option Q)) : Q := default 0%Q (truthyValue x).

Record CPIIndexes : Type := {
  foodValue : Q;
  transportationValue : Q;
  medicalValue : Q;
  overall : Q;
  foodIndex : Q;
  transportationIndex : Q;
  medicalIndex : Q
}.

(** [national && regional ? (regional / national) * 100 : 100] *)
Definition indexOf (regional national : option (option Q)) : Q :=
  match truthyValue national, truthyValue regional with
  | Some n, Some r => (r / n * 100)%Q
  | _, _ => 100%Q
  end.

(** The closure of [getCPIByRegion] once [dataBySeriesId] is filled;
    [dataOf id] is [dataBySeriesId.get(id) || []]. *)
Definition cpiIndexes (regionKey : RegionKey) (dataOf : string → list CPIData) : CPIIndexes :=
  let series := CPI_SERIES regionKey in
  let nationalSeries := CPI_SERIES national in
  let regionalFood := getLatestCPIValue (dataOf (food series)) in
  let regionalTransport := getLatestCPIValue (dataOf (transportation series)) in
  let regionalMedical := getLatestCPIValue (dataOf (medical series)) in
  let regionalAll := getLatestCPIValue (dataOf (all series)) in
  let nationalFood := getLatestCPIValue (dataOf (food nationalSeries)) in
  let nationalTransport := getLatestCPIValue (dataOf (transportation nationalSeries)) in
  let nationalMedical := getLatestCPIValue (dataOf (medical nationalSeries)) in
  {| foodValue := orZero regionalFood;
     transportationValue := orZero regionalTransport;
     medicalValue := orZero regionalMedical;
     overall := orZero regionalAll;
     foodIndex := indexOf regionalFood nationalFood;
     transportationIndex := indexOf regionalTransport nationalTransport;
     medicalIndex := indexOf regionalMedical nationalMedical |}.

(** [getCPIByState] picks the region of the state. *)
Definition cpiIndexesOfState (stateCode : string) (dataOf : string → list CPIData)
    : CPIIndexes :=
  cpiIndexes (getRegionKey stateCode) dataOf.

(** [a] is not later than [b]. *)
Definition notLater (a b : CPIData) : Prop :=
  year a < year b ∨ (year a = year b ∧ month a ≤ month b).

Lemma comesAfter_latestFirst a b :
  JsArray.comesAfter latestFirst a b = true ↔ ¬ notLater b a.
Proof.
  unfold JsArray.comesAfter, latestFirst, notLater. rewrite negb_true_iff.
  set (z := if bool_decide (year a ≠ year b) then year b - year a else month b - month a).
  assert (Qle_bool (inject_Z z) 0 = true ↔ z ≤ 0) as Hle.
  { rewrite Qle_bool_iff. change 0%Q with (inject_Z 0). by rewrite <- Zle_Qle. }
  destruct (Qle_bool (inject_Z z) 0).
  - assert (z ≤ 0) as Hz by by apply Hle. split; [done|]. intros Hnot. exfalso.
    apply Hnot. subst z. case_bool_decide; lia.
  - assert (¬ z ≤ 0) as Hz by (intros ?; by apply Hle in H). split; [|done]. intros _.
    subst z. case_bool_decide; lia.
Qed.

Lemma head_insert (x : CPIData) l :
  head (JsArray.insert latestFirst x l) =
    Some (match head l with
          | Some h => if JsArray.comesAfter latestFirst x h then h else x
          | None => x
          end).
Proof. destruct l as [|h l]; [done|]. cbn. by destruct (JsArray.comesAfter _ _ _). Qed.

Lemma head_sort_latest data :
  data ≠ [] →
  ∃ point, head (JsArray.sort latestFirst data) = Some point ∧ point ∈ data ∧
           ∀ other, other ∈ data → notLater other point.
Proof.
  induction data as [|x data IH]; [done|]. intros _.
  cbn [JsArray.sort foldr]. change (foldr (JsArray.insert latestFirst) [] data)
    with (JsArray.sort latestFirst data).
  rewrite head_insert.
  destruct data as [|y data'].
  { cbn. exists x. split; [done|]. split; [left|].
    intros other ->%list_elem_of_singleton. unfold notLater. lia. }
  destruct IH as (h & -> & Hin & Hmax); [done|].
  destruct (JsArray.comesAfter latestFirst x h) eqn:Hxh.
  - exists h. split; [done|]. split; [by right|].
    intros other [->|Ho]%elem_of_cons; [|by apply Hmax].
    apply comesAfter_latestFirst in Hxh. unfold notLater in *. lia.
  - exists x. split; [done|]. split; [left|].
    assert (notLater h x) as Hhx.
    { destruct (decide (notLater h x)) as [?|Hn]; [done|].
      apply comesAfter_latestFirst in Hn. congruence. }
    intros other [->|Ho]%elem_of_cons; [unfold notLater; lia|].
    specialize (Hmax other Ho). unfold notLater in *. lia.
Qed.

(** X24: [getLatestCPIValue] returns [null] for an empty series only;
    otherwise the value of a point whose (year, month) pair is the
    greatest of the series as a pair of numbers, whatever the order of
    the points. *)
Theorem latest_cpi_value (data : list CPIData) :
  (getLatestCPIValue data = None ↔ data = []) ∧
  (data ≠ [] →
   ∃ point, point ∈ data ∧ getLatestCPIValue data = Some (value point) ∧
            ∀ other, other ∈ data → notLater other point).
Proof.
  split.
  - split; [|by intros ->].
    destruct data as [|x data]; [done|]. intros Hnone.
    destruct (head_sort_latest (x :: data)) as (point & Hhead & _); [done|].
    unfold getLatestCPIValue in Hnone. by rewrite Hhead in Hnone.
  - intros Hdata. destruct (head_sort_latest data Hdata) as (point & Hhead & Hin & Hmax).
    exists point. split; [done|]. split; [|done].
    unfold getLatestCPIValue. destruct data; [done|]. by rewrite Hhead.
Qed.

Lemma latest_cpi_value_witness :
  getLatestCPIValue
    [ {| seriesId := "CUUR0000SAF"; year := 2023; month := 12; value := Some 325%Q |};
      {| seriesId := "CUUR0000SAF"; year := 2024; month := 2; value := Some 327%Q |};
      {| seriesId := "CUUR0000SAF"; year := 2024; month := 1; value := Some 326%Q |} ]
  = Some (Some 327%Q).
Proof.
  destruct (latest_cpi_value
    [ {| seriesId := "CUUR0000SAF"; year := 2023; month := 12; value := Some 325%Q |};
      {| seriesId := "CUUR0000SAF"; year := 2024; month := 2; value := Some 327%Q |};
      {| seriesId := "CUUR0000SAF"; year := 2024; month := 1; value := Some 326%Q |} ])
    as [_ Hlatest].
  destruct Hlatest as (point & Hin & -> & Hmax); [done|].
  pose proof (Hmax {| seriesId := "CUUR0000SAF"; year := 2024; month := 2;
                      value := Some 327%Q |}) as Hfeb.
  assert (notLater {| seriesId := "CUUR0000SAF"; year := 2024; month := 2;
                      value := Some 327%Q |} point) as Hle by (apply Hfeb; right; left).
  unfold notLater in Hle. cbn in Hle.
  apply elem_of_cons in Hin as [->|Hin]; [cbn in Hle; lia|].
  apply elem_of_cons in Hin as [->|Hin]; [done|].
  apply list_elem_of_singleton in Hin as ->. cbn in Hle. lia.
Defined.

Lemma indexOf_same x : (indexOf x x == 100)%Q.
Proof.
  unfold indexOf. destruct (truthyValue x) as [q|] eqn:Hq; [|reflexivity].
  assert (¬ (q == 0)%Q) as Hne.
  { unfold truthyValue in Hq. destruct x as [[q'|]|]; try done.
    destruct (Qeq_bool q' 0) eqn:Hz; [done|]. injection Hq as <-.
    by apply Qeq_bool_neq. }
  field. exact Hne.
Qed.

(** X25: the national figures are their own reference: for the key
    [national], and so for every state code that is in no region, the
    food, transportation and medical indexes are 100 whatever the
    series hold, even when they are empty. *)
Theorem national_indexes_are_100 (stateCode : string) (dataOf : string → list CPIData) :
  getRegionForState stateCode = None →
  let indexes := cpiIndexesOfState stateCode dataOf in
  indexes = cpiIndexes national dataOf ∧
  (foodIndex indexes == 100)%Q ∧
  (transportationIndex indexes == 100)%Q ∧
  (medicalIndex indexes == 100)%Q.
Proof.
  intros Hnone. unfold cpiIndexesOfState, getRegionKey. rewrite Hnone.
  split; [done|]. cbn. repeat split; apply indexOf_same.
Qed.

Lemma national_indexes_are_100_witness :
  (foodIndex (cpiIndexesOfState "PR" (λ _, [])) == 100)%Q.
Proof.
  destruct (national_indexes_are_100 "PR" (λ _, [])) as (_ & Hfood & _);
    [reflexivity|exact Hfood].
Defined.

Lemma toUpperChar_idemp c : Text.toUpperChar (Text.toUpperChar c) = Text.toUpperChar c.
Proof. destruct c as [[] [] [] [] [] [] [] []]; reflexivity. Qed.

Lemma toUpperCase_idemp s : Text.toUpperCase (Text.toUpperCase s) = Text.toUpperCase s.
Proof. induction s as [|c s IH]; [done|]. cbn. by rewrite toUpperChar_idemp, IH. Qed.

(** X26: each of the fifty states and the District of Columbia is in
    exactly one BLS region, so none of them falls back to the national
    series; and the lookup does not depend on the case of the letters. *)
Theorem every_state_has_one_region (stateName stateCode : string) :
  (stateName, stateCode) ∈ Eia.STATE_NAME_TO_CODE →
  (∃ region,
     getRegionForState stateCode = Some region ∧
     region ∈ BLS_REGIONS ∧ stateCode ∈ states region ∧
     ∀ other, other ∈ BLS_REGIONS → stateCode ∈ states other → other = region) ∧
  getRegionKey stateCode ≠ national ∧
  ∀ s, getRegionForState (Text.toUpperCase s) = getRegionForState s.
Proof.
  intros Hin.
  assert (Forall (λ entry : string * string,
            ∃ region, getRegionForState entry.2 = Some region ∧
              region ∈ BLS_REGIONS ∧ entry.2 ∈ states region ∧
              Forall (λ other, entry.2 ∈ states other → other = region) BLS_REGIONS ∧
              getRegionKey entry.2 ≠ national) Eia.STATE_NAME_TO_CODE) as Hall.
  { assert (Forall (λ entry : string * string,
              from_option (λ region,
                bool_decide (region ∈ BLS_REGIONS ∧ entry.2 ∈ states region ∧
                  Forall (λ other, entry.2 ∈ states other → other = region) BLS_REGIONS ∧
                  getRegionKey entry.2 ≠ national)) false
                (getRegionForState entry.2) = true) Eia.STATE_NAME_TO_CODE) as Hcheck.
    { apply (bool_decide_unpack _). by vm_compute. }
    eapply Forall_impl; [exact Hcheck|]. intros [n c]. cbn [snd].
    destruct (getRegionForState c) as [region|]; [|done]. cbn [from_option].
    intros H%bool_decide_eq_true. by exists region. }
  rewrite Forall_forall in Hall. specialize (Hall _ Hin). cbn [snd] in Hall.
  destruct Hall as (region & Hget & Hregion & Hstate & Hunique & Hkey).
  rewrite Hget.
  split; [|split; [done|]].
  - exists region. repeat (split; [done|]).
    rewrite Forall_forall in Hunique. exact Hunique.
  - intros s. unfold getRegionForState. by rewrite toUpperCase_idemp.
Qed.

Lemma every_state_has_one_region_witness :
  getRegionKey "TX" ≠ national.
Proof.
  destruct (every_state_has_one_region "Texas" "TX") as (_ & Hkey & _); [|exact Hkey].
  apply (bool_decide_unpack _). by vm_compute.
Defined.

End Bls.
